(** * Relay classic/compat compilation of embedded GraphQL definitions

    A shallow embedding of the two source units that carry the compiler
    pass: the RelayQL printer (functions [printQuery], [printFragment],
    [printMutation], [printSubscription], [printSelections], [printFields],
    [printField], the argument and directive printers, the validators and
    the helpers [codify], [objectify], [shallowFlatten]) and the classic
    normaliser [createClassicAST] of [createClassicNode].  The wrapping of
    a printed definition in a function call ([print]), the modern node and
    the initialisers of the substitution slots are not part of it.

    The printer builds TypeScript expression nodes through [ts.factory];
    those nodes are the inductive type [Printable] below.  A thrown
    exception is the [Throw] outcome of the [result] type. *)

From Stdlib Require Import String Ascii List Bool Arith ZArith Lia.
From Stdlib Require Import DecimalString Floats.
Import ListNotations.
Open Scope string_scope.
Open Scope list_scope.

Set Implicit Arguments.
Set Warnings "-register-all".

(** ** Values handled by the printer *)

(** [string | null | number | boolean]: what [createLiteral] accepts and
    what a metadata object holds.  Numbers are integers here; the printer
    only copies them. *)
Inductive Scalar : Type :=
| SNull
| SBool (b : bool)
| SNum (n : Z)
| SStr (s : string).

(** Literal values below the top of an argument value: scalars, and the
    arrays and objects nested in an object value. *)
Inductive LiteralValue : Type :=
| LitScalar (s : Scalar)
| LitArray (elements : list LiteralValue)
| LitObject (entries : list (string * LiteralValue)).

(** JavaScript truthiness of a scalar. *)
Definition truthy (v : Scalar) : bool :=
  match v with
  | SNull => false
  | SBool b => b
  | SNum n => negb (Z.eqb n 0)
  | SStr s => negb (String.eqb s "")
  end.

(** ** Arguments *)

(** Modelled from the spec: the argument classes of [RelayQLAST] are
    imported by the printer but are not among the sources; the rest of
    that syntax tree follows below.  They come first because the printer
    hands the value of an argument on to [ts.factory] in one place
    without testing what it is. *)

(** [RelayQLArgumentType]: the answers of [isBoolean], [isID], [isString]
    and [getName({modifiers: true})]. *)
Record RelayQLArgumentType : Type := {
  isBoolean : bool;
  isID : bool;
  isString : bool;
  argTypeName : string
}.

(** [RelayQLArgument]: [getName], [getType], and the value, which is a
    variable ([isVariable], [getVariableName]) or what [getValue] returns:
    an array of arguments for a list value, a scalar, or an object. *)
Inductive RelayQLArgument : Type :=
| MkArgument (name : string) (type : RelayQLArgumentType)
             (value : ArgumentValue)
with ArgumentValue : Type :=
| ArgVariable (variableName : string)
| ArgArray (elements : list RelayQLArgument)
| ArgScalar (value : Scalar)
| ArgObject (entries : list (string * LiteralValue)).

Definition argName (a : RelayQLArgument) : string :=
  let 'MkArgument n _ _ := a in n.
Definition argType (a : RelayQLArgument) : RelayQLArgumentType :=
  let 'MkArgument _ t _ := a in t.
Definition argValue (a : RelayQLArgument) : ArgumentValue :=
  let 'MkArgument _ _ v := a in v.

Definition isVariable (a : RelayQLArgument) : bool :=
  match argValue a with
  | ArgVariable _ => true
  | _ => false
  end.

(** ** Printed expressions *)

(** The name [ts.factory.createPropertyAssignment] is given: a string
    becomes an identifier; any other value is stored as it is. *)
Inductive PropertyName : Type :=
| IdentifierName (text : string)
| RawName (value : ArgumentValue).

(** The subset of TypeScript expression nodes the printer creates.  The
    [multiLine] formatting flag of array and object literals is not kept.
    [NullKeyword true] is the one node bound to the printer's constant
    [NULL]; every other call of [ts.factory.createNull()] yields a node that
    is a different object, [NullKeyword false].  The test [value !== NULL]
    of [codify] compares object identity, which is this boolean.
    [NumericLiteral] is [createNumericLiteral] of an integer and
    [FloatLiteral] of a number that is not one.  An object literal all of
    whose property names are identifiers is an [ObjectLiteralExpression];
    [RawObjectLiteralExpression] and [RawIdentifier] are the nodes
    [createObjectLiteralExpression] and [createIdentifier] build when
    they are given a value that is not a string. *)
Inductive Printable : Type :=
| StringLiteral (text : string)
| NumericLiteral (value : Z)
| FloatLiteral (value : float)
| TrueKeyword
| FalseKeyword
| NullKeyword (shared : bool)
| Identifier (text : string)
| RawIdentifier (text : ArgumentValue)
| ArrayLiteralExpression (elements : list Printable)
| ObjectLiteralExpression (properties : list (string * Printable))
| RawObjectLiteralExpression
    (properties : list (PropertyName * Printable))
| PropertyAccessExpression (expression : Printable) (name : string)
| CallExpression (expression : Printable) (arguments : list Printable).

(** The name [createPropertyAssignment(value, ...)] gives the property:
    an identifier for a string, the value itself otherwise. *)
Definition propertyNameOf (value : ArgumentValue) : PropertyName :=
  match value with
  | ArgScalar (SStr text) => IdentifierName text
  | _ => RawName value
  end.

(** The properties, when every name is an identifier. *)
Fixpoint identifierNames (properties : list (PropertyName * Printable))
  : option (list (string * Printable)) :=
  match properties with
  | [] => Some []
  | (IdentifierName text, value) :: rest =>
      option_map (cons (text, value)) (identifierNames rest)
  | (RawName _, _) :: _ => None
  end.

(** [ts.factory.createObjectLiteralExpression] on property assignments
    created with the names given. *)
Definition createObjectLiteralExpression
    (properties : list (PropertyName * Printable)) : Printable :=
  match identifierNames properties with
  | Some named => ObjectLiteralExpression named
  | None => RawObjectLiteralExpression properties
  end.

Definition NULL : Printable := NullKeyword true.
Definition EMPTY_ARRAY : Printable := ArrayLiteralExpression [].

Definition isNULL (p : Printable) : bool :=
  match p with
  | NullKeyword true => true
  | _ => false
  end.

(** ** Outcomes *)

Inductive DefinitionKind := KQuery | KMutation | KSubscription.

Inductive PaginationPair := FirstLast | BeforeFirst | AfterLast.

Inductive MutationShape :=
| DeclaredArgumentCount (n : nat)
| DeclaredArgumentName (name : string)
| AppliedArgumentCount (n : nat).

(** One constructor per [throw] site of the printer; the source location
    every [RelayTransformError] carries is not kept.  [TypeError] stands
    for the errors the JavaScript run time raises itself (a property read
    on [undefined]) and for the [TypeError] of [createLiteral]. *)
Inductive Error : Type :=
| TooManyRootFields (kind : DefinitionKind) (count : nat) (name : string)
| InvalidRootFieldArity (rootField : string)
| ConflictingPaginationArguments (pair : PaginationPair) (field : string)
| MissingPaginationArgument (subfield field : string)
| UseEdgesNodeInstead (subfield field : string)
| WrongMutationArgumentShape (shape : MutationShape) (field : string)
| MisplacedNodeField (parentType : string)
| SpreadDirectiveInTemplate
| RelayDirectiveVariableArgument (variable argument : string)
| RelayVariablesNotArray
| InvariantViolation (what : string)
| TypeError (what : string).

Inductive result (A : Type) : Type :=
| Ok (a : A)
| Throw (e : Error)
| OutOfFuel.

Arguments Ok {A} a.
Arguments Throw {A} e.
Arguments OutOfFuel {A}.

Definition bind {A B} (m : result A) (k : A -> result B) : result B :=
  match m with
  | Ok a => k a
  | Throw e => Throw e
  | OutOfFuel => OutOfFuel
  end.

Notation "x <- m ;; k" := (bind m (fun x => k))
  (at level 61, m at next level, right associativity).
Notation "m ;;; k" := (bind m (fun _ => k))
  (at level 61, right associativity).

(** [array.map(f)] and [array.forEach(f)] for an [f] that may throw:
    elements are handled left to right and the first exception ends the
    loop. *)
Section Loops.
Variables A B : Type.
Variable f : A -> result B.

Fixpoint mapM (l : list A) : result (list B) :=
  match l with
  | [] => Ok []
  | x :: rest =>
      y <- f x ;;
      ys <- mapM rest ;;
      Ok (y :: ys)
  end.

Variable g : A -> result unit.

Fixpoint forEachM (l : list A) : result unit :=
  match l with
  | [] => Ok tt
  | x :: rest => g x ;;; forEachM rest
  end.
End Loops.

(** ** JavaScript objects used as ordered sets of keys *)

(** [requisiteFields], [generatedFields] and [variableNames] are plain
    objects whose keys are field or variable names; [Object.keys] lists them
    in insertion order.  They are lists without repetition here. *)
Definition KeySet := list string.

Definition hasOwnProperty (o : KeySet) (k : string) : bool :=
  existsb (String.eqb k) o.

(** [o[k] = true] *)
Definition setKey (o : KeySet) (k : string) : KeySet :=
  if hasOwnProperty o k then o else o ++ [k].

(** [delete o[k]] *)
Definition deleteKey (o : KeySet) (k : string) : KeySet :=
  filter (fun k' => negb (String.eqb k k')) o.

(** ** Literals *)

(** The integer a number is, when it is one. *)
Definition integerOf (x : float) : option Z :=
  match Prim2SF x with
  | S754_zero _ => Some 0%Z
  | S754_finite negative m e =>
      let sign (z : Z) := if negative then Z.opp z else z in
      if (0 <=? e)%Z then Some (sign (Z.pos m * 2 ^ e)%Z)
      else if (Z.pos m mod 2 ^ (- e) =? 0)%Z
      then Some (sign (Z.pos m / 2 ^ (- e))%Z)
      else None
  | _ => None
  end.

(** [ts.factory.createNumericLiteral] of a number: the node holds the
    text JavaScript prints for the number, which is the same for two
    numbers exactly when they are equal. *)
Definition createNumericLiteral (x : float) : Printable :=
  match integerOf x with
  | Some n => NumericLiteral n
  | None => FloatLiteral x
  end.

Definition createLiteral (value : Scalar) : Printable :=
  match value with
  | SStr s => StringLiteral s
  | SNum n => NumericLiteral n
  | SBool true => TrueKeyword
  | SBool false => FalseKeyword
  | SNull => NullKeyword false
  end.

(** ** [codify], [objectify], [shallowFlatten], [identify] *)

Definition codify (obj : list (string * Printable)) : Printable :=
  ObjectLiteralExpression
    (filter (fun kv => negb (isNULL (snd kv))) obj).

Definition objectify (obj : list (string * Scalar)) : Printable :=
  ObjectLiteralExpression
    (map (fun kv => (fst kv, createLiteral (snd kv)))
         (filter (fun kv => truthy (snd kv)) obj)).

Definition shallowFlatten (arr : Printable) : Printable :=
  CallExpression
    (PropertyAccessExpression
       (PropertyAccessExpression EMPTY_ARRAY "concat") "apply")
    [EMPTY_ARRAY; arr].

(** [str.split('.')] *)
Fixpoint splitDots (acc : string) (s : string) : list string :=
  match s with
  | EmptyString => [acc]
  | String c rest =>
      if Ascii.eqb c "."%char
      then acc :: splitDots "" rest
      else splitDots (acc ++ String c "") rest
  end.

Definition identify (str : string) : Printable :=
  match splitDots "" str with
  | [] => NullKeyword false
  | first :: others =>
      fold_left (fun acc name => PropertyAccessExpression acc name)
                others (Identifier first)
  end.

Fixpoint printLiteralValue (value : LiteralValue) : Printable :=
  match value with
  | LitScalar SNull => NULL
  | LitScalar s => createLiteral s
  | LitArray elements =>
      ArrayLiteralExpression (map printLiteralValue elements)
  | LitObject entries =>
      ObjectLiteralExpression
        (map (fun kv => (fst kv, printLiteralValue (snd kv))) entries)
  end.

(** ** The RelayQL syntax tree and the schema facade *)

(** Modelled from the spec: the classes of [RelayQLAST] (the arguments
    above, directives, fields, fragments, spreads, definitions and the
    type handle) are imported by the printer but are not among the
    sources.
    Each class is the record of what its accessors return, as the data
    model of the specification lists them (Field: name, optional alias,
    arguments, directives, nested selection set, type handle); the type
    handle is an opaque reference answered by the schema facade. *)

Record RelayQLDirective : Type := {
  directiveName : string;
  directiveArguments : list RelayQLArgument
}.

Section Syntax.
(** The type handle ([RelayQLType]). *)
Variable RelayQLType : Type.

Inductive RelayQLField : Type :=
| MkField (name : string) (alias : option string) (type : RelayQLType)
          (arguments : list RelayQLArgument)
          (declaredArguments : list (string * RelayQLArgumentType))
          (directives : list RelayQLDirective)
          (selections : list Selection)
          (pattern : bool)
with RelayQLFragment : Type :=
| MkFragment (name : string) (type : RelayQLType)
             (directives : list RelayQLDirective)
             (selections : list Selection)
with Selection : Type :=
| SelField (field : RelayQLField)
| SelFragmentSpread (name : string) (directives : list RelayQLDirective)
| SelInlineFragment (fragment : RelayQLFragment).

Definition fieldName (f : RelayQLField) : string :=
  let 'MkField n _ _ _ _ _ _ _ := f in n.
Definition fieldAlias (f : RelayQLField) : option string :=
  let 'MkField _ a _ _ _ _ _ _ := f in a.
Definition fieldType (f : RelayQLField) : RelayQLType :=
  let 'MkField _ _ t _ _ _ _ _ := f in t.
Definition fieldArguments (f : RelayQLField) : list RelayQLArgument :=
  let 'MkField _ _ _ a _ _ _ _ := f in a.
Definition fieldDeclaredArguments (f : RelayQLField)
  : list (string * RelayQLArgumentType) :=
  let 'MkField _ _ _ _ d _ _ _ := f in d.
Definition fieldDirectives (f : RelayQLField) : list RelayQLDirective :=
  let 'MkField _ _ _ _ _ d _ _ := f in d.
Definition fieldSelections (f : RelayQLField) : list Selection :=
  let 'MkField _ _ _ _ _ _ s _ := f in s.
Definition isPattern (f : RelayQLField) : bool :=
  let 'MkField _ _ _ _ _ _ _ p := f in p.

Definition fragmentName (f : RelayQLFragment) : string :=
  let 'MkFragment n _ _ _ := f in n.
Definition fragmentType (f : RelayQLFragment) : RelayQLType :=
  let 'MkFragment _ t _ _ := f in t.
Definition fragmentDirectives (f : RelayQLFragment)
  : list RelayQLDirective :=
  let 'MkFragment _ _ d _ := f in d.
Definition fragmentSelections (f : RelayQLFragment) : list Selection :=
  let 'MkFragment _ _ _ s := f in s.

(** [find(field.getArguments(), arg => arg.getName() === name)] *)
Definition findArgument (f : RelayQLField) (name : string)
  : option RelayQLArgument :=
  find (fun a => String.eqb (argName a) name) (fieldArguments f).

Definition hasArgument (f : RelayQLField) (name : string) : bool :=
  existsb (fun a => String.eqb (argName a) name) (fieldArguments f).

Definition hasDeclaredArgument (f : RelayQLField) (name : string) : bool :=
  existsb (fun d => String.eqb (fst d) name) (fieldDeclaredArguments f).

(** [getDeclaredArgument] fails its invariant on an undeclared name. *)
Definition getDeclaredArgument (f : RelayQLField) (name : string)
  : result RelayQLArgumentType :=
  match find (fun d => String.eqb (fst d) name)
             (fieldDeclaredArguments f) with
  | Some d => Ok (snd d)
  | None => Throw (InvariantViolation "undeclared argument")
  end.

(** A field or a fragment, where the source has the union type
    [RelayQLField | RelayQLFragment]. *)
Inductive FieldOrFragment : Type :=
| OfField (f : RelayQLField)
| OfFragment (f : RelayQLFragment).

Definition getType (n : FieldOrFragment) : RelayQLType :=
  match n with
  | OfField f => fieldType f
  | OfFragment f => fragmentType f
  end.

Definition getSelections (n : FieldOrFragment) : list Selection :=
  match n with
  | OfField f => fieldSelections f
  | OfFragment f => fragmentSelections f
  end.

Definition getDirectives (n : FieldOrFragment) : list RelayQLDirective :=
  match n with
  | OfField f => fieldDirectives f
  | OfFragment f => fragmentDirectives f
  end.

Definition hasDirective (n : FieldOrFragment) (name : string) : bool :=
  existsb (fun d => String.eqb (directiveName d) name) (getDirectives n).

(** [RelayQLQuery], [RelayQLMutation], [RelayQLSubscription]: [getName],
    [getFields] (the root fields) and [getDirectives]. *)
Record RelayQLOperation : Type := {
  operationName : string;
  getFields : list RelayQLField;
  operationDirectives : list RelayQLDirective
}.

(** The schema facade: what the printer asks of a type handle. *)
Record SchemaFacade : Type := {
  getName : RelayQLType -> bool -> string;
  isAbstract : RelayQLType -> bool;
  isList : RelayQLType -> bool;
  isConnection : RelayQLType -> bool;
  isConnectionEdge : RelayQLType -> bool;
  isConnectionPageInfo : RelayQLType -> bool;
  canHaveSubselections : RelayQLType -> bool;
  isQueryType : RelayQLType -> bool;
  hasField : RelayQLType -> string -> bool;
  mayImplement : RelayQLType -> string -> bool;
  alwaysImplements : RelayQLType -> string -> bool;
  (** the name of the identifying field definition, if there is one *)
  getIdentifyingFieldDefinition : RelayQLType -> option string;
  (** the type of a field definition, if the field is defined *)
  getFieldDefinition : RelayQLType -> string -> option RelayQLType;
  generateField : RelayQLType -> string -> RelayQLField;
  generateIdFragment : RelayQLType -> RelayQLFragment
}.
End Syntax.

Arguments SelFragmentSpread {RelayQLType} name directives.

(** ** The printer *)

Record PrinterOptions : Type := {
  inputArgumentName : option string;
  snakeCase : bool
}.

(** [name.replace(/[A-Z]/g, letter => '_' + letter.toLowerCase())] *)
Definition isUpper (c : ascii) : bool :=
  let n := nat_of_ascii c in ((65 <=? n)%nat && (n <=? 90)%nat)%bool.

Definition toLowerCase (c : ascii) : ascii :=
  if isUpper c then ascii_of_nat (nat_of_ascii c + 32) else c.

Fixpoint toSnakeCase (name : string) : string :=
  match name with
  | EmptyString => EmptyString
  | String c rest =>
      if isUpper c
      then String "_"%char (String (toLowerCase c) (toSnakeCase rest))
      else String c (toSnakeCase rest)
  end.

(** The table [FIELDS] of well-known field names. *)
Record FieldNames : Type := {
  f__typename : string;
  f_clientMutationId : string;
  f_clientSubscriptionId : string;
  f_cursor : string;
  f_edges : string;
  f_hasNextPage : string;
  f_hasPreviousPage : string;
  f_node : string;
  f_pageInfo : string
}.

Module RelayQLPrinter.

Section Printer.
Variable RelayQLType : Type.
Variable schema : SchemaFacade RelayQLType.
(** [ID], imported from [RelayQLNodeInterface]. *)
Variable ID : string.
Variable options : PrinterOptions.
(** The two fields of a printer instance. *)
Variable tagName : string.
Variable variableNames : KeySet.

Local Abbreviation Field := (RelayQLField RelayQLType).
Local Abbreviation Fragment := (RelayQLFragment RelayQLType).
Local Abbreviation Node := (FieldOrFragment RelayQLType).

Definition formatFields (name : string) : string :=
  if snakeCase options then toSnakeCase name else name.

Definition FIELDS : FieldNames := {|
  f__typename := formatFields "__typename";
  f_clientMutationId := formatFields "clientMutationId";
  f_clientSubscriptionId := formatFields "clientSubscriptionId";
  f_cursor := formatFields "cursor";
  f_edges := formatFields "edges";
  f_hasNextPage := formatFields "hasNextPage";
  f_hasPreviousPage := formatFields "hasPreviousPage";
  f_node := formatFields "node";
  f_pageInfo := formatFields "pageInfo"
|}.

(** [options.inputArgumentName || 'input'] *)
Definition INPUT_ARGUMENT_NAME : string :=
  match inputArgumentName options with
  | Some s => if String.eqb s "" then "input" else s
  | None => "input"
  end.

Definition findRelayDirective (node : Node) : option RelayQLDirective :=
  find (fun d => String.eqb (directiveName d) "relay")
       (getDirectives node).

Definition printVariable (name : string) : Printable :=
  if hasOwnProperty variableNames name
  then CallExpression
         (PropertyAccessExpression (identify tagName) "__var")
         [Identifier name]
  else codify [("kind", StringLiteral "CallVariable");
               ("callVariableName", StringLiteral name)].

(** [String(value)], the key that [hasOwnProperty(value)] looks up for
    what [getValue] returned: an array prints its elements, which are
    argument objects, separated by commas.  Numbers are integers here and
    print in decimal. *)
Definition propertyKey (value : ArgumentValue) : string :=
  match value with
  | ArgVariable name => name
  | ArgArray elements =>
      String.concat "," (map (fun _ => "[object Object]") elements)
  | ArgScalar SNull => "null"
  | ArgScalar (SBool true) => "true"
  | ArgScalar (SBool false) => "false"
  | ArgScalar (SNum n) => NilZero.string_of_int (Z.to_int n)
  | ArgScalar (SStr s) => s
  | ArgObject _ => "[object Object]"
  end.

(** [printVariable(value)] as [printFragment] calls it, on what
    [getValue] returned for an item of [variables], a string or not:
    [createIdentifier] and [createLiteral] are given the value as it is,
    and [createLiteral] throws on an array or an object. *)
Definition printVariableOf (value : ArgumentValue) : result Printable :=
  match value with
  | ArgScalar (SStr name) => Ok (printVariable name)
  | _ =>
      if hasOwnProperty variableNames (propertyKey value)
      then Ok (CallExpression
                 (PropertyAccessExpression (identify tagName) "__var")
                 [RawIdentifier value])
      else
        match value with
        | ArgScalar v =>
            Ok (codify [("kind", StringLiteral "CallVariable");
                        ("callVariableName", createLiteral v)])
        | _ => Throw (TypeError "Invalid literal value")
        end
  end.

(** [printValue], with the recursive call on the elements of a list
    passed in. *)
Definition printValueWith
    (printArgumentValue : RelayQLArgument -> result Printable)
    (value : ArgumentValue) : result Printable :=
  match value with
  | ArgArray elements =>
      printed <- mapM printArgumentValue elements ;;
      Ok (ArrayLiteralExpression printed)
  | ArgScalar v =>
      Ok (codify [("kind", StringLiteral "CallValue");
                  ("callValue",
                   match v with
                   | SNull => NullKeyword false
                   | _ => printLiteralValue (LitScalar v)
                   end)])
  | ArgObject entries =>
      Ok (codify [("kind", StringLiteral "CallValue");
                  ("callValue", printLiteralValue (LitObject entries))])
  | ArgVariable _ =>
      Throw (InvariantViolation "Cannot get value of an argument variable")
  end.

Fixpoint printArgumentValue (arg : RelayQLArgument) : result Printable :=
  match arg with
  | MkArgument _ _ (ArgVariable name) => Ok (printVariable name)
  | MkArgument _ _ value => printValueWith printArgumentValue value
  end.

Definition printValue (value : ArgumentValue) : result Printable :=
  printValueWith printArgumentValue value.

Definition printArgumentTypeForMetadata (t : RelayQLArgumentType)
  : Scalar :=
  if isBoolean t || isID t || isString t
  then SNull
  else SStr (argTypeName t).

Definition printArgument (arg : RelayQLArgument) : result Printable :=
  let inputType := printArgumentTypeForMetadata (argType arg) in
  let metadata :=
    if truthy inputType then [("type", inputType)] else [] in
  value <- printArgumentValue arg ;;
  Ok (codify [("kind", StringLiteral "Call");
              ("metadata", objectify metadata);
              ("name", StringLiteral (argName arg));
              ("value", value)]).

Definition printDirective (directive : RelayQLDirective)
  : result Printable :=
  args <- mapM (fun arg =>
                  value <- printArgumentValue arg ;;
                  Ok (ObjectLiteralExpression
                        [("name", StringLiteral (argName arg));
                         ("value", value)]))
               (directiveArguments directive) ;;
  Ok (ObjectLiteralExpression
        [("kind", StringLiteral "Directive");
         ("name", StringLiteral (directiveName directive));
         ("args", ArrayLiteralExpression args)]).

Definition printDirectives (directives : list RelayQLDirective)
  : result Printable :=
  printedDirectives <-
    mapM printDirective
         (filter (fun d => negb (String.eqb (directiveName d) "relay"))
                 directives) ;;
  match printedDirectives with
  | [] => Ok NULL
  | _ => Ok (ArrayLiteralExpression printedDirectives)
  end.

(** The property an argument of [@relay] contributes: none for
    [variables], an exception for a variable. *)
Definition relayDirectiveProperty (arg : RelayQLArgument)
  : result (list (string * Printable)) :=
  match argValue arg with
  | ArgVariable v =>
      Throw (RelayDirectiveVariableArgument v (argName arg))
  | ArgScalar v =>
      if String.eqb (argName arg) "variables" then Ok []
      else Ok [(argName arg, createLiteral v)]
  | ArgArray _ | ArgObject _ =>
      if String.eqb (argName arg) "variables" then Ok []
      else Throw (TypeError "Invalid literal value")
  end.

Definition printRelayDirectiveMetadata (node : Node)
    (maybeMetadata : option (list (string * Scalar))) : result Printable :=
  fromDirective <-
    match findRelayDirective node with
    | Some relayDirective =>
        mapM relayDirectiveProperty (directiveArguments relayDirective)
    | None => Ok []
    end ;;
  let computed :=
    match maybeMetadata with
    | Some metadata =>
        map (fun kv => (fst kv, createLiteral (snd kv))) metadata
    | None => []
    end in
  Ok (ObjectLiteralExpression (concat fromDirective ++ computed)).

(** What a successful [printRelayDirectiveMetadata] takes from the
    directive: one property per scalar argument of [@relay] other than
    [variables], in the order of the arguments. *)
Definition relayScalars (node : Node) : list (string * Printable) :=
  match findRelayDirective node with
  | Some relayDirective =>
      flat_map (fun arg =>
                  match argValue arg with
                  | ArgScalar v =>
                      if String.eqb (argName arg) "variables" then []
                      else [(argName arg, createLiteral v)]
                  | _ => []
                  end)
               (directiveArguments relayDirective)
  | None => []
  end.

Definition printFragmentReference (name : string) : Printable :=
  CallExpression
    (PropertyAccessExpression (identify tagName) "__frag")
    [Identifier name].

Definition printFragmentID : Printable :=
  CallExpression
    (PropertyAccessExpression (identify tagName) "__id") [].

(** *** Validators *)

Definition shouldGenerateIdFragment (node : Node) : bool :=
  mayImplement schema (getType node) "Node" &&
  negb (existsb
          (fun selection =>
             match selection with
             | SelInlineFragment fragment =>
                 String.eqb (getName schema (fragmentType fragment) false)
                            "Node"
             | _ => false
             end)
          (getSelections node)).

Definition validateField (field : Field) (parentType : RelayQLType)
  : result unit :=
  if String.eqb (fieldName field) "node" then
    let argNames := map fst (fieldDeclaredArguments field) in
    if negb (isQueryType schema parentType)
       && (length argNames =? 1)%nat
       && match argNames with
          | first :: _ => String.eqb first ID
          | [] => false
          end
    then Throw (MisplacedNodeField (getName schema parentType false))
    else Ok tt
  else Ok tt.

(** [!x || !y || (x.isVariable() && y.isVariable())] *)
Definition pairCondition (x y : option RelayQLArgument) : bool :=
  match x, y with
  | Some a, Some b => isVariable a && isVariable b
  | _, _ => true
  end.

Fixpoint forEachRecursiveSelection (callback : Field -> result unit)
    (selection : Selection RelayQLType) : result unit :=
  match selection with
  | SelField field => callback field
  | SelInlineFragment (MkFragment _ _ _ selections) =>
      forEachM (forEachRecursiveSelection callback) selections
  | SelFragmentSpread _ _ => Ok tt
  end.

Definition forEachRecursiveField (parentSelection : Node)
    (callback : Field -> result unit) : result unit :=
  forEachM (forEachRecursiveSelection callback)
           (getSelections parentSelection).

Definition validateConnectionField (field : Field) : result unit :=
  let first := findArgument field "first" in
  let last := findArgument field "last" in
  let before := findArgument field "before" in
  let after := findArgument field "after" in
  if negb (pairCondition first last)
  then Throw (ConflictingPaginationArguments FirstLast (fieldName field))
  else if negb (pairCondition first before)
  then Throw (ConflictingPaginationArguments BeforeFirst (fieldName field))
  else if negb (pairCondition last after)
  then Throw (ConflictingPaginationArguments AfterLast (fieldName field))
  else
    match getFieldDefinition schema (fieldType field) (f_edges FIELDS) with
    | None => Throw (TypeError "getType of a missing field definition")
    | Some edgesType =>
        match getFieldDefinition schema edgesType (f_node FIELDS) with
        | None => Throw (TypeError "getType of a missing field definition")
        | Some connectionNodeType =>
            forEachRecursiveField (OfField field)
              (fun subfield =>
                 if String.eqb (fieldName subfield) (f_edges FIELDS)
                    || String.eqb (fieldName subfield) (f_pageInfo FIELDS)
                 then
                   let hasCondition :=
                     isPattern field
                     || hasArgument field "find"
                     || hasArgument field "first"
                     || hasArgument field "last" in
                   if negb hasCondition
                   then Throw (MissingPaginationArgument
                                 (fieldName subfield) (fieldName field))
                   else Ok tt
                 else
                   let subfieldType := fieldType subfield in
                   let isNodesLikeField :=
                     isList schema subfieldType
                     && String.eqb
                          (getName schema subfieldType false)
                          (getName schema connectionNodeType false) in
                   if isNodesLikeField
                   then Throw (UseEdgesNodeInstead
                                 (fieldName subfield) (fieldName field))
                   else Ok tt)
        end
    end.

Definition validateMutationField (rootField : Field) : result unit :=
  let declaredArgNames := map fst (fieldDeclaredArguments rootField) in
  if negb (length declaredArgNames =? 1)%nat
  then Throw (WrongMutationArgumentShape
                (DeclaredArgumentCount (length declaredArgNames))
                (fieldName rootField))
  else
    let first := hd "" declaredArgNames in
    if negb (String.eqb first INPUT_ARGUMENT_NAME)
    then Throw (WrongMutationArgumentShape
                  (DeclaredArgumentName first) (fieldName rootField))
    else
      let rootFieldArgs := fieldArguments rootField in
      if (1 <? length rootFieldArgs)%nat
      then Throw (WrongMutationArgumentShape
                    (AppliedArgumentCount (length rootFieldArgs))
                    (fieldName rootField))
      else Ok tt.

(** *** Selections, fields and fragments *)

(** The loop of [printSelections] over [parent.getSelections()]: the
    fields met, the printed fragments and fragment references, and
    [didPrintFragmentReference]. *)
Fixpoint partitionSelections
    (printFragment : Fragment -> result Printable)
    (selections : list (Selection RelayQLType))
  : result (list Field * list Printable * bool) :=
  match selections with
  | [] => Ok ([], [], false)
  | SelFragmentSpread name directives :: rest =>
      if negb (length directives =? 0)%nat
      then Throw SpreadDirectiveInTemplate
      else
        r <- partitionSelections printFragment rest ;;
        let '(fields, printedFragments, _) := r in
        Ok (fields, printFragmentReference name :: printedFragments, true)
  | SelInlineFragment fragment :: rest =>
      printed <- printFragment fragment ;;
      r <- partitionSelections printFragment rest ;;
      let '(fields, printedFragments, didPrint) := r in
      Ok (fields, printed :: printedFragments, didPrint)
  | SelField field :: rest =>
      r <- partitionSelections printFragment rest ;;
      let '(fields, printedFragments, didPrint) := r in
      Ok (field :: fields, printedFragments, didPrint)
  end.

(** The first loop of [printFields]: each requested field is removed
    from [generatedFields] and then printed against the object as it is
    at that point. *)
Fixpoint printRequestedFields
    (printField : Field -> KeySet -> result Printable)
    (fields : list Field) (generatedFields : KeySet)
  : result (list Printable * KeySet) :=
  match fields with
  | [] => Ok ([], generatedFields)
  | field :: rest =>
      let generatedFields := deleteKey generatedFields (fieldName field) in
      printed <- printField field generatedFields ;;
      r <- printRequestedFields printField rest generatedFields ;;
      Ok (printed :: fst r, snd r)
  end.

(** The object [requisiteFields] of [printField], which it fills for the
    selections of the field. *)
Definition fieldRequisites (field : Field) : KeySet :=
  let fieldType := fieldType field in
  let r := if hasField schema fieldType ID then setKey [] ID else [] in
  let r :=
    if isConnection schema fieldType then r
    else if isConnectionPageInfo schema fieldType
    then setKey (setKey r (f_hasNextPage FIELDS)) (f_hasPreviousPage FIELDS)
    else if isConnectionEdge schema fieldType
    then setKey (setKey r (f_cursor FIELDS)) (f_node FIELDS)
    else r in
  if isAbstract schema fieldType then setKey r (f__typename FIELDS) else r.

Definition flag (condition : bool) (key : string)
  : list (string * Scalar) :=
  if condition then [(key, SBool true)] else [].

(** The object [metadata] of [printField], its keys in the order they
    are assigned. *)
Definition fieldMetadata (field : Field)
    (requisiteSiblings generatedSiblings : KeySet)
  : list (string * Scalar) :=
  let fieldType := fieldType field in
  flag (canHaveSubselections schema fieldType) "canHaveSubselections"
  ++ (if alwaysImplements schema fieldType "Node"
      then [("inferredRootCallName", SStr "node");
            ("inferredPrimaryKey", SStr ID)]
      else [])
  ++ (if isConnection schema fieldType
         && (hasDeclaredArgument field "first"
             || hasDeclaredArgument field "last")
      then ("isConnection", SBool true)
           :: flag (hasDeclaredArgument field "find") "isFindable"
      else [])
  ++ flag (isAbstract schema fieldType) "isAbstract"
  ++ flag (isList schema fieldType) "isPlural"
  ++ flag (hasOwnProperty generatedSiblings (fieldName field)) "isGenerated"
  ++ flag (hasOwnProperty requisiteSiblings (fieldName field)) "isRequisite".

(** [idFragment ? [idFragment] : null], for a field or a fragment. *)
Definition idFragmentOf (node : Node) : option (list Fragment) :=
  if hasField schema (getType node) ID then None
  else if shouldGenerateIdFragment node
  then Some [generateIdFragment schema (getType node)]
  else None.

(** [relayDirective && find(relayDirective.getArguments(), ...)] *)
Definition selectVariablesOf (fragment : Fragment)
  : option RelayQLArgument :=
  match findRelayDirective (OfFragment fragment) with
  | Some relayDirective =>
      find (fun arg => String.eqb (argName arg) "variables")
           (directiveArguments relayDirective)
  | None => None
  end.

Fixpoint printSelections (fuel : nat) (parent : Node)
    (requisiteFields : KeySet) (extraFragments : option (list Fragment))
    (isGeneratedQuery : bool) {struct fuel} : result Printable :=
  match fuel with
  | O => OutOfFuel
  | S fuel =>
      r <- partitionSelections (printFragment fuel)
                               (getSelections parent) ;;
      let '(fields, printedFragments, didPrintFragmentReference) := r in
      extra <- match extraFragments with
               | Some fragments => mapM (printFragment fuel) fragments
               | None => Ok []
               end ;;
      printedFields <-
        printFields fuel fields parent requisiteFields isGeneratedQuery ;;
      let selections := printedFields ++ printedFragments ++ extra in
      match selections with
      | [] => Ok NULL
      | _ =>
          let arrayExpressionOfSelections :=
            ArrayLiteralExpression selections in
          Ok (if didPrintFragmentReference
              then shallowFlatten arrayExpressionOfSelections
              else arrayExpressionOfSelections)
      end
  end

with printFields (fuel : nat) (fields : list Field) (parent : Node)
    (requisiteFields : KeySet) (isGeneratedQuery : bool) {struct fuel}
  : result (list Printable) :=
  match fuel with
  | O => OutOfFuel
  | S fuel =>
      let parentType := getType parent in
      let requisiteFields :=
        if isConnection schema parentType
           && hasField schema parentType (f_pageInfo FIELDS)
           && existsb (fun field =>
                         String.eqb (fieldName field) (f_edges FIELDS))
                      fields
        then setKey requisiteFields (f_pageInfo FIELDS)
        else requisiteFields in
      r <- printRequestedFields
             (fun field generatedFields =>
                printField fuel field parent requisiteFields
                           generatedFields isGeneratedQuery)
             fields requisiteFields ;;
      let '(printedFields, generatedFields) := r in
      printedGenerated <-
        mapM (fun fieldName =>
                printField fuel (generateField schema parentType fieldName)
                           parent requisiteFields generatedFields
                           isGeneratedQuery)
             generatedFields ;;
      Ok (printedFields ++ printedGenerated)
  end

with printField (fuel : nat) (field : Field) (parent : Node)
    (requisiteSiblings generatedSiblings : KeySet)
    (isGeneratedQuery : bool) {struct fuel} : result Printable :=
  match fuel with
  | O => OutOfFuel
  | S fuel =>
      let fieldType := fieldType field in
      (if isGeneratedQuery then Ok tt
       else validateField field (getType parent)) ;;;
      (if isConnection schema fieldType
          && (hasDeclaredArgument field "first"
              || hasDeclaredArgument field "last")
          && negb isGeneratedQuery
       then validateConnectionField field
       else Ok tt) ;;;
      selections <-
        printSelections fuel (OfField field) (fieldRequisites field)
                        (idFragmentOf (OfField field)) isGeneratedQuery ;;
      calls <-
        match fieldArguments field with
        | [] => Ok NULL
        | args =>
            printed <- mapM printArgument args ;;
            Ok (ArrayLiteralExpression printed)
        end ;;
      directives <- printDirectives (fieldDirectives field) ;;
      metadata <-
        printRelayDirectiveMetadata
          (OfField field)
          (Some (fieldMetadata field requisiteSiblings
                               generatedSiblings)) ;;
      Ok (codify
            [("alias",
              match fieldAlias field with
              | Some a =>
                  if String.eqb a "" then NULL
                  else createLiteral (SStr a)
              | None => NULL
              end);
             ("calls", calls);
             ("children", selections);
             ("directives", directives);
             ("fieldName", createLiteral (SStr (fieldName field)));
             ("kind", createLiteral (SStr "Field"));
             ("metadata", metadata);
             ("type",
              createLiteral (SStr (getName schema fieldType false)))])
  end

with printFragment (fuel : nat) (fragment : Fragment) {struct fuel}
  : result Printable :=
  match fuel with
  | O => OutOfFuel
  | S fuel =>
      let fragmentType := fragmentType fragment in
      let requisiteFields :=
        if hasField schema fragmentType ID then setKey [] ID else [] in
      let requisiteFields :=
        if isAbstract schema fragmentType
        then setKey requisiteFields (f__typename FIELDS)
        else requisiteFields in
      selections <-
        printSelections fuel (OfFragment fragment) requisiteFields
                        (idFragmentOf (OfFragment fragment))
                        (hasDirective (OfFragment fragment) "generated") ;;
      let selectVariables := selectVariablesOf fragment in
      metadata <-
        printRelayDirectiveMetadata
          (OfFragment fragment)
          (Some [("isAbstract", SBool (isAbstract schema fragmentType));
                 ("isTrackingEnabled",
                  SBool match selectVariables with
                        | Some _ => true
                        | None => false
                        end)]) ;;
      directives <- printDirectives (fragmentDirectives fragment) ;;
      let fragmentCode :=
        codify [("children", selections);
                ("directives", directives);
                ("id", printFragmentID);
                ("kind", createLiteral (SStr "Fragment"));
                ("metadata", metadata);
                ("name", createLiteral (SStr (fragmentName fragment)));
                ("type",
                 createLiteral
                   (SStr (getName schema fragmentType false)))] in
      match selectVariables with
      | None => Ok fragmentCode
      | Some selectVariables =>
          match argValue selectVariables with
          | ArgArray items =>
              initializers <-
                mapM (fun item =>
                        match argValue item with
                        | ArgVariable _ =>
                            Throw (InvariantViolation
                                     "Cannot get value of an argument variable")
                        | value =>
                            printed <- printVariableOf value ;;
                            Ok (propertyNameOf value, printed)
                        end)
                     items ;;
              Ok (CallExpression
                    (PropertyAccessExpression (identify tagName)
                                              "__createFragment")
                    [fragmentCode;
                     createObjectLiteralExpression initializers])
          | ArgVariable _ =>
              Throw (InvariantViolation
                       "Cannot get value of an argument variable")
          | _ => Throw RelayVariablesNotArray
          end
      end
  end.

(** *** Definitions *)

Local Abbreviation Operation := (RelayQLOperation RelayQLType).

Definition printQuery (fuel : nat) (query : Operation)
    (enableValidation : bool) : result Printable :=
  let rootFields := getFields query in
  if negb (length rootFields =? 1)%nat && enableValidation
  then Throw (TooManyRootFields KQuery (length rootFields)
                                (operationName query))
  else
    match rootFields with
    | [] => Throw (TypeError "rootField is undefined")
    | rootField :: _ =>
        let rootFieldType := fieldType rootField in
        let rootFieldArgs := fieldArguments rootField in
        let requisiteFields :=
          match getIdentifyingFieldDefinition schema rootFieldType with
          | Some name => setKey [] name
          | None => []
          end in
        let requisiteFields :=
          if isAbstract schema rootFieldType
          then setKey requisiteFields (f__typename FIELDS)
          else requisiteFields in
        selections <-
          printSelections fuel (OfField rootField) requisiteFields
                          None false ;;
        let metadata :=
          flag (isList schema rootFieldType) "isPlural"
          ++ flag (isAbstract schema rootFieldType) "isAbstract" in
        if (1 <? length rootFieldArgs)%nat
        then Throw (InvalidRootFieldArity (fieldName rootField))
        else
          r <- match rootFieldArgs with
               | [identifyingArg] =>
                   let identifyingArgName := argName identifyingArg in
                   let identifyingArgType :=
                     argTypeName (argType identifyingArg) in
                   value <- printArgumentValue identifyingArg ;;
                   Ok (metadata
                       ++ [("identifyingArgName", SStr identifyingArgName);
                           ("identifyingArgType", SStr identifyingArgType)],
                       ArrayLiteralExpression
                         [codify
                            [("kind", createLiteral (SStr "Call"));
                             ("metadata",
                              objectify
                                [("type", SStr identifyingArgType)]);
                             ("name",
                              createLiteral (SStr identifyingArgName));
                             ("value", value)]])
               | _ => Ok (metadata, NULL)
               end ;;
          let '(metadata, calls) := r in
          directives <- printDirectives (fieldDirectives rootField) ;;
          Ok (codify
                [("calls", calls);
                 ("children", selections);
                 ("directives", directives);
                 ("fieldName", createLiteral (SStr (fieldName rootField)));
                 ("kind", createLiteral (SStr "Query"));
                 ("metadata", objectify metadata);
                 ("name", createLiteral (SStr (operationName query)));
                 ("type",
                  createLiteral
                    (SStr (getName schema rootFieldType false)))])
    end.

(** The part [printMutation] and [printSubscription] share after the
    requisite fields are known. *)
Definition printInputOperation (fuel : nat) (kind : string)
    (operation : Operation) (rootField : Field)
    (requisiteFields : KeySet) : result Printable :=
  let rootFieldType := fieldType rootField in
  selections <-
    printSelections fuel (OfField rootField) requisiteFields None false ;;
  inputType <- getDeclaredArgument rootField INPUT_ARGUMENT_NAME ;;
  let metadata :=
    [("inputType", printArgumentTypeForMetadata inputType)] in
  directives <- printDirectives (operationDirectives operation) ;;
  Ok (codify
        [("calls",
          ArrayLiteralExpression
            [codify [("kind", createLiteral (SStr "Call"));
                     ("metadata", objectify []);
                     ("name", createLiteral (SStr (fieldName rootField)));
                     ("value", printVariable "input")]]);
         ("children", selections);
         ("directives", directives);
         ("kind", createLiteral (SStr kind));
         ("metadata", objectify metadata);
         ("name", createLiteral (SStr (operationName operation)));
         ("responseType",
          createLiteral (SStr (getName schema rootFieldType false)))]).

Definition printMutation (fuel : nat) (mutation : Operation)
    (enableValidation : bool) : result Printable :=
  let rootFields := getFields mutation in
  if negb (length rootFields =? 1)%nat && enableValidation
  then Throw (TooManyRootFields KMutation (length rootFields)
                                (operationName mutation))
  else
    match rootFields with
    | [] => Throw (TypeError "rootField is undefined")
    | rootField :: _ =>
        validateMutationField rootField ;;;
        let requisiteFields :=
          if hasField schema (fieldType rootField)
                      (f_clientMutationId FIELDS)
          then setKey [] (f_clientMutationId FIELDS)
          else [] in
        printInputOperation fuel "Mutation" mutation rootField
                            requisiteFields
    end.

Definition printSubscription (fuel : nat) (subscription : Operation)
    (enableValidation : bool) : result Printable :=
  let rootFields := getFields subscription in
  if negb (length rootFields =? 1)%nat && enableValidation
  then Throw (TooManyRootFields KSubscription (length rootFields)
                                (operationName subscription))
  else
    match rootFields with
    | [] => Throw (TypeError "rootField is undefined")
    | rootField :: _ =>
        validateMutationField rootField ;;;
        let requisiteFields :=
          if hasField schema (fieldType rootField)
                      (f_clientSubscriptionId FIELDS)
          then setKey [] (f_clientSubscriptionId FIELDS)
          else [] in
        let requisiteFields :=
          if hasField schema (fieldType rootField)
                      (f_clientMutationId FIELDS)
          then setKey requisiteFields (f_clientMutationId FIELDS)
          else requisiteFields in
        printInputOperation fuel "Subscription" subscription rootField
                            requisiteFields
    end.

(** The array [selections] of [printSelections], with
    [didPrintFragmentReference], before the choice between [NULL], the
    array literal and its flattened form. *)
Definition printedSelections (fuel : nat) (parent : Node)
    (requisiteFields : KeySet) (extraFragments : option (list Fragment))
    (isGeneratedQuery : bool) : result (list Printable * bool) :=
  r <- partitionSelections (printFragment fuel) (getSelections parent) ;;
  let '(fields, printedFragments, didPrintFragmentReference) := r in
  extra <- match extraFragments with
           | Some fragments => mapM (printFragment fuel) fragments
           | None => Ok []
           end ;;
  printedFields <-
    printFields fuel fields parent requisiteFields isGeneratedQuery ;;
  Ok (printedFields ++ printedFragments ++ extra,
      didPrintFragmentReference).

End Printer.

End RelayQLPrinter.

(** ** The classic normaliser: [createClassicAST] *)

(** The GraphQL syntax tree of the [graphql] package, as far as
    [createClassicAST] and [visit] read it.  An [IntValue] carries the
    integer its text denotes ([parseInt(value.value, 10)]) and a
    [FloatValue] the number its text denotes ([parseFloat(value.value)]). *)
Inductive ValueNode : Type :=
| VariableValue (name : string)
| IntValue (value : Z)
| FloatValue (value : float)
| StringValue (value : string)
| BooleanValue (value : bool)
| NullValue
| EnumValue (value : string)
| ListValue (values : list ValueNode)
| ObjectValue (fields : list (string * ValueNode)).

Record ArgumentNode : Type := {
  argumentName : string;
  argumentValue : ValueNode
}.

(** [arguments] may be absent ([node.arguments || null]). *)
Record DirectiveNode : Type := {
  dName : string;
  dArguments : option (list ArgumentNode)
}.

Inductive SelectionNode : Type :=
| FieldNode (alias : option string) (name : string)
            (arguments : list ArgumentNode)
            (directives : list DirectiveNode)
            (selectionSet : list SelectionNode)
| FragmentSpreadNode (name : string)
                     (directives : option (list DirectiveNode))
| InlineFragmentNode (typeCondition : option string)
                     (directives : list DirectiveNode)
                     (selectionSet : list SelectionNode).

Record VariableDefinitionNode : Type := {
  vdVariable : string;
  vdDefaultValue : option ValueNode;
  vdDirectives : list DirectiveNode
}.

Inductive OperationType := OpQuery | OpMutation | OpSubscription.

Inductive DefinitionNode : Type :=
| OperationDefinition (operation : OperationType) (name : option string)
                      (variableDefinitions : list VariableDefinitionNode)
                      (directives : list DirectiveNode)
                      (selectionSet : list SelectionNode)
| FragmentDefinition (name : string) (typeCondition : string)
                     (directives : list DirectiveNode)
                     (selectionSet : list SelectionNode).

(** The [Fragment] interface: one substitution slot. *)
Record FragmentSlot : Type := {
  slotFragment : string;
  isMasked : bool;
  slotArgs : option Printable
}.

(** The errors [createClassicAST] throws, one per [throw] site, and the
    [TypeError] of reading [name] on [undefined] in the message of the
    [@relay] check. *)
Inductive ClassicError : Type :=
| DuplicateArgumentDefinitions
| ConflictingSpreadDirectives
| RelayMaskArgumentExpected (got : option string)
| UnsupportedSpreadDirective (directive fragment : string)
| MissingSubstitutionName
| UnsupportedLiteral
| UndefinedArgumentName.

(** A JavaScript object keyed by strings: [Object.keys] order is the
    order of first assignment; assigning an existing key replaces its
    value in place. *)
Fixpoint assign {V : Type} (o : list (string * V)) (k : string) (v : V)
  : list (string * V) :=
  match o with
  | [] => [(k, v)]
  | (k', v') :: rest =>
      if String.eqb k' k then (k, v) :: rest
      else (k', v') :: assign rest k v
  end.

(** [o[k] = v] for a value [v] that is an object, on an object [o]
    created by [{}]: the key [__proto__] is the accessor [o] inherits from
    [Object.prototype]; assigning to it makes [v] the prototype of [o] and
    adds no property, so the key never shows among [Object.keys(o)]. *)
Definition assignObject {V : Type} (o : list (string * V)) (k : string)
    (v : V) : list (string * V) :=
  if String.eqb k "__proto__" then o else assign o k v.

(** The variables captured by the visitor functions.  [variables] is
    the list of the keys of the object [variables]; [variablesInherit]
    tells whether that object still has the prototype [{}] gave it. *)
Record NormalizerState : Type := {
  fragmentID : nat;
  fragments : list (string * FragmentSlot);
  variables : KeySet;
  variablesInherit : bool;
  argumentDefinitions : option (list ArgumentNode)
}.

Definition Visit (A : Type) : Type :=
  NormalizerState -> ClassicError + (A * NormalizerState).

Definition ret {A} (a : A) : Visit A := fun s => inr (a, s).
Definition raise {A} (e : ClassicError) : Visit A := fun _ => inl e.
Definition andThen {A B} (m : Visit A) (k : A -> Visit B) : Visit B :=
  fun s => match m s with
           | inl e => inl e
           | inr (a, s') => k a s'
           end.
Definition modify (f : NormalizerState -> NormalizerState) : Visit unit :=
  fun s => inr (tt, f s).
Definition get : Visit NormalizerState := fun s => inr (s, s).

Notation "x <~ m ;; k" := (andThen m (fun x => k))
  (at level 61, m at next level, right associativity).
Notation "m ;;~ k" := (andThen m (fun _ => k))
  (at level 61, right associativity).

Section VisitLoops.
Variables A B : Type.
Variable f : A -> Visit B.

Fixpoint mapV (l : list A) : Visit (list B) :=
  match l with
  | [] => ret []
  | x :: rest =>
      y <~ f x ;;
      ys <~ mapV rest ;;
      ret (y :: ys)
  end.
End VisitLoops.

Definition createStringLiteral (str : string) : Printable :=
  StringLiteral str.

(** [createObject] of [createClassicNode]: every key is printed, a null
    value as a fresh null literal. *)
Definition createObject (obj : list (string * option Printable))
  : Printable :=
  ObjectLiteralExpression
    (map (fun kv => (fst kv,
                     match snd kv with
                     | Some v => v
                     | None => NullKeyword false
                     end))
         obj).

Section SumLoops.
Variables A B : Type.
Variable f : A -> ClassicError + B.

Fixpoint mapE (l : list A) : ClassicError + list B :=
  match l with
  | [] => inr []
  | x :: rest =>
      match f x with
      | inl e => inl e
      | inr y =>
          match mapE rest with
          | inl e => inl e
          | inr ys => inr (y :: ys)
          end
      end
  end.
End SumLoops.

Fixpoint parseValue (value : ValueNode) : ClassicError + Printable :=
  match value with
  | BooleanValue b => inr (if b then TrueKeyword else FalseKeyword)
  | IntValue n => inr (NumericLiteral n)
  | FloatValue x => inr (createNumericLiteral x)
  | StringValue s => inr (createStringLiteral s)
  | EnumValue s => inr (createStringLiteral s)
  | ListValue values =>
      match mapE parseValue values with
      | inl e => inl e
      | inr items => inr (ArrayLiteralExpression items)
      end
  | _ => inl UnsupportedLiteral
  end.

(** [convertArgument]: the name and the printed value of an argument. *)
Definition convertArgument (argNode : ArgumentNode)
  : ClassicError + (string * Printable) :=
  let name := argumentName argNode in
  match argumentValue argNode with
  | VariableValue paramName =>
      inr (name,
           createObject
             [("kind", Some (createStringLiteral "CallVariable"));
              ("callVariableName", Some (createStringLiteral paramName))])
  | value =>
      match parseValue value with
      | inl e => inl e
      | inr ast => inr (name, ast)
      end
  end.

Definition showNat (n : nat) : string :=
  NilEmpty.string_of_uint (Nat.to_uint n).

(** [variables[name] = null], on the keys of the object [variables]
    and the flag that tells whether it still has the prototype [{}] gave
    it.  Under the key [__proto__] the accessor of [Object.prototype]
    takes the value: the first such assignment leaves the object without
    a prototype and adds no key; from then on the accessor is no longer
    inherited, and the assignment adds the key [__proto__] like any
    other. *)
Definition assignNull (table : KeySet * bool) (name : string)
  : KeySet * bool :=
  if String.eqb name "__proto__" && snd table
  then (fst table, false)
  else (setKey (fst table) name, snd table).

Definition recordVariable (name : string) : Visit unit :=
  modify (fun s =>
            let table :=
              assignNull (variables s, variablesInherit s) name in
            {| fragmentID := fragmentID s;
               fragments := fragments s;
               variables := fst table;
               variablesInherit := snd table;
               argumentDefinitions := argumentDefinitions s |}).

(** [fragments[substitutionName] = slot], the slot being an object. *)
Definition storeSlot (s : NormalizerState) (substitutionName : string)
    (slot : FragmentSlot) : NormalizerState :=
  {| fragmentID := fragmentID s;
     fragments := assignObject (fragments s) substitutionName slot;
     variables := variables s;
     variablesInherit := variablesInherit s;
     argumentDefinitions := argumentDefinitions s |}.

(** The three visitor functions of [createClassicAST]. *)
Module visitors.

(** [Directive]: [None] is the [null] that deletes the node. *)
Definition Directive (node : DirectiveNode) : Visit (option DirectiveNode) :=
  if String.eqb (dName node) "argumentDefinitions" then
    s <~ get ;;
    match argumentDefinitions s with
    | Some _ => raise DuplicateArgumentDefinitions
    | None =>
        modify (fun s => {| fragmentID := fragmentID s;
                            fragments := fragments s;
                            variables := variables s;
                            variablesInherit := variablesInherit s;
                            argumentDefinitions := dArguments node |}) ;;~
        ret None
    end
  else if String.eqb (dName node) "connection" then ret None
  else ret (Some node).

(** The loop over the arguments of [@arguments]: a variable value is
    recorded, the argument converted and assigned to the object
    [fragmentArgumentsObject] under its name. *)
Fixpoint fragmentArguments (args : list ArgumentNode)
    (fragmentArgumentsObject : list (string * option Printable))
  : Visit (list (string * option Printable)) :=
  match args with
  | [] => ret fragmentArgumentsObject
  | argNode :: rest =>
      match argumentValue argNode with
      | VariableValue name => recordVariable name
      | _ => ret tt
      end ;;~
      match convertArgument argNode with
      | inl e => raise e
      | inr (name, ast) =>
          fragmentArguments rest
            (assignObject fragmentArgumentsObject name (Some ast))
      end
  end.

(** [FragmentSpread]: the rewritten spread, after the slot is stored in
    [fragments]. *)
Definition FragmentSpread (fragmentName : string)
    (nodeDirectives : option (list DirectiveNode)) : Visit SelectionNode :=
  let directives :=
    match nodeDirectives with
    | Some ds => ds
    | None => []
    end in
  r <~ match directives with
       | [] => ret (fragmentName, None, true)
       | directive :: others =>
           if negb (length directives =? 1)%nat
           then raise ConflictingSpreadDirectives
           else if String.eqb (dName directive) "arguments" then
             fragmentArgumentsObject <~
               match dArguments directive with
               | Some args => fragmentArguments args []
               | None => ret []
               end ;;
             modify (fun s =>
                       {| fragmentID := S (fragmentID s);
                          fragments := fragments s;
                          variables := variables s;
                          variablesInherit := variablesInherit s;
                          argumentDefinitions := argumentDefinitions s |})
             ;;~
             s <~ get ;;
             ret ((fragmentName ++ "_args" ++ showNat (fragmentID s))%string,
                  Some (createObject fragmentArgumentsObject), true)
           else if String.eqb (dName directive) "relay" then
             match dArguments directive with
             | None => raise (RelayMaskArgumentExpected None)
             | Some [] => raise UndefinedArgumentName
             | Some [mask] =>
                 if String.eqb (argumentName mask) "mask"
                 then ret (fragmentName, None,
                           match argumentValue mask with
                           | BooleanValue false => false
                           | _ => true
                           end)
                 else raise (RelayMaskArgumentExpected
                               (Some (argumentName mask)))
             | Some (first :: _) =>
                 raise (RelayMaskArgumentExpected
                          (Some (argumentName first)))
             end
           else raise (UnsupportedSpreadDirective (dName directive)
                                                  fragmentName)
       end ;;
  let '(substitutionName, fragmentArgumentsAST, isMasked) := r in
  if String.eqb substitutionName ""
  then raise MissingSubstitutionName
  else
    modify (fun s =>
              storeSlot s substitutionName
                        {| slotFragment := fragmentName;
                           isMasked := isMasked;
                           slotArgs := fragmentArgumentsAST |}) ;;~
    ret (FragmentSpreadNode substitutionName (Some [])).

(** [Variable] *)
Definition Variable_ (name : string) : Visit unit :=
  recordVariable name.

End visitors.

(** [visit(definition, visitors)] of the [graphql] package, specialised
    to the three visitor functions, which are all [enter] functions: the
    children of a node are visited in the order of its visitor keys; a
    node for which the visitor returns [null] is removed and not entered;
    a node the visitor replaces is entered in its new form (the rewritten
    spread has an empty directive list, so the directives of a spread are
    never visited). *)
Fixpoint visitValue (value : ValueNode) : Visit unit :=
  match value with
  | VariableValue name => visitors.Variable_ name
  | ListValue values =>
      (fix each (l : list ValueNode) : Visit unit :=
         match l with
         | [] => ret tt
         | v :: rest => visitValue v ;;~ each rest
         end) values
  | ObjectValue fields =>
      (fix each (l : list (string * ValueNode)) : Visit unit :=
         match l with
         | [] => ret tt
         | (_, v) :: rest => visitValue v ;;~ each rest
         end) fields
  | _ => ret tt
  end.

Fixpoint visitArguments (args : list ArgumentNode) : Visit unit :=
  match args with
  | [] => ret tt
  | arg :: rest => visitValue (argumentValue arg) ;;~ visitArguments rest
  end.

Definition visitDirective (node : DirectiveNode)
  : Visit (option DirectiveNode) :=
  r <~ visitors.Directive node ;;
  match r with
  | None => ret None
  | Some kept =>
      match dArguments kept with
      | Some args => visitArguments args
      | None => ret tt
      end ;;~
      ret (Some kept)
  end.

Fixpoint keep {A : Type} (l : list (option A)) : list A :=
  match l with
  | [] => []
  | Some x :: rest => x :: keep rest
  | None :: rest => keep rest
  end.

Definition visitDirectives (directives : list DirectiveNode)
  : Visit (list DirectiveNode) :=
  r <~ mapV visitDirective directives ;;
  ret (keep r).

Fixpoint visitSelection (selection : SelectionNode) : Visit SelectionNode :=
  match selection with
  | FieldNode alias name arguments directives selectionSet =>
      visitArguments arguments ;;~
      directives' <~ visitDirectives directives ;;
      selectionSet' <~ mapV visitSelection selectionSet ;;
      ret (FieldNode alias name arguments directives' selectionSet')
  | FragmentSpreadNode name directives =>
      visitors.FragmentSpread name directives
  | InlineFragmentNode typeCondition directives selectionSet =>
      directives' <~ visitDirectives directives ;;
      selectionSet' <~ mapV visitSelection selectionSet ;;
      ret (InlineFragmentNode typeCondition directives' selectionSet')
  end.

Definition visitVariableDefinition (definition : VariableDefinitionNode)
  : Visit VariableDefinitionNode :=
  visitors.Variable_ (vdVariable definition) ;;~
  match vdDefaultValue definition with
  | Some v => visitValue v
  | None => ret tt
  end ;;~
  directives' <~ visitDirectives (vdDirectives definition) ;;
  ret {| vdVariable := vdVariable definition;
         vdDefaultValue := vdDefaultValue definition;
         vdDirectives := directives' |}.

Definition visit (definition : DefinitionNode) : Visit DefinitionNode :=
  match definition with
  | OperationDefinition operation name variableDefinitions directives
                        selectionSet =>
      variableDefinitions' <~
        mapV visitVariableDefinition variableDefinitions ;;
      directives' <~ visitDirectives directives ;;
      selectionSet' <~ mapV visitSelection selectionSet ;;
      ret (OperationDefinition operation name variableDefinitions'
                               directives' selectionSet')
  | FragmentDefinition name typeCondition directives selectionSet =>
      directives' <~ visitDirectives directives ;;
      selectionSet' <~ mapV visitSelection selectionSet ;;
      ret (FragmentDefinition name typeCondition directives' selectionSet')
  end.

Record ClassicAST : Type := {
  classicAST : DefinitionNode;
  ca_fragments : list (string * FragmentSlot);
  ca_variables : KeySet;
  ca_argumentDefinitions : option (list ArgumentNode)
}.

Definition initialState : NormalizerState :=
  {| fragmentID := 0;
     fragments := [];
     variables := [];
     variablesInherit := true;
     argumentDefinitions := None |}.

Definition createClassicAST (definition : DefinitionNode)
  : ClassicError + ClassicAST :=
  match visit definition initialState with
  | inl e => inl e
  | inr (ast, s) =>
      inr {| classicAST := ast;
             ca_fragments := fragments s;
             ca_variables := variables s;
             ca_argumentDefinitions := argumentDefinitions s |}
  end.

(** The fragment spreads of a selection set in document order, each with
    its name and directives. *)
Fixpoint spreadsOfSelection (selection : SelectionNode)
  : list (string * option (list DirectiveNode)) :=
  match selection with
  | FieldNode _ _ _ _ selectionSet =>
      flat_map spreadsOfSelection selectionSet
  | FragmentSpreadNode name directives => [(name, directives)]
  | InlineFragmentNode _ _ selectionSet =>
      flat_map spreadsOfSelection selectionSet
  end.

Definition selectionSetOf (definition : DefinitionNode)
  : list SelectionNode :=
  match definition with
  | OperationDefinition _ _ _ _ selectionSet => selectionSet
  | FragmentDefinition _ _ _ selectionSet => selectionSet
  end.

Definition spreadsOf (definition : DefinitionNode)
  : list (string * option (list DirectiveNode)) :=
  flat_map spreadsOfSelection (selectionSetOf definition).

(** A spread that carries exactly one directive, [@arguments]. *)
Definition hasArguments (spread : string * option (list DirectiveNode))
  : bool :=
  match snd spread with
  | Some [directive] => String.eqb (dName directive) "arguments"
  | _ => false
  end.

(** The spreads a definition is expected to hold after normalisation,
    when [n] spreads with [@arguments] came before: one counter for the
    whole definition numbers the spreads with [@arguments], whatever
    fragment they name; every other spread keeps its name. *)
Fixpoint expectedSlots (n : nat)
    (spreads : list (string * option (list DirectiveNode)))
  : list (string * option (list DirectiveNode)) :=
  match spreads with
  | [] => []
  | spread :: rest =>
      if hasArguments spread
      then ((fst spread ++ "_args" ++ showNat (S n))%string, Some [])
           :: expectedSlots (S n) rest
      else (fst spread, Some []) :: expectedSlots n rest
  end.

(** ** Reading printed objects *)

(** The value a property has in the object an object literal evaluates
    to: property definitions are evaluated in order and a later definition
    of a key replaces an earlier one. *)
Fixpoint propertyValue (key : string) (properties : list (string * Printable))
  : option Printable :=
  match properties with
  | [] => None
  | (k, v) :: rest =>
      match propertyValue key rest with
      | Some later => Some later
      | None => if String.eqb k key then Some v else None
      end
  end.


Definition propertiesOf (node : Printable) : list (string * Printable) :=
  match node with
  | ObjectLiteralExpression properties => properties
  | _ => []
  end.

(** The [fieldName] of a printed Field node. *)
Definition printedFieldName (node : Printable) : option string :=
  match propertyValue "fieldName" (propertiesOf node) with
  | Some (StringLiteral name) => Some name
  | _ => None
  end.

(** The elements of a printed selection array, plain or wrapped by
    [shallowFlatten]; none for [NULL]. *)
Definition selectionElements (children : Printable) : list Printable :=
  match children with
  | ArrayLiteralExpression elements => elements
  | CallExpression _ [_; ArrayLiteralExpression elements] => elements
  | _ => []
  end.

Definition isSpread {T : Type} (selection : Selection T) : bool :=
  match selection with
  | SelFragmentSpread _ _ => true
  | _ => false
  end.

(** The fields among the selections, as the loop of [printSelections]
    collects them. *)
Fixpoint requestedFields {T : Type} (selections : list (Selection T))
  : list (RelayQLField T) :=
  match selections with
  | [] => []
  | SelField field :: rest => field :: requestedFields rest
  | _ :: rest => requestedFields rest
  end.

Definition countName (name : string) (names : list (option string)) : nat :=
  length (filter (fun n => match n with
                           | Some n => String.eqb n name
                           | None => false
                           end) names).

(** A forbidden pair of applied pagination arguments: both are applied
    and at least one of them is not a variable. *)
Definition forbiddenPair (x y : option RelayQLArgument) : bool :=
  match x, y with
  | Some a, Some b => negb (isVariable a) || negb (isVariable b)
  | _, _ => false
  end.

(** An operation with its root fields replaced. *)
Definition withRootFields {T : Type} (operation : RelayQLOperation T)
    (fields : list (RelayQLField T)) : RelayQLOperation T :=
  {| operationName := operationName operation;
     getFields := fields;
     operationDirectives := operationDirectives operation |}.

(** The printed children of a printed Query, Fragment or Field node; a
    fragment wrapped by [__createFragment] is its first argument. *)
Definition printedChildren (node : Printable) : list Printable :=
  let code :=
    match node with
    | CallExpression _ (code :: _) => code
    | _ => node
    end in
  match propertyValue "children" (propertiesOf code) with
  | Some children => selectionElements children
  | None => []
  end.

(** The metadata object of a printed node, as a property list. *)
Definition printedMetadata (node : Printable) : list (string * Printable) :=
  let code :=
    match node with
    | CallExpression _ (code :: _) => code
    | _ => node
    end in
  match propertyValue "metadata" (propertiesOf code) with
  | Some metadata => propertiesOf metadata
  | None => []
  end.

Definition namesOf {T : Type} (fields : list (RelayQLField T))
  : list (option string) :=
  map (fun field => Some (fieldName field)) fields.

(** How a requisite field [name] shows in the printed children of
    [node], printed from [selections]: the requested fields come first,
    in order, each request of [name] marked [isRequisite]; among what
    follows, [name] is generated once if it was not requested and not at
    all if it was. *)
Definition requisiteOnce {T : Type} (name : string)
    (selections : list (Selection T)) (node : Printable) : Prop :=
  exists requested others,
    printedChildren node = requested ++ others
    /\ map printedFieldName requested
       = namesOf (requestedFields selections)
    /\ Forall2 (fun field printed =>
                  fieldName field = name ->
                  propertyValue "isRequisite" (printedMetadata printed)
                  = Some TrueKeyword)
               (requestedFields selections) requested
    /\ countName name (map printedFieldName others)
       = (if existsb (fun field => String.eqb (fieldName field) name)
                     (requestedFields selections)
          then 0 else 1)
    /\ countName name (map printedFieldName (printedChildren node))
       = Nat.max 1 (countName name (namesOf (requestedFields selections))).

(** The invariant of the traversal, for one selection. *)
Definition slotsAsExpected (selection : SelectionNode) : Prop :=
  forall s selection' s',
    visitSelection selection s = inr (selection', s') ->
    spreadsOfSelection selection'
    = expectedSlots (fragmentID s) (spreadsOfSelection selection)
    /\ fragmentID s'
       = fragmentID s
         + length (filter hasArguments (spreadsOfSelection selection)).

(** ** Further views of the syntax tree *)

(** The fields [forEachRecursiveField] reaches from a selection: the
    field itself, or the fields of an inline fragment, followed through
    nested inline fragments; nothing behind a fragment spread. *)
Fixpoint recursiveFieldsOf {T : Type} (selection : Selection T)
  : list (RelayQLField T) :=
  match selection with
  | SelField field => [field]
  | SelInlineFragment (MkFragment _ _ _ selections) =>
      flat_map recursiveFieldsOf selections
  | SelFragmentSpread _ _ => []
  end.

(** The dotted path a chain of property accesses on an identifier
    denotes, as the source text of the expression spells it. *)
Fixpoint accessPath (node : Printable) : option string :=
  match node with
  | Identifier name => Some name
  | PropertyAccessExpression expression name =>
      option_map (fun path => (path ++ "." ++ name)%string)
                 (accessPath expression)
  | _ => None
  end.

(** ** Further parts of [createClassicNode] *)

(** A value [parseValue] can print: no variable, null or object in it,
    at any depth of list nesting. *)
Fixpoint isLiteral (value : ValueNode) : bool :=
  match value with
  | VariableValue _ | NullValue | ObjectValue _ => false
  | ListValue values => forallb isLiteral values
  | _ => true
  end.

(** A directive the [Directive] visitor leaves in the tree. *)
Definition isKept (directive : DirectiveNode) : bool :=
  negb (String.eqb (dName directive) "argumentDefinitions")
  && negb (String.eqb (dName directive) "connection").

(** A selection as the traversal leaves it: no [@argumentDefinitions] or
    [@connection] directive anywhere, and every fragment spread with a
    name and an empty list of directives. *)
Fixpoint isNormalSelection (selection : SelectionNode) : bool :=
  match selection with
  | FieldNode _ _ _ directives selectionSet =>
      forallb isKept directives
      && forallb isNormalSelection selectionSet
  | FragmentSpreadNode name directives =>
      negb (String.eqb name "")
      && match directives with
         | Some [] => true
         | _ => false
         end
  | InlineFragmentNode _ directives selectionSet =>
      forallb isKept directives
      && forallb isNormalSelection selectionSet
  end.

Definition isNormal (definition : DefinitionNode) : bool :=
  match definition with
  | OperationDefinition _ _ variableDefinitions directives selectionSet =>
      forallb (fun d => forallb isKept (vdDirectives d))
              variableDefinitions
      && forallb isKept directives
      && forallb isNormalSelection selectionSet
  | FragmentDefinition _ _ directives selectionSet =>
      forallb isKept directives
      && forallb isNormalSelection selectionSet
  end.

(** The variables the traversal meets, in the order it meets them: the
    [Variable] nodes of a value; of the arguments of a directive that is
    kept; of a field, its arguments, directives and selections; of a
    fragment spread with the single directive [@arguments], the
    arguments whose value is a variable itself. *)
Fixpoint variablesOfValue (value : ValueNode) : list string :=
  match value with
  | VariableValue name => [name]
  | ListValue values => flat_map variablesOfValue values
  | ObjectValue fields =>
      flat_map (fun field => variablesOfValue (snd field)) fields
  | _ => []
  end.

Definition variablesOfArguments (args : list ArgumentNode) : list string :=
  flat_map (fun arg => variablesOfValue (argumentValue arg)) args.

Definition variablesOfDirectives (directives : list DirectiveNode)
  : list string :=
  flat_map (fun directive =>
              if isKept directive
              then match dArguments directive with
                   | Some args => variablesOfArguments args
                   | None => []
                   end
              else [])
           directives.

Definition variablesOfSpread (directives : option (list DirectiveNode))
  : list string :=
  match directives with
  | Some [directive] =>
      if String.eqb (dName directive) "arguments"
      then match dArguments directive with
           | Some args =>
               flat_map (fun arg =>
                           match argumentValue arg with
                           | VariableValue name => [name]
                           | _ => []
                           end) args
           | None => []
           end
      else []
  | _ => []
  end.

Fixpoint variablesOfSelection (selection : SelectionNode) : list string :=
  match selection with
  | FieldNode _ _ arguments directives selectionSet =>
      variablesOfArguments arguments
      ++ variablesOfDirectives directives
      ++ flat_map variablesOfSelection selectionSet
  | FragmentSpreadNode _ directives => variablesOfSpread directives
  | InlineFragmentNode _ directives selectionSet =>
      variablesOfDirectives directives
      ++ flat_map variablesOfSelection selectionSet
  end.

Definition variablesOfDefinition (definition : DefinitionNode)
  : list string :=
  match definition with
  | OperationDefinition _ _ variableDefinitions directives selectionSet =>
      flat_map (fun d =>
                  vdVariable d
                  :: match vdDefaultValue d with
                     | Some v => variablesOfValue v
                     | None => []
                     end
                  ++ variablesOfDirectives (vdDirectives d))
               variableDefinitions
      ++ variablesOfDirectives directives
      ++ flat_map variablesOfSelection selectionSet
  | FragmentDefinition _ _ directives selectionSet =>
      variablesOfDirectives directives
      ++ flat_map variablesOfSelection selectionSet
  end.

(** [createLocalArgument] and [createRootArgument] *)
Definition createLocalArgument (variableName : string)
    (defaultValue : Printable) : Printable :=
  createObject [("defaultValue", Some defaultValue);
                ("kind", Some (createStringLiteral "LocalArgument"));
                ("name", Some (createStringLiteral variableName))].

Definition createRootArgument (variableName : string) : Printable :=
  ObjectLiteralExpression
    [("kind", createStringLiteral "RootArgument");
     ("name", createStringLiteral variableName)].

(** [createOperationArguments]: [None] is an absent list of variable
    definitions. *)
Definition createOperationArguments
    (variableDefinitions : option (list VariableDefinitionNode))
  : ClassicError + Printable :=
  match variableDefinitions with
  | None => inr (ArrayLiteralExpression [])
  | Some definitions =>
      match mapE (fun definition =>
                    match vdDefaultValue definition with
                    | Some value =>
                        match parseValue value with
                        | inl e => inl e
                        | inr defaultValue =>
                            inr (createLocalArgument
                                   (vdVariable definition) defaultValue)
                        end
                    | None =>
                        inr (createLocalArgument (vdVariable definition)
                                                 (NullKeyword false))
                    end)
                 definitions with
      | inl e => inl e
      | inr printed => inr (ArrayLiteralExpression printed)
      end
  end.

(** The exceptions of [createFragmentArguments]: the one [parseValue]
    throws, and the [TypeError] of calling [find] on the absent [fields]
    of a definition whose value is not an object. *)
Inductive FragmentArgumentsError : Type :=
| InvalidDefaultValue (e : ClassicError)
| FieldsOfNonObject (name : string).

(** One concrete definition of [createFragmentArguments]. *)
Definition createFragmentArgument
    (argumentDefinitions : option (list ArgumentNode)) (name : string)
  : FragmentArgumentsError + Printable :=
  match find (fun arg => String.eqb (argumentName arg) name)
             match argumentDefinitions with
             | Some definitions => definitions
             | None => []
             end with
  | Some definition =>
      match argumentValue definition with
      | ObjectValue fields =>
          match find (fun field => String.eqb (fst field) "defaultValue")
                     fields with
          | Some defaultValueField =>
              match parseValue (snd defaultValueField) with
              | inl e => inl (InvalidDefaultValue e)
              | inr defaultValue =>
                  inr (createLocalArgument name defaultValue)
              end
          | None => inr (createLocalArgument name (NullKeyword false))
          end
      | _ => inl (FieldsOfNonObject name)
      end
  | None => inr (createRootArgument name)
  end.

Fixpoint createFragmentArgumentsOf
    (argumentDefinitions : option (list ArgumentNode))
    (names : list string) : FragmentArgumentsError + list Printable :=
  match names with
  | [] => inr []
  | name :: rest =>
      match createFragmentArgument argumentDefinitions name with
      | inl e => inl e
      | inr concrete =>
          match createFragmentArgumentsOf argumentDefinitions rest with
          | inl e => inl e
          | inr concreteDefinitions =>
              inr (concrete :: concreteDefinitions)
          end
      end
  end.

Definition createFragmentArguments
    (argumentDefinitions : option (list ArgumentNode))
    (variables : KeySet) : FragmentArgumentsError + Printable :=
  match createFragmentArgumentsOf argumentDefinitions variables with
  | inl e => inl e
  | inr concreteDefinitions =>
      inr (ArrayLiteralExpression concreteDefinitions)
  end.

(** The object [variables] as the state holds it: its keys, and whether
    it still has its prototype. *)
Definition variableTable (s : NormalizerState) : KeySet * bool :=
  (variables s, variablesInherit s).

(** The state after the variables [names] are recorded one after the
    other. *)
Definition recordAll (names : list string) (s : NormalizerState)
  : NormalizerState :=
  let table :=
    fold_left assignNull names (variables s, variablesInherit s) in
  {| fragmentID := fragmentID s;
     fragments := fragments s;
     variables := fst table;
     variablesInherit := snd table;
     argumentDefinitions := argumentDefinitions s |}.

(** A list without the first occurrence of a name. *)
Fixpoint withoutFirst (name : string) (names : list string)
  : list string :=
  match names with
  | [] => []
  | n :: rest =>
      if String.eqb n name then rest else n :: withoutFirst name rest
  end.

(** What the traversal of one selection establishes. *)
Definition traversalFacts (selection : SelectionNode) : Prop :=
  forall s selection' s',
    visitSelection selection s = inr (selection', s') ->
    isNormalSelection selection' = true
    /\ variableTable s'
       = fold_left assignNull (variablesOfSelection selection)
                   (variableTable s)
    /\ (NoDup (map fst (fragments s)) -> NoDup (map fst (fragments s')))
    /\ (forall k,
           In k (map fst (fragments s'))
           <-> In k (map fst (fragments s))
               \/ (k <> "__proto__"
                   /\ In k (map fst (spreadsOfSelection selection')))).

(** A normal selection is left as it is. *)
Definition traversalFixes (selection : SelectionNode) : Prop :=
  isNormalSelection selection = true ->
  forall s, exists s', visitSelection selection s = inr (selection, s').

(** ** Reading printed metadata *)



(** ** A small schema and sample documents *)

Module Sample.

Inductive Ty : Type :=
| Query | Mutation | Node | User | FriendsConnection | FriendsEdge
| PageInfo | BareConnection | Payload | IDScalar | StringScalar
| BooleanScalar.

Definition typeName (t : Ty) : string :=
  match t with
  | Query => "Query" | Mutation => "Mutation" | Node => "Node"
  | User => "User" | FriendsConnection => "FriendsConnection"
  | FriendsEdge => "FriendsEdge" | PageInfo => "PageInfo"
  | BareConnection => "BareConnection" | Payload => "Payload"
  | IDScalar => "ID" | StringScalar => "String"
  | BooleanScalar => "Boolean"
  end.

(** The fields each type declares, with their types. *)
Definition fieldsOf (t : Ty) : list (string * Ty) :=
  match t with
  | Query => [("node", Node); ("viewer", User)]
  | Mutation => [("rename", Payload)]
  | Node => [("id", IDScalar)]
  | User => [("id", IDScalar); ("name", StringScalar);
             ("friends", FriendsConnection);
             ("acquaintances", BareConnection)]
  | FriendsConnection => [("edges", FriendsEdge); ("pageInfo", PageInfo)]
  | BareConnection => [("edges", FriendsEdge)]
  | FriendsEdge => [("cursor", StringScalar); ("node", User)]
  | PageInfo => [("hasNextPage", BooleanScalar);
                 ("hasPreviousPage", BooleanScalar)]
  | Payload => [("clientMutationId", StringScalar); ("user", User)]
  | _ => []
  end.

Definition fieldDefinition (t : Ty) (name : string) : option Ty :=
  if String.eqb name "__typename" then Some StringScalar
  else option_map snd
         (find (fun d => String.eqb (fst d) name) (fieldsOf t)).

Definition isScalar (t : Ty) : bool :=
  match t with
  | IDScalar | StringScalar | BooleanScalar => true
  | _ => false
  end.

Definition implementsNode (t : Ty) (name : string) : bool :=
  match t with
  | User | Node => String.eqb name "Node"
  | _ => false
  end.

Definition generated (t : Ty) (name : string) : RelayQLField Ty :=
  MkField name None
          match fieldDefinition t name with
          | Some ty => ty
          | None => StringScalar
          end
          [] [] [] [] false.

Definition schema : SchemaFacade Ty := {|
  getName := fun t _ => typeName t;
  isAbstract := fun t => match t with Node => true | _ => false end;
  isList := fun _ => false;
  isConnection := fun t => match t with
                           | FriendsConnection | BareConnection => true
                           | _ => false
                           end;
  isConnectionEdge := fun t => match t with
                               | FriendsEdge => true
                               | _ => false
                               end;
  isConnectionPageInfo := fun t => match t with
                                   | PageInfo => true
                                   | _ => false
                                   end;
  canHaveSubselections := fun t => negb (isScalar t);
  isQueryType := fun t => match t with Query => true | _ => false end;
  hasField := fun t name =>
                existsb (fun d => String.eqb (fst d) name) (fieldsOf t);
  mayImplement := implementsNode;
  alwaysImplements := implementsNode;
  getIdentifyingFieldDefinition :=
    fun t => match t with
             | User | Node => Some "id"
             | _ => None
             end;
  getFieldDefinition := fieldDefinition;
  generateField := generated;
  generateIdFragment := fun _ => MkFragment "IdFragment" Node [] []
|}.

Definition options : PrinterOptions :=
  {| inputArgumentName := None; snakeCase := false |}.

Definition tag : string := "RelayQL_GENERATED".

Definition intType : RelayQLArgumentType :=
  {| isBoolean := false; isID := false; isString := false;
     argTypeName := "Int" |}.
Definition idType : RelayQLArgumentType :=
  {| isBoolean := false; isID := true; isString := false;
     argTypeName := "ID" |}.
Definition booleanType : RelayQLArgumentType :=
  {| isBoolean := true; isID := false; isString := false;
     argTypeName := "Boolean" |}.
Definition inputType : RelayQLArgumentType :=
  {| isBoolean := false; isID := false; isString := false;
     argTypeName := "RenameInput" |}.

Definition leaf (name : string) (alias : option string) (t : Ty)
  : RelayQLField Ty :=
  MkField name alias t [] [] [] [] false.

End Sample.

Module Documents.
Import Sample.

Definition printer_printField :=
  RelayQLPrinter.printField schema "id" options tag [].
Definition printer_printFields :=
  RelayQLPrinter.printFields schema "id" options tag [].
Definition printer_printSelections :=
  RelayQLPrinter.printSelections schema "id" options tag [].
Definition printer_printFragment :=
  RelayQLPrinter.printFragment schema "id" options tag [].
Definition printer_printQuery :=
  RelayQLPrinter.printQuery schema "id" options tag [].

Definition relay (args : list RelayQLArgument) : RelayQLDirective :=
  {| directiveName := "relay"; directiveArguments := args |}.

Definition typenameField : RelayQLField Ty :=
  leaf "__typename" None StringScalar.
Definition aliasedTypenameField : RelayQLField Ty :=
  leaf "__typename" (Some "kind") StringScalar.
Definition nameField : RelayQLField Ty := leaf "name" None StringScalar.
Definition edgesField : RelayQLField Ty := leaf "edges" None FriendsEdge.

(** [Query { ... }], the parent of a root-level field. *)
Definition root : FieldOrFragment Ty :=
  OfFragment (MkFragment "Root" Query [] []).

(** [node(id: 4) <directives> { <selections> }] *)
Definition nodeField (directives : list RelayQLDirective)
    (selections : list (Selection Ty)) : RelayQLField Ty :=
  MkField "node" None Node
          [MkArgument "id" idType (ArgScalar (SNum 4))]
          [("id", idType)] directives selections false.

(** [node(id: 4) @relay(isAbstract: false) { __typename }] *)
Definition nodeNotAbstract : RelayQLField Ty :=
  nodeField [relay [MkArgument "isAbstract" booleanType
                               (ArgScalar (SBool false))]]
            [SelField typenameField].

(** [friends(first: 10) { edges }], on a connection type that declares
    [pageInfo]. *)
Definition friendsField : RelayQLField Ty :=
  MkField "friends" None FriendsConnection
          [MkArgument "first" intType (ArgScalar (SNum 10))]
          [("first", intType); ("last", intType)]
          [] [SelField edgesField] false.

(** [acquaintances(first: 10) { edges }], on a connection type that
    declares no [pageInfo]. *)
Definition acquaintancesField : RelayQLField Ty :=
  MkField "acquaintances" None BareConnection
          [MkArgument "first" intType (ArgScalar (SNum 10))]
          [("first", intType); ("last", intType)]
          [] [SelField edgesField] false.

(** [query Q { node(id: 4) { <selections> } }] *)
Definition nodeQuery (selections : list (Selection Ty))
  : RelayQLOperation Ty :=
  {| operationName := "Q";
     getFields := [nodeField [] selections];
     operationDirectives := [] |}.

(** [query Two { viewer { name } node(id: 4) { __typename } }] *)
Definition twoRootFields : RelayQLOperation Ty :=
  {| operationName := "Two";
     getFields := [MkField "viewer" None User [] [] []
                           [SelField nameField] false;
                   nodeField [] [SelField typenameField]];
     operationDirectives := [] |}.

(** [mutation Rename { rename(input: $input) { clientMutationId } }] *)
Definition renameField : RelayQLField Ty :=
  MkField "rename" None Payload
          [MkArgument "input" inputType (ArgVariable "input")]
          [("input", inputType)] []
          [SelField (leaf "clientMutationId" None StringScalar)] false.

Definition renameMutation : RelayQLOperation Ty :=
  {| operationName := "Rename";
     getFields := [renameField];
     operationDirectives := [] |}.

(** [fragment F on User { name ...Foo }] *)
Definition fragmentWithSpread : RelayQLFragment Ty :=
  MkFragment "F" User [] [SelField nameField; SelFragmentSpread "Foo" []].


(** [friends(first: 5, last: 10)] and [friends(first: $a, last: $b)] *)
Definition friendsLiterals : RelayQLField Ty :=
  MkField "friends" None FriendsConnection
          [MkArgument "first" intType (ArgScalar (SNum 5));
           MkArgument "last" intType (ArgScalar (SNum 10))]
          [("first", intType); ("last", intType)] [] [] false.

Definition friendsVariables : RelayQLField Ty :=
  MkField "friends" None FriendsConnection
          [MkArgument "first" intType (ArgVariable "a");
           MkArgument "last" intType (ArgVariable "b")]
          [("first", intType); ("last", intType)] [] [] false.

End Documents.

Module Spreads.

Definition arguments (args : list ArgumentNode) : DirectiveNode :=
  {| dName := "arguments"; dArguments := Some args |}.

Definition xIsY : ArgumentNode :=
  {| argumentName := "x"; argumentValue := VariableValue "y" |}.

Definition mask (value : ValueNode) : DirectiveNode :=
  {| dName := "relay";
     dArguments := Some [{| argumentName := "mask";
                            argumentValue := value |}] |}.

(** [fragment F on User { ...Foo @arguments(x: $y)
                          ...Bar @arguments(x: $y)
                          ...Foo @arguments(x: $y)
                          ...Baz }] *)
Definition threeSpreads : DefinitionNode :=
  FragmentDefinition
    "F" "User" []
    [FragmentSpreadNode "Foo" (Some [arguments [xIsY]]);
     FragmentSpreadNode "Bar" (Some [arguments [xIsY]]);
     FieldNode None "friends" [] []
               [FragmentSpreadNode "Foo" (Some [arguments [xIsY]])];
     FragmentSpreadNode "Baz" None].

End Spreads.

(** ** Further sample documents *)

Module MoreDocuments.
Import Sample Documents Spreads.

Definition stringType : RelayQLArgumentType :=
  {| isBoolean := false; isID := false; isString := true;
     argTypeName := "String" |}.

(** [viewer { <selections> }], a field of type [User]. *)
Definition viewerField (selections : list (Selection Ty))
  : RelayQLField Ty :=
  MkField "viewer" None User [] [] [] selections false.

(** [pageInfo], a field of the page-info type. *)
Definition pageInfoField : RelayQLField Ty := leaf "pageInfo" None PageInfo.

(** [fragment F on User @relay(variables: ["a", "b"]) { name }] *)
Definition fragmentWithVariables : RelayQLFragment Ty :=
  MkFragment
    "F" User
    [relay [MkArgument
              "variables" stringType
              (ArgArray [MkArgument "variables" stringType
                                    (ArgScalar (SStr "a"));
                         MkArgument "variables" stringType
                                    (ArgScalar (SStr "b"))])]]
    [SelField nameField].

(** [fragment F on User @relay(variables: ["a", 1]) { name }] *)
Definition fragmentWithNumberVariable : RelayQLFragment Ty :=
  MkFragment
    "F" User
    [relay [MkArgument
              "variables" stringType
              (ArgArray [MkArgument "variables" stringType
                                    (ArgScalar (SStr "a"));
                         MkArgument "variables" stringType
                                    (ArgScalar (SNum 1))])]]
    [SelField nameField].

(** [@include(if: $show)] and [@relay(plural: true)] *)
Definition includeIfShow : RelayQLDirective :=
  {| directiveName := "include";
     directiveArguments :=
       [MkArgument "if" booleanType (ArgVariable "show")] |}.

(** The sample schema with a payload type that some implementors of
    [Node] may be values of, while the type itself has no [id] field. *)
Definition payloadMayBeNode : SchemaFacade Ty := {|
  getName := getName schema;
  isAbstract := isAbstract schema;
  isList := isList schema;
  isConnection := isConnection schema;
  isConnectionEdge := isConnectionEdge schema;
  isConnectionPageInfo := isConnectionPageInfo schema;
  canHaveSubselections := canHaveSubselections schema;
  isQueryType := isQueryType schema;
  hasField := hasField schema;
  mayImplement := fun t name =>
                    match t with
                    | Payload => String.eqb name "Node"
                    | _ => implementsNode t name
                    end;
  alwaysImplements := alwaysImplements schema;
  getIdentifyingFieldDefinition := getIdentifyingFieldDefinition schema;
  getFieldDefinition := getFieldDefinition schema;
  generateField := generateField schema;
  generateIdFragment := generateIdFragment schema
|}.

(** [subscription Renamed { rename(input: $input) { user } }] *)
Definition renamedSubscription : RelayQLOperation Ty :=
  {| operationName := "Renamed";
     getFields := [MkField "rename" None Payload
                           [MkArgument "input" inputType
                                       (ArgVariable "input")]
                           [("input", inputType)] []
                           [SelField (leaf "user" None User)] false];
     operationDirectives := [] |}.

(** [fragment F on User
       @argumentDefinitions(count: {type: "Int", defaultValue: 10},
                            unused: 3) {
       friends(first: $count) @connection(key: "F_friends") {
         ...Foo @arguments(x: $y)
       }
       ...Bar @relay(mask: false)
     }] *)
Definition fragmentWithDefinitions : DefinitionNode :=
  FragmentDefinition
    "F" "User"
    [{| dName := "argumentDefinitions";
        dArguments :=
          Some [{| argumentName := "count";
                   argumentValue :=
                     ObjectValue [("type", StringValue "Int");
                                  ("defaultValue", IntValue 10)] |};
                {| argumentName := "unused";
                   argumentValue := IntValue 3 |}] |}]
    [FieldNode None "friends"
               [{| argumentName := "first";
                   argumentValue := VariableValue "count" |}]
               [{| dName := "connection";
                   dArguments :=
                     Some [{| argumentName := "key";
                              argumentValue := StringValue "F_friends" |}]
                |}]
               [FragmentSpreadNode "Foo" (Some [arguments [xIsY]])];
     FragmentSpreadNode "Bar" (Some [mask (BooleanValue false)])].

(** [query Q($__proto__: Int, $n: Int) { viewer }] *)
Definition protoVariables : DefinitionNode :=
  OperationDefinition
    OpQuery (Some "Q")
    [{| vdVariable := "__proto__";
        vdDefaultValue := None; vdDirectives := [] |};
     {| vdVariable := "n";
        vdDefaultValue := None; vdDirectives := [] |}]
    []
    [FieldNode None "viewer" [] [] []].

(** [fragment F on User { ...__proto__ ...Foo }] *)
Definition protoSpread : DefinitionNode :=
  FragmentDefinition
    "F" "User" []
    [FragmentSpreadNode "__proto__" None; FragmentSpreadNode "Foo" None].

End MoreDocuments.

(** * Properties *)

(** ** General facts *)

Lemma bind_Ok {A B} (m : result A) (k : A -> result B) (b : B) :
  bind m k = Ok b -> exists a, m = Ok a /\ k a = Ok b.
Proof.
  destruct m as [a | e |]; simpl; intros H; try discriminate.
  exists a; split; [reflexivity | exact H].
Qed.

Lemma bind_Throw {A B} (m : result A) (k : A -> result B) (e : Error) :
  bind m k = Throw e ->
  m = Throw e \/ exists a, m = Ok a /\ k a = Throw e.
Proof.
  destruct m as [a | e' |]; simpl; intros H; try discriminate.
  - right; exists a; split; [reflexivity | exact H].
  - left; inversion H; reflexivity.
Qed.

Tactic Notation "inv_bind" hyp(H) "as" ident(a) ident(Ha) :=
  apply bind_Ok in H; destruct H as (a & Ha & H).


Lemma mapM_Forall2 {A B} (f : A -> result B) (l : list A) (r : list B) :
  mapM f l = Ok r -> Forall2 (fun x y => f x = Ok y) l r.
Proof.
  revert r; induction l as [| x l IH]; simpl; intros r H.
  - inversion H; constructor.
  - inv_bind H as y Hy. inv_bind H as ys Hys. inversion H; subst.
    constructor; [assumption | apply IH; assumption].
Qed.

Lemma hasOwnProperty_setKey (o : KeySet) (k k' : string) :
  hasOwnProperty (setKey o k) k' =
  (hasOwnProperty o k' || String.eqb k' k)%bool.
Proof.
  unfold setKey, hasOwnProperty.
  destruct (existsb (String.eqb k) o) eqn:E.
  - destruct (String.eqb k' k) eqn:Ek.
    + apply String.eqb_eq in Ek; subst. rewrite E; reflexivity.
    + rewrite orb_false_r; reflexivity.
  - rewrite existsb_app; simpl. rewrite orb_false_r; reflexivity.
Qed.

Lemma hasOwnProperty_deleteKey (o : KeySet) (k k' : string) :
  hasOwnProperty (deleteKey o k) k' =
  (hasOwnProperty o k' && negb (String.eqb k k'))%bool.
Proof.
  unfold deleteKey, hasOwnProperty.
  induction o as [| a o IH]; simpl; [reflexivity |].
  destruct (String.eqb k a) eqn:Eka; simpl.
  - apply String.eqb_eq in Eka; subst a. rewrite IH.
    destruct (String.eqb k' k) eqn:E; simpl; [| reflexivity].
    apply String.eqb_eq in E; subst. rewrite String.eqb_refl.
    rewrite andb_false_r; reflexivity.
  - rewrite IH. destruct (String.eqb k' a) eqn:E; simpl; [| reflexivity].
    apply String.eqb_eq in E; subst a. rewrite Eka; reflexivity.
Qed.

Lemma mapM_Forall {A B} (f : A -> result B) (P : B -> Prop) (l : list A)
      (r : list B) :
  (forall x y, f x = Ok y -> P y) -> mapM f l = Ok r -> Forall P r.
Proof.
  intros Hf. revert r; induction l as [| x l IH]; simpl; intros r H.
  - inversion H; constructor.
  - inv_bind H as y Hy. inv_bind H as ys Hys. inversion H; subst.
    constructor; [eapply Hf; eassumption | apply IH; assumption].
Qed.

(** ** The printer *)

Section PrinterFacts.
Variable RelayQLType : Type.
Variable schema : SchemaFacade RelayQLType.
Variable ID : string.
Variable options : PrinterOptions.
Variable tagName : string.
Variable variableNames : KeySet.

Local Abbreviation Field := (RelayQLField RelayQLType).
Local Abbreviation Fragment := (RelayQLFragment RelayQLType).
Local Abbreviation Node := (FieldOrFragment RelayQLType).
Local Abbreviation FIELDS := (RelayQLPrinter.FIELDS options).
Local Abbreviation printSelections :=
  (RelayQLPrinter.printSelections schema ID options tagName variableNames).
Local Abbreviation printedSelections :=
  (RelayQLPrinter.printedSelections schema ID options tagName variableNames).
Local Abbreviation printFields :=
  (RelayQLPrinter.printFields schema ID options tagName variableNames).
Local Abbreviation printField :=
  (RelayQLPrinter.printField schema ID options tagName variableNames).
Local Abbreviation printFragment :=
  (RelayQLPrinter.printFragment schema ID options tagName variableNames).
Local Abbreviation printQuery :=
  (RelayQLPrinter.printQuery schema ID options tagName variableNames).
Local Abbreviation printMutation :=
  (RelayQLPrinter.printMutation schema ID options tagName variableNames).
Local Abbreviation printSubscription :=
  (RelayQLPrinter.printSubscription schema ID options tagName variableNames).
Local Abbreviation printVariable :=
  (RelayQLPrinter.printVariable tagName variableNames).
Local Abbreviation printFragmentReference :=
  (RelayQLPrinter.printFragmentReference tagName).
Local Abbreviation partitionSelections :=
  (@RelayQLPrinter.partitionSelections RelayQLType tagName).
Local Abbreviation validateConnectionField :=
  (RelayQLPrinter.validateConnectionField schema options).
Local Abbreviation validateMutationField :=
  (@RelayQLPrinter.validateMutationField RelayQLType options).
Local Abbreviation INPUT_ARGUMENT_NAME :=
  (RelayQLPrinter.INPUT_ARGUMENT_NAME options).
Local Abbreviation fieldMetadata :=
  (RelayQLPrinter.fieldMetadata schema ID).
Local Abbreviation fieldRequisites :=
  (RelayQLPrinter.fieldRequisites schema ID options).
Local Abbreviation idFragmentOf :=
  (RelayQLPrinter.idFragmentOf schema ID).

Lemma printSelections_S fuel (parent : Node) requisiteFields extraFragments
      isGeneratedQuery :
  printSelections (S fuel) parent requisiteFields extraFragments
                  isGeneratedQuery =
  (r <- printedSelections fuel parent requisiteFields extraFragments
                          isGeneratedQuery ;;
   match fst r with
   | [] => Ok NULL
   | selections =>
       Ok (if snd r
           then shallowFlatten (ArrayLiteralExpression selections)
           else ArrayLiteralExpression selections)
   end).
Proof.
  unfold RelayQLPrinter.printedSelections; simpl.
  destruct (RelayQLPrinter.partitionSelections _ _ _) as [[[fs ps] d] | |];
    simpl; try reflexivity.
  destruct extraFragments as [l |]; simpl.
  - destruct (mapM _ l) as [extra | |]; simpl; try reflexivity.
    destruct (RelayQLPrinter.printFields _ _ _ _ _ _ _ _ _ _) as [pfs | |];
      simpl; try reflexivity.
    destruct (pfs ++ ps ++ extra); reflexivity.
  - destruct (RelayQLPrinter.printFields _ _ _ _ _ _ _ _ _ _) as [pfs | |];
      simpl; try reflexivity.
    destruct (pfs ++ ps ++ []); reflexivity.
Qed.

Lemma partitionSelections_spec pf (selections : list (Selection RelayQLType))
      fields printed did :
  partitionSelections pf selections = Ok (fields, printed, did) ->
  did = existsb isSpread selections
  /\ fields = requestedFields selections
  /\ (did = true -> printed <> []).
Proof.
  revert fields printed did.
  induction selections as [| sel rest IH]; simpl; intros fields printed did H.
  - inversion H; subst. repeat split; intros; discriminate.
  - destruct sel as [f | name ds | fr].
    + inv_bind H as r Hr. destruct r as [[fs ps] d]. inversion H; subst.
      destruct (IH _ _ _ Hr) as (-> & -> & Hne). repeat split; assumption.
    + destruct (negb (length ds =? 0)%nat); [discriminate |].
      inv_bind H as r Hr. destruct r as [[fs ps] d]. inversion H; subst.
      destruct (IH _ _ _ Hr) as (_ & -> & _).
      repeat split; intros; discriminate.
    + inv_bind H as p Hp. inv_bind H as r Hr. destruct r as [[fs ps] d].
      inversion H; subst.
      destruct (IH _ _ _ Hr) as (-> & -> & Hne).
      repeat split; intros; discriminate.
Qed.

(** C6.  With validation enabled, a query, mutation or subscription
    whose number of root fields is not one makes the printer throw
    [TooManyRootFields], whatever else the definition holds; with
    validation disabled the count is not looked at: the definition is
    printed from its first root field alone, exactly as the definition
    reduced to that field is printed with validation enabled. *)
Theorem root_field_count_checked_when_enabled
    fuel (operation : RelayQLOperation RelayQLType) :
  length (getFields operation) <> 1 ->
  (printQuery fuel operation true
   = Throw (TooManyRootFields KQuery (length (getFields operation))
                              (operationName operation))
   /\ printMutation fuel operation true
      = Throw (TooManyRootFields KMutation (length (getFields operation))
                                 (operationName operation))
   /\ printSubscription fuel operation true
      = Throw (TooManyRootFields KSubscription
                                 (length (getFields operation))
                                 (operationName operation)))
  /\ (forall rootField rest,
         getFields operation = rootField :: rest ->
         printQuery fuel operation false
         = printQuery fuel (withRootFields operation [rootField]) true
         /\ printMutation fuel operation false
            = printMutation fuel (withRootFields operation [rootField]) true
         /\ printSubscription fuel operation false
            = printSubscription fuel (withRootFields operation [rootField])
                                true).
Proof.
  intros Hlen.
  assert (Hb : negb (length (getFields operation) =? 1)%nat = true).
  { apply negb_true_iff, Nat.eqb_neq; exact Hlen. }
  split.
  - unfold RelayQLPrinter.printQuery, RelayQLPrinter.printMutation,
      RelayQLPrinter.printSubscription.
    rewrite Hb; simpl. repeat split; reflexivity.
  - intros rootField rest Hfields.
    unfold RelayQLPrinter.printQuery, RelayQLPrinter.printMutation,
      RelayQLPrinter.printSubscription.
    rewrite Hfields; simpl. rewrite andb_false_r.
    repeat split; reflexivity.
Qed.

Lemma forEachM_Throw {A} (g : A -> result unit) (P : Error -> Prop)
      (l : list A) :
  Forall (fun x => forall e, g x = Throw e -> P e) l ->
  forall e, forEachM g l = Throw e -> P e.
Proof.
  induction 1 as [| x l Hx Hl IH]; simpl; intros e H; [discriminate |].
  apply bind_Throw in H. destruct H as [H | (u & _ & H)].
  - eapply Hx; eassumption.
  - apply IH; assumption.
Qed.

Lemma forEachRecursiveSelection_Throw
      (callback : Field -> result unit) (P : Error -> Prop) :
  (forall f e, callback f = Throw e -> P e) ->
  forall selection e,
    RelayQLPrinter.forEachRecursiveSelection callback selection = Throw e ->
    P e.
Proof.
  intros Hcallback.
  fix IH 1.
  intros [f | name ds | [n t d selections]] e; simpl.
  - apply Hcallback.
  - discriminate.
  - apply forEachM_Throw.
    induction selections as [| s rest IHrest]; constructor.
    + intros e'; apply IH.
    + exact IHrest.
Qed.

Lemma pairCondition_forbidden (x y : option RelayQLArgument) :
  RelayQLPrinter.pairCondition x y = negb (forbiddenPair x y).
Proof.
  destruct x as [a |], y as [b |]; simpl; try reflexivity.
  rewrite negb_orb, !negb_involutive; reflexivity.
Qed.

(** C5.  [validateConnectionField] throws
    [ConflictingPaginationArguments] exactly when one of the pairs
    first/last, before/first, after/last is applied with at least one
    value that is not a variable; a pair of two variables (or a pair with
    a missing member) never raises it. *)
Theorem conflicting_pagination_iff_forbidden_pair (field : Field) :
  (exists pair name,
      validateConnectionField field
      = Throw (ConflictingPaginationArguments pair name))
  <-> (forbiddenPair (findArgument field "first")
                     (findArgument field "last")
       || forbiddenPair (findArgument field "before")
                        (findArgument field "first")
       || forbiddenPair (findArgument field "after")
                        (findArgument field "last")) = true.
Proof.
  unfold RelayQLPrinter.validateConnectionField.
  rewrite !pairCondition_forbidden, !negb_involutive.
  assert (Hsym : forall x y, forbiddenPair x y = forbiddenPair y x).
  { intros [a |] [b |]; simpl; try reflexivity. apply orb_comm. }
  rewrite (Hsym (findArgument field "before")),
          (Hsym (findArgument field "after")).
  destruct (forbiddenPair (findArgument field "first")
                          (findArgument field "last")); simpl.
  { split; [reflexivity | intros _; eauto]. }
  destruct (forbiddenPair (findArgument field "first")
                          (findArgument field "before")); simpl.
  { split; [reflexivity | intros _; eauto]. }
  destruct (forbiddenPair (findArgument field "last")
                          (findArgument field "after")); simpl.
  { split; [reflexivity | intros _; eauto]. }
  split; [| discriminate].
  intros (pair & name & H). exfalso.
  destruct (getFieldDefinition schema (fieldType field) _);
    [| discriminate].
  destruct (getFieldDefinition schema r _); [| discriminate].
  unfold RelayQLPrinter.forEachRecursiveField in H.
  set (harmless := fun e : Error =>
         match e with
         | ConflictingPaginationArguments _ _ => False
         | _ => True
         end).
  change (harmless (ConflictingPaginationArguments pair name)).
  refine (@forEachM_Throw _ _ harmless _ _ _ H).
  apply Forall_forall. intros selection _ e.
  apply forEachRecursiveSelection_Throw. clear.
  intros subfield e.
  destruct (_ || _)%bool.
  - destruct (negb _); intros H; inversion H; exact I.
  - destruct (_ && _)%bool; intros H; inversion H; exact I.
Qed.

(** *** Printed fields *)

Lemma propertyValue_app key (a b : list (string * Printable)) :
  propertyValue key (a ++ b)
  = match propertyValue key b with
    | Some v => Some v
    | None => propertyValue key a
    end.
Proof.
  induction a as [| [k v] a IH]; simpl.
  - destruct (propertyValue key b); reflexivity.
  - rewrite IH. destruct (propertyValue key b); reflexivity.
Qed.

Lemma countName_app name (a b : list (option string)) :
  countName name (a ++ b) = countName name a + countName name b.
Proof.
  unfold countName. rewrite filter_app, length_app. reflexivity.
Qed.

Lemma NoDup_setKey (o : KeySet) (k : string) :
  NoDup o -> NoDup (setKey o k).
Proof.
  intros H. unfold setKey, hasOwnProperty.
  destruct (existsb (String.eqb k) o) eqn:E; [assumption |].
  apply NoDup_app; [assumption | repeat constructor; intros [] | ].
  intros x Hx [<- | []].
  assert (existsb (String.eqb k) o = true); [| congruence].
  apply existsb_exists. exists k. split; [assumption |].
  apply String.eqb_refl.
Qed.

Lemma NoDup_deleteKey (o : KeySet) (k : string) :
  NoDup o -> NoDup (deleteKey o k).
Proof. apply NoDup_filter. Qed.

Lemma countName_NoDup (o : KeySet) (k : string) :
  NoDup o ->
  countName k (map Some o) = if hasOwnProperty o k then 1 else 0.
Proof.
  unfold countName, hasOwnProperty.
  induction 1 as [| a o Hin Hnd IH]; simpl; [reflexivity |].
  rewrite (String.eqb_sym k a).
  destruct (String.eqb a k) eqn:E; simpl.
  - apply String.eqb_eq in E; subst a. rewrite IH.
    destruct (existsb (String.eqb k) o) eqn:Ex; [| reflexivity].
    exfalso; apply Hin. apply existsb_exists in Ex.
    destruct Ex as (x & Hx & Hxk). apply String.eqb_eq in Hxk; subst x.
    assumption.
  - exact IH.
Qed.

(** A printed field carries the name of the field it was printed from,
    and its metadata object is the one [printRelayDirectiveMetadata]
    builds from the computed metadata. *)
Lemma printField_shape fuel (field : Field) (parent : Node)
      requisiteSiblings generatedSiblings isGeneratedQuery node :
  printField fuel field parent requisiteSiblings generatedSiblings
             isGeneratedQuery = Ok node ->
  printedFieldName node = Some (fieldName field)
  /\ exists metadata,
      propertyValue "metadata" (propertiesOf node) = Some metadata
      /\ RelayQLPrinter.printRelayDirectiveMetadata
           (OfField field)
           (Some (fieldMetadata field requisiteSiblings generatedSiblings))
         = Ok metadata.
Proof.
  destruct fuel as [| fuel]; [discriminate |]. simpl. intros H.
  inv_bind H as u1 Hu1. inv_bind H as u2 Hu2.
  inv_bind H as selections Hsel. inv_bind H as calls Hcalls.
  inv_bind H as directives Hdir. inv_bind H as metadata Hmeta.
  inversion H; subst node; clear H.
  assert (Hm : isNULL metadata = false).
  { unfold RelayQLPrinter.printRelayDirectiveMetadata in Hmeta.
    inv_bind Hmeta as d Hd. inversion Hmeta; reflexivity. }
  unfold printedFieldName, codify, propertiesOf.
  cbn [filter snd]. rewrite Hm.
  destruct (isNULL (match fieldAlias field with Some _ => _ | None => _ end)),
    (isNULL calls), (isNULL selections), (isNULL directives);
    (split; [reflexivity | exists metadata; split; [reflexivity | exact Hmeta]]).
Qed.

Lemma printRequestedFields_spec
      (pf : Field -> KeySet -> result Printable)
      (fields : list Field) generatedFields printed remaining :
  RelayQLPrinter.printRequestedFields pf fields generatedFields
  = Ok (printed, remaining) ->
  Forall2 (fun field node =>
             exists generatedSiblings,
               hasOwnProperty generatedSiblings (fieldName field) = false
               /\ pf field generatedSiblings = Ok node)
          fields printed
  /\ (forall k, hasOwnProperty remaining k
                = (hasOwnProperty generatedFields k
                   && negb (existsb (fun field =>
                                       String.eqb (fieldName field) k)
                                    fields))%bool)
  /\ (NoDup generatedFields -> NoDup remaining).
Proof.
  revert generatedFields printed remaining.
  induction fields as [| field rest IH]; simpl;
    intros generatedFields printed remaining H.
  - inversion H; subst. repeat split.
    + constructor.
    + intros k; rewrite andb_true_r; reflexivity.
    + trivial.
  - inv_bind H as node Hnode. inv_bind H as r Hr. destruct r as [ps g].
    inversion H; subst; clear H. simpl.
    destruct (IH _ _ _ Hr) as (HF & Hmem & Hnd).
    repeat split.
    + constructor; [| exact HF].
      exists (deleteKey generatedFields (fieldName field)).
      split; [| exact Hnode].
      rewrite hasOwnProperty_deleteKey, String.eqb_refl.
      apply andb_false_r.
    + intros k. rewrite Hmem, hasOwnProperty_deleteKey.
      rewrite negb_orb, andb_assoc. reflexivity.
    + intros Hg. apply Hnd, NoDup_deleteKey, Hg.
Qed.

(** The marks [printRelayDirectiveMetadata] leaves for the two sibling
    flags of the computed metadata. *)
Lemma metadata_isRequisite (field : Field) requisiteSiblings
      generatedSiblings metadata :
  RelayQLPrinter.printRelayDirectiveMetadata
    (OfField field)
    (Some (fieldMetadata field requisiteSiblings generatedSiblings))
  = Ok metadata ->
  hasOwnProperty requisiteSiblings (fieldName field) = true ->
  propertyValue "isRequisite" (propertiesOf metadata) = Some TrueKeyword.
Proof.
  unfold RelayQLPrinter.printRelayDirectiveMetadata,
    RelayQLPrinter.fieldMetadata.
  intros H Hreq. inv_bind H as d Hd. inversion H; subst; clear H.
  simpl propertiesOf. rewrite Hreq.
  rewrite !map_app, !propertyValue_app. reflexivity.
Qed.

Lemma metadata_isGenerated (field : Field) requisiteSiblings
      generatedSiblings metadata :
  RelayQLPrinter.printRelayDirectiveMetadata
    (OfField field)
    (Some (fieldMetadata field requisiteSiblings generatedSiblings))
  = Ok metadata ->
  hasOwnProperty generatedSiblings (fieldName field) = true ->
  propertyValue "isGenerated" (propertiesOf metadata) = Some TrueKeyword.
Proof.
  unfold RelayQLPrinter.printRelayDirectiveMetadata,
    RelayQLPrinter.fieldMetadata.
  intros H Hgen. inv_bind H as d Hd. inversion H; subst; clear H.
  simpl propertiesOf. rewrite Hgen.
  rewrite !map_app, !propertyValue_app.
  destruct (hasOwnProperty requisiteSiblings (fieldName field));
    reflexivity.
Qed.

Lemma printField_metadata fuel (field : Field) (parent : Node)
      requisiteSiblings generatedSiblings isGeneratedQuery node :
  printField fuel field parent requisiteSiblings generatedSiblings
             isGeneratedQuery = Ok node ->
  (hasOwnProperty requisiteSiblings (fieldName field) = true ->
   propertyValue "isRequisite" (printedMetadata node) = Some TrueKeyword)
  /\ (hasOwnProperty generatedSiblings (fieldName field) = true ->
      propertyValue "isGenerated" (printedMetadata node)
      = Some TrueKeyword).
Proof.
  intros H.
  assert (Hobj : exists properties,
             node = ObjectLiteralExpression properties).
  { destruct fuel as [| fuel]; [discriminate |]. simpl in H.
    inv_bind H as u1 Hu1. inv_bind H as u2 Hu2.
    inv_bind H as selections Hsel. inv_bind H as calls Hcalls.
    inv_bind H as directives Hdir. inv_bind H as metadata Hmeta.
    inversion H. unfold codify. eauto. }
  destruct Hobj as (properties & ->).
  apply printField_shape in H.
  destruct H as (_ & metadata & Hm & Hprint).
  unfold printedMetadata. simpl propertiesOf in *. rewrite Hm.
  split; intros Hk.
  - eapply metadata_isRequisite; eassumption.
  - eapply metadata_isGenerated; eassumption.
Qed.

(** What [printFields] returns: the requested fields in order, each
    printed against a [generatedFields] object that no longer holds its
    name, then one generated field per requisite name that was not
    requested.  The requisite set is the one in force after the
    [pageInfo] step. *)
Lemma printFields_spec fuel (fields : list Field) (parent : Node)
      requisiteFields isGeneratedQuery printed :
  NoDup requisiteFields ->
  printFields fuel fields parent requisiteFields isGeneratedQuery
  = Ok printed ->
  let requisite :=
    if (isConnection schema (getType parent)
        && hasField schema (getType parent) (f_pageInfo FIELDS)
        && existsb (fun field =>
                      String.eqb (fieldName field) (f_edges FIELDS))
                   fields)%bool
    then setKey requisiteFields (f_pageInfo FIELDS)
    else requisiteFields in
  exists requested generatedPart remaining,
    printed = requested ++ generatedPart
    /\ Forall2 (fun field node =>
                  exists generatedSiblings,
                    hasOwnProperty generatedSiblings (fieldName field)
                    = false
                    /\ printField (pred fuel) field parent requisite
                                  generatedSiblings isGeneratedQuery
                       = Ok node)
               fields requested
    /\ NoDup remaining
    /\ (forall k, hasOwnProperty remaining k
                  = (hasOwnProperty requisite k
                     && negb (existsb (fun field =>
                                         String.eqb (fieldName field) k)
                                      fields))%bool)
    /\ Forall2 (fun name node =>
                  printField (pred fuel)
                             (generateField schema (getType parent) name)
                             parent requisite remaining isGeneratedQuery
                  = Ok node)
               remaining generatedPart.
Proof.
  intros Hnd H requisite.
  destruct fuel as [| fuel]; [discriminate |].
  simpl in H. fold requisite in H.
  inv_bind H as r Hr. destruct r as [requested remaining].
  inv_bind H as generatedPart Hgen. inversion H; subst printed; clear H.
  assert (Hndr : NoDup requisite).
  { unfold requisite. destruct (_ && _ && _)%bool;
      [apply NoDup_setKey |]; assumption. }
  destruct (printRequestedFields_spec _ _ _ Hr) as (HF & Hmem & Hndrem).
  exists requested, generatedPart, remaining. simpl pred.
  split; [reflexivity |]. split; [exact HF |].
  split; [apply Hndrem, Hndr |]. split; [exact Hmem |].
  apply mapM_Forall2 in Hgen. exact Hgen.
Qed.

Lemma requested_names fuel (parent : Node) requisite isGeneratedQuery
      (fields : list Field) requested :
  Forall2 (fun field node =>
             exists generatedSiblings,
               hasOwnProperty generatedSiblings (fieldName field) = false
               /\ printField fuel field parent requisite
                             generatedSiblings isGeneratedQuery
                  = Ok node)
          fields requested ->
  map printedFieldName requested = namesOf fields.
Proof.
  unfold namesOf.
  induction 1 as [| f n fs ns (g & _ & Hp) _ IH]; simpl; [reflexivity |].
  f_equal; [| exact IH].
  apply printField_shape in Hp. apply Hp.
Qed.

Lemma generated_names fuel (parent : Node) requisite remaining
      isGeneratedQuery names generatedPart :
  (forall t name, fieldName (generateField schema t name) = name) ->
  Forall2 (fun name node =>
             printField fuel (generateField schema (getType parent) name)
                        parent requisite remaining isGeneratedQuery
             = Ok node)
          names generatedPart ->
  map printedFieldName generatedPart = map Some names.
Proof.
  intros Hlaw.
  induction 1 as [| name n names ns Hp _ IH]; simpl; [reflexivity |].
  f_equal; [| exact IH].
  apply printField_shape in Hp. rewrite Hlaw in Hp. apply Hp.
Qed.

Lemma countName_namesOf k (fields : list Field) :
  countName k (namesOf fields) = 0
  <-> existsb (fun field => String.eqb (fieldName field) k) fields = false.
Proof.
  unfold countName, namesOf.
  induction fields as [| f fs IH]; simpl; [tauto |].
  destruct (String.eqb (fieldName f) k); simpl.
  - split; discriminate.
  - exact IH.
Qed.

Lemma In_hasOwnProperty (o : KeySet) (k : string) :
  In k o -> hasOwnProperty o k = true.
Proof.
  intros H. apply existsb_exists. exists k.
  split; [exact H | apply String.eqb_refl].
Qed.

Lemma generated_marked fuel (parent : Node) requisite remaining
      isGeneratedQuery names generatedPart :
  (forall t name, fieldName (generateField schema t name) = name) ->
  (forall name, In name names -> In name remaining) ->
  Forall2 (fun name node =>
             printField fuel (generateField schema (getType parent) name)
                        parent requisite remaining isGeneratedQuery
             = Ok node)
          names generatedPart ->
  Forall (fun node =>
            propertyValue "isGenerated" (printedMetadata node)
            = Some TrueKeyword)
         generatedPart.
Proof.
  intros Hlaw Hsub H.
  induction H as [| name n names ns Hp _ IH]; constructor.
  - apply printField_metadata in Hp. apply Hp.
    rewrite Hlaw. apply In_hasOwnProperty, Hsub. left; reflexivity.
  - apply IH. intros x Hx. apply Hsub. right; exact Hx.
Qed.

(** The generated part of [printFields], for one requisite name. *)
Lemma printFields_requisite fuel (fields : list Field) (parent : Node)
      requisiteFields isGeneratedQuery printed :
  (forall t name, fieldName (generateField schema t name) = name) ->
  NoDup requisiteFields ->
  printFields fuel fields parent requisiteFields isGeneratedQuery
  = Ok printed ->
  let requisite :=
    if (isConnection schema (getType parent)
        && hasField schema (getType parent) (f_pageInfo FIELDS)
        && existsb (fun field =>
                      String.eqb (fieldName field) (f_edges FIELDS))
                   fields)%bool
    then setKey requisiteFields (f_pageInfo FIELDS)
    else requisiteFields in
  exists requested generatedPart,
    printed = requested ++ generatedPart
    /\ map printedFieldName requested = namesOf fields
    /\ Forall2 (fun field node =>
                  hasOwnProperty requisite (fieldName field) = true ->
                  propertyValue "isRequisite" (printedMetadata node)
                  = Some TrueKeyword)
               fields requested
    /\ Forall (fun node =>
                 propertyValue "isGenerated" (printedMetadata node)
                 = Some TrueKeyword)
              generatedPart
    /\ forall k,
        hasOwnProperty requisite k = true ->
        countName k (map printedFieldName generatedPart)
        = (if existsb (fun field => String.eqb (fieldName field) k) fields
           then 0 else 1)
        /\ countName k (map printedFieldName printed)
           = Nat.max 1 (countName k (namesOf fields)).
Proof.
  intros Hlaw Hnd H requisite.
  destruct (printFields_spec _ _ _ _ Hnd H)
    as (requested & generatedPart & remaining & -> & Hreq & Hndrem
        & Hmem & Hgen).
  fold requisite in Hreq, Hmem, Hgen.
  exists requested, generatedPart.
  split; [reflexivity |].
  split; [eapply requested_names; eassumption |].
  split; [| split].
  - revert Hreq. apply Forall2_impl. intros f n (g & _ & Hp).
    apply printField_metadata in Hp. apply Hp.
  - eapply generated_marked; [exact Hlaw | | exact Hgen]. trivial.
  - intros k Hk.
    assert (Hcount :
              countName k (map printedFieldName generatedPart)
              = if existsb (fun field => String.eqb (fieldName field) k)
                           fields
                then 0 else 1).
    { rewrite (generated_names _ _ _ _ _ Hlaw Hgen).
      rewrite countName_NoDup by exact Hndrem.
      rewrite Hmem, Hk. simpl.
      destruct (existsb (fun field => String.eqb (fieldName field) k)
                        fields); reflexivity. }
    split; [exact Hcount |].
    rewrite map_app, countName_app, Hcount.
    rewrite (requested_names _ _ _ _ Hreq).
    destruct (existsb (fun field => String.eqb (fieldName field) k) fields)
      eqn:E.
    + assert (countName k (namesOf fields) <> 0).
      { intros Hz. apply countName_namesOf in Hz. congruence. }
      lia.
    + apply countName_namesOf in E. rewrite E. reflexivity.
Qed.

(** The generated part of [printFields], for any name. *)
Lemma printFields_generated fuel (fields : list Field) (parent : Node)
      requisiteFields isGeneratedQuery printed :
  (forall t name, fieldName (generateField schema t name) = name) ->
  NoDup requisiteFields ->
  printFields fuel fields parent requisiteFields isGeneratedQuery
  = Ok printed ->
  let requisite :=
    if (isConnection schema (getType parent)
        && hasField schema (getType parent) (f_pageInfo FIELDS)
        && existsb (fun field =>
                      String.eqb (fieldName field) (f_edges FIELDS))
                   fields)%bool
    then setKey requisiteFields (f_pageInfo FIELDS)
    else requisiteFields in
  exists requested generatedPart,
    printed = requested ++ generatedPart
    /\ map printedFieldName requested = namesOf fields
    /\ forall k,
        countName k (map printedFieldName generatedPart)
        = if (hasOwnProperty requisite k
              && negb (existsb (fun field =>
                                  String.eqb (fieldName field) k)
                               fields))%bool
          then 1 else 0.
Proof.
  intros Hlaw Hnd H requisite.
  destruct (printFields_spec _ _ _ _ Hnd H)
    as (requested & generatedPart & remaining & -> & Hreq & Hndrem
        & Hmem & Hgen).
  fold requisite in Hreq, Hmem, Hgen.
  exists requested, generatedPart.
  split; [reflexivity |].
  split; [eapply requested_names; eassumption |].
  intros k. rewrite (generated_names _ _ _ _ _ Hlaw Hgen).
  rewrite countName_NoDup by exact Hndrem.
  rewrite Hmem. reflexivity.
Qed.

(** C3 (amended).  For a parent whose type is a connection and whose
    requested fields include [edges], the list [printFields] returns is
    the requested fields, each printed once and in order, followed by the
    generated ones, every one of them marked [isGenerated].  When the
    connection type declares a [pageInfo] field, [pageInfo] is generated
    exactly once when it was not requested and not at all when it was; so
    it is printed once when requested at most once, and as often as
    requested otherwise.  When the type declares no [pageInfo] field,
    nothing is added: what is generated is what the requisite object of
    the caller holds and the fields do not request, so [pageInfo] is
    printed exactly as often as it was requested unless the caller made
    it requisite.  The facade is taken to generate, for a name, a field
    of that name, and the requisite object to hold each key once. *)
Theorem connection_edges_pageInfo
    fuel (fields : list Field) (parent : Node) requisiteFields
    isGeneratedQuery printed :
  (forall t name, fieldName (generateField schema t name) = name) ->
  NoDup requisiteFields ->
  isConnection schema (getType parent) = true ->
  existsb (fun field => String.eqb (fieldName field) (f_edges FIELDS))
          fields = true ->
  printFields fuel fields parent requisiteFields isGeneratedQuery
  = Ok printed ->
  exists requested generatedPart,
    printed = requested ++ generatedPart
    /\ map printedFieldName requested = namesOf fields
    /\ Forall (fun node =>
                 propertyValue "isGenerated" (printedMetadata node)
                 = Some TrueKeyword)
              generatedPart
    /\ (hasField schema (getType parent) (f_pageInfo FIELDS) = true ->
        countName (f_pageInfo FIELDS) (map printedFieldName generatedPart)
        = (if existsb (fun field =>
                         String.eqb (fieldName field) (f_pageInfo FIELDS))
                      fields
           then 0 else 1)
        /\ countName (f_pageInfo FIELDS) (map printedFieldName printed)
           = Nat.max 1 (countName (f_pageInfo FIELDS) (namesOf fields)))
    /\ (hasField schema (getType parent) (f_pageInfo FIELDS) = false ->
        (forall k,
            countName k (map printedFieldName generatedPart)
            = if (hasOwnProperty requisiteFields k
                  && negb (existsb (fun field =>
                                      String.eqb (fieldName field) k)
                                   fields))%bool
              then 1 else 0)
        /\ (hasOwnProperty requisiteFields (f_pageInfo FIELDS) = false ->
            countName (f_pageInfo FIELDS)
                      (map printedFieldName generatedPart) = 0
            /\ countName (f_pageInfo FIELDS) (map printedFieldName printed)
               = countName (f_pageInfo FIELDS) (namesOf fields))).
Proof.
  intros Hlaw Hnd Hconn Hedges H.
  edestruct printFields_requisite
    as (requested & generatedPart & Hprinted & Hnames & _ & Hgen & Hk);
    [exact Hlaw | exact Hnd | exact H |].
  edestruct printFields_generated
    as (requested' & generatedPart' & Hprinted' & Hnames' & Hcount);
    [exact Hlaw | exact Hnd | exact H |].
  assert (Hsame : requested' = requested /\ generatedPart' = generatedPart).
  { assert (Hlen : length requested' = length requested).
    { rewrite <- (length_map printedFieldName requested'),
        <- (length_map printedFieldName requested).
      congruence. }
    rewrite Hprinted in Hprinted'.
    split.
    - apply (f_equal (firstn (length requested))) in Hprinted'.
      rewrite <- Hlen in Hprinted' at 2.
      rewrite !firstn_app, !Nat.sub_diag, !firstn_all in Hprinted'.
      simpl in Hprinted'. rewrite !app_nil_r in Hprinted'.
      symmetry; exact Hprinted'.
    - apply (f_equal (skipn (length requested))) in Hprinted'.
      rewrite <- Hlen in Hprinted' at 2.
      rewrite !skipn_app, !Nat.sub_diag, !skipn_all in Hprinted'.
      simpl in Hprinted'. symmetry; exact Hprinted'. }
  destruct Hsame as (-> & ->). clear Hprinted' Hnames'.
  exists requested, generatedPart.
  split; [exact Hprinted |]. split; [exact Hnames |].
  split; [exact Hgen |]. split.
  - intros Hpage. rewrite Hconn, Hpage, Hedges in Hk. simpl in Hk.
    apply (Hk (f_pageInfo FIELDS)).
    rewrite hasOwnProperty_setKey, String.eqb_refl. apply orb_true_r.
  - intros Hpage. rewrite Hconn, Hpage, Hedges in Hcount. simpl in Hcount.
    split; [exact Hcount |].
    intros Hnot.
    assert (Hzero : countName (f_pageInfo FIELDS)
                              (map printedFieldName generatedPart) = 0).
    { rewrite Hcount, Hnot. reflexivity. }
    split; [exact Hzero |].
    rewrite Hprinted, map_app, countName_app, Hzero, Hnames. lia.
Qed.

(** *** Printed fragments and selections *)

Lemma printFragment_not_field fuel (fragment : Fragment) node :
  printFragment fuel fragment = Ok node -> printedFieldName node = None.
Proof.
  destruct fuel as [| fuel]; [discriminate |]. simpl. intros H.
  inv_bind H as selections Hsel. inv_bind H as metadata Hmeta.
  inv_bind H as directives Hdir.
  destruct (RelayQLPrinter.selectVariablesOf fragment) as [sv |].
  - destruct (argValue sv); try discriminate.
    inv_bind H as initializers Hi. inversion H; reflexivity.
  - inversion H; subst node; clear H.
    unfold printedFieldName, codify, propertiesOf. cbn [filter snd].
    destruct (isNULL selections), (isNULL directives), (isNULL metadata);
      reflexivity.
Qed.

Lemma partitionSelections_not_fields pf
      (selections : list (Selection RelayQLType)) fields printed did :
  (forall fragment node,
      pf fragment = Ok node -> printedFieldName node = None) ->
  partitionSelections pf selections = Ok (fields, printed, did) ->
  Forall (fun node => printedFieldName node = None) printed.
Proof.
  intros Hpf. revert fields printed did.
  induction selections as [| sel rest IH]; simpl; intros fields printed did H.
  - inversion H; constructor.
  - destruct sel as [f | name ds | fr].
    + inv_bind H as r Hr. destruct r as [[fs ps] d]. inversion H; subst.
      eapply IH; eassumption.
    + destruct (negb (length ds =? 0)%nat); [discriminate |].
      inv_bind H as r Hr. destruct r as [[fs ps] d]. inversion H; subst.
      constructor; [reflexivity | eapply IH; eassumption].
    + inv_bind H as p Hp. inv_bind H as r Hr. destruct r as [[fs ps] d].
      inversion H; subst.
      constructor; [eapply Hpf; eassumption | eapply IH; eassumption].
Qed.

Lemma countName_none name (nodes : list Printable) :
  Forall (fun node => printedFieldName node = None) nodes ->
  countName name (map printedFieldName nodes) = 0.
Proof.
  unfold countName.
  induction 1 as [| n ns Hn _ IH]; simpl; [reflexivity |].
  rewrite Hn. exact IH.
Qed.

Lemma isNULL_selectionElements (children : Printable) :
  isNULL children = true -> selectionElements children = [].
Proof.
  destruct children as [| | | | | [|] | | | | | | |]; simpl;
    try discriminate; reflexivity.
Qed.

(** The printed selections, for one requisite name of the caller. *)
Lemma printSelections_requisite fuel (parent : Node) requisiteFields
      extraFragments isGeneratedQuery children name :
  (forall t n, fieldName (generateField schema t n) = n) ->
  NoDup requisiteFields ->
  hasOwnProperty requisiteFields name = true ->
  printSelections fuel parent requisiteFields extraFragments
                  isGeneratedQuery = Ok children ->
  exists requested others,
    selectionElements children = requested ++ others
    /\ map printedFieldName requested
       = namesOf (requestedFields (getSelections parent))
    /\ Forall2 (fun field printed =>
                  fieldName field = name ->
                  propertyValue "isRequisite" (printedMetadata printed)
                  = Some TrueKeyword)
               (requestedFields (getSelections parent)) requested
    /\ countName name (map printedFieldName others)
       = (if existsb (fun field => String.eqb (fieldName field) name)
                     (requestedFields (getSelections parent))
          then 0 else 1)
    /\ countName name (map printedFieldName (selectionElements children))
       = Nat.max 1 (countName name
                              (namesOf (requestedFields
                                          (getSelections parent)))).
Proof.
  intros Hlaw Hnd Hname H.
  destruct fuel as [| fuel]; [discriminate |].
  rewrite printSelections_S in H.
  inv_bind H as r Hr. destruct r as [selections did]. simpl in H.
  unfold RelayQLPrinter.printedSelections in Hr.
  inv_bind Hr as parts Hparts. destruct parts as [[fields ps] d].
  inv_bind Hr as extra Hextra. inv_bind Hr as pfs Hpfs.
  inversion Hr; subst selections did; clear Hr.
  destruct (partitionSelections_spec _ _ Hparts) as (_ & Hfields & _).
  subst fields.
  assert (Hps : Forall (fun node => printedFieldName node = None)
                       (ps ++ extra)).
  { apply Forall_app. split.
    - eapply partitionSelections_not_fields; [| exact Hparts].
      intros fr n. apply printFragment_not_field.
    - destruct extraFragments as [frs |].
      + eapply mapM_Forall; [| exact Hextra].
        intros fr n. apply printFragment_not_field.
      + inversion Hextra; constructor. }
  edestruct printFields_requisite
    as (requested & generatedPart & Hprinted & Hnames & Hmarks & _ & Hk);
    [exact Hlaw | exact Hnd | exact Hpfs |].
  assert (Hin : hasOwnProperty
                  (if (isConnection schema (getType parent)
                       && hasField schema (getType parent)
                                   (f_pageInfo FIELDS)
                       && existsb
                            (fun field =>
                               String.eqb (fieldName field)
                                          (f_edges FIELDS))
                            (requestedFields (getSelections parent)))%bool
                   then setKey requisiteFields (f_pageInfo FIELDS)
                   else requisiteFields) name = true).
  { destruct (_ && _ && _)%bool; [| exact Hname].
    rewrite hasOwnProperty_setKey, Hname. reflexivity. }
  destruct (Hk name Hin) as (Hgen & Htotal).
  assert (Helems : selectionElements children
                   = requested ++ generatedPart ++ ps ++ extra).
  { subst pfs. destruct ((requested ++ generatedPart) ++ ps ++ extra)
      as [| s0 ss] eqn:E.
    - inversion H; subst children. simpl.
      rewrite <- app_assoc in E. symmetry; exact E.
    - rewrite <- app_assoc in E.
      destruct d; inversion H; subst children; simpl;
        symmetry; exact E. }
  exists requested, (generatedPart ++ ps ++ extra).
  split; [exact Helems |]. split; [exact Hnames |]. split.
  - revert Hmarks. apply Forall2_impl. intros f n Hmark Hf.
    apply Hmark. rewrite Hf. exact Hin.
  - split.
    + rewrite map_app, countName_app, Hgen, (countName_none _ Hps). lia.
    + rewrite Helems, app_assoc, map_app, countName_app.
      rewrite <- Hprinted, Htotal, (countName_none _ Hps). lia.
Qed.

Lemma printQuery_children fuel (query : RelayQLOperation RelayQLType)
      enableValidation rootField rest node :
  getFields query = rootField :: rest ->
  printQuery fuel query enableValidation = Ok node ->
  exists children,
    printSelections
      fuel (OfField rootField)
      (let requisiteFields :=
         match getIdentifyingFieldDefinition schema (fieldType rootField)
         with
         | Some name => setKey [] name
         | None => []
         end in
       if isAbstract schema (fieldType rootField)
       then setKey requisiteFields (f__typename FIELDS)
       else requisiteFields)
      None false = Ok children
    /\ printedChildren node = selectionElements children.
Proof.
  intros Hfields H. unfold RelayQLPrinter.printQuery in H.
  rewrite Hfields in H.
  destruct (negb _ && enableValidation)%bool; [discriminate |].
  inv_bind H as children Hsel.
  destruct (1 <? _)%nat; [discriminate |].
  inv_bind H as r Hr. destruct r as [metadata calls].
  inv_bind H as directives Hdir. inversion H; subst node; clear H.
  exists children. split; [exact Hsel |].
  unfold printedChildren, codify, propertiesOf. cbn [filter snd].
  destruct (isNULL calls), (isNULL children) eqn:E, (isNULL directives);
    first [ reflexivity
          | symmetry; apply isNULL_selectionElements; exact E ].
Qed.

Lemma printFragment_children fuel (fragment : Fragment) node :
  printFragment fuel fragment = Ok node ->
  exists children,
    printSelections
      (pred fuel) (OfFragment fragment)
      (let requisiteFields :=
         if hasField schema (fragmentType fragment) ID
         then setKey [] ID else [] in
       if isAbstract schema (fragmentType fragment)
       then setKey requisiteFields (f__typename FIELDS)
       else requisiteFields)
      (idFragmentOf (OfFragment fragment))
      (hasDirective (OfFragment fragment) "generated") = Ok children
    /\ printedChildren node = selectionElements children.
Proof.
  destruct fuel as [| fuel]; [discriminate |]. simpl. intros H.
  inv_bind H as children Hsel. inv_bind H as metadata Hmeta.
  inv_bind H as directives Hdir.
  exists children. split; [exact Hsel |].
  assert (Hcode :
            printedChildren
              (codify [("children", children);
                       ("directives", directives);
                       ("id", RelayQLPrinter.printFragmentID tagName);
                       ("kind", createLiteral (SStr "Fragment"));
                       ("metadata", metadata);
                       ("name",
                        createLiteral (SStr (fragmentName fragment)));
                       ("type",
                        createLiteral
                          (SStr (getName schema (fragmentType fragment)
                                         false)))])
            = selectionElements children).
  { unfold printedChildren, codify, propertiesOf. cbn [filter snd].
    destruct (isNULL children) eqn:E, (isNULL directives),
      (isNULL metadata);
      first [ reflexivity
            | symmetry; apply isNULL_selectionElements; exact E ]. }
  destruct (RelayQLPrinter.selectVariablesOf fragment) as [sv |].
  - destruct (argValue sv); try discriminate.
    inv_bind H as initializers Hi. inversion H; subst node. exact Hcode.
  - inversion H; subst node. exact Hcode.
Qed.

Lemma printField_children fuel (field : Field) (parent : Node)
      requisiteSiblings generatedSiblings isGeneratedQuery node :
  printField fuel field parent requisiteSiblings generatedSiblings
             isGeneratedQuery = Ok node ->
  exists children,
    printSelections (pred fuel) (OfField field) (fieldRequisites field)
                    (idFragmentOf (OfField field)) isGeneratedQuery
    = Ok children
    /\ printedChildren node = selectionElements children.
Proof.
  destruct fuel as [| fuel]; [discriminate |]. simpl. intros H.
  inv_bind H as u1 Hu1. inv_bind H as u2 Hu2.
  inv_bind H as children Hsel. inv_bind H as calls Hcalls.
  inv_bind H as directives Hdir. inv_bind H as metadata Hmeta.
  inversion H; subst node; clear H.
  exists children. split; [exact Hsel |].
  unfold printedChildren, codify, propertiesOf. cbn [filter snd].
  destruct (isNULL (match fieldAlias field with Some _ => _ | None => _ end)),
    (isNULL calls), (isNULL children) eqn:E, (isNULL directives),
    (isNULL metadata);
    first [ reflexivity
          | symmetry; apply isNULL_selectionElements; exact E ].
Qed.

Lemma NoDup_two_keys (a : option string) (b : bool) (k : string) :
  NoDup (let r := match a with Some n => setKey [] n | None => [] end in
         if b then setKey r k else r).
Proof.
  simpl. destruct b; [apply NoDup_setKey |];
    (destruct a; [apply NoDup_setKey |]; constructor).
Qed.

Lemma NoDup_fieldRequisites (field : Field) :
  NoDup (fieldRequisites field).
Proof.
  unfold RelayQLPrinter.fieldRequisites.
  repeat match goal with
         | |- context [if ?c then _ else _] => destruct c
         end;
    repeat apply NoDup_setKey; constructor.
Qed.

(** C4 (amended).  For a query whose root field has an abstract type, a
    fragment on an abstract type and a field of an abstract type, the
    printed children hold the [__typename] field at least once: every
    request of it is printed, marked [isRequisite]; one generated copy
    follows the requested fields when it was not requested, none when it
    was; so it is printed once when requested at most once, and as often
    as requested otherwise.  The facade is taken to generate, for a name,
    a field of that name. *)
Theorem typename_requisite_once :
  (forall t n, fieldName (generateField schema t n) = n) ->
  (forall fuel (query : RelayQLOperation RelayQLType) enableValidation
          rootField rest node,
      getFields query = rootField :: rest ->
      isAbstract schema (fieldType rootField) = true ->
      printQuery fuel query enableValidation = Ok node ->
      requisiteOnce (f__typename FIELDS) (fieldSelections rootField) node)
  /\ (forall fuel (fragment : Fragment) node,
         isAbstract schema (fragmentType fragment) = true ->
         printFragment fuel fragment = Ok node ->
         requisiteOnce (f__typename FIELDS) (fragmentSelections fragment)
                       node)
  /\ (forall fuel (field : Field) (parent : Node) requisiteSiblings
             generatedSiblings isGeneratedQuery node,
         isAbstract schema (fieldType field) = true ->
         printField fuel field parent requisiteSiblings generatedSiblings
                    isGeneratedQuery = Ok node ->
         requisiteOnce (f__typename FIELDS) (fieldSelections field) node).
Proof.
  intros Hlaw. split; [| split].
  - intros fuel query ev rootField rest node Hfields Habs H.
    destruct (printQuery_children _ _ _ Hfields H)
      as (children & Hsel & Hc).
    unfold requisiteOnce. rewrite Hc.
    change (fieldSelections rootField)
      with (getSelections (OfField rootField)).
    eapply printSelections_requisite; [exact Hlaw | | | exact Hsel].
    + apply NoDup_two_keys.
    + simpl. rewrite Habs, hasOwnProperty_setKey, String.eqb_refl.
      apply orb_true_r.
  - intros fuel fragment node Habs H.
    destruct (printFragment_children _ _ H) as (children & Hsel & Hc).
    unfold requisiteOnce. rewrite Hc.
    change (fragmentSelections fragment)
      with (getSelections (OfFragment fragment)).
    eapply printSelections_requisite; [exact Hlaw | | | exact Hsel].
    + simpl. rewrite Habs. apply NoDup_setKey.
      destruct (hasField _ _ _); [apply NoDup_setKey |]; constructor.
    + simpl. rewrite Habs, hasOwnProperty_setKey, String.eqb_refl.
      apply orb_true_r.
  - intros fuel field parent rs gs gen node Habs H.
    destruct (printField_children _ _ _ _ _ _ H) as (children & Hsel & Hc).
    unfold requisiteOnce. rewrite Hc.
    change (fieldSelections field) with (getSelections (OfField field)).
    eapply printSelections_requisite; [exact Hlaw | | | exact Hsel].
    + apply NoDup_fieldRequisites.
    + unfold RelayQLPrinter.fieldRequisites.
      rewrite Habs, hasOwnProperty_setKey, String.eqb_refl.
      apply orb_true_r.
Qed.

(** *** Metadata *)

Lemma relayDirectiveProperties_scalars (args : list RelayQLArgument)
      properties :
  mapM RelayQLPrinter.relayDirectiveProperty args = Ok properties ->
  concat properties
  = flat_map (fun arg =>
                match argValue arg with
                | ArgScalar v =>
                    if String.eqb (argName arg) "variables" then []
                    else [(argName arg, createLiteral v)]
                | _ => []
                end) args.
Proof.
  revert properties; induction args as [| arg rest IH]; simpl;
    intros properties H.
  - inversion H; reflexivity.
  - inv_bind H as p Hp. inv_bind H as ps Hps. inversion H; subst; simpl.
    rewrite (IH _ Hps). f_equal.
    unfold RelayQLPrinter.relayDirectiveProperty in Hp.
    destruct (argValue arg); try discriminate;
      destruct (String.eqb (argName arg) "variables");
      inversion Hp; reflexivity.
Qed.

Lemma printRelayDirectiveMetadata_spec (node : Node) computed metadata :
  RelayQLPrinter.printRelayDirectiveMetadata node (Some computed)
  = Ok metadata ->
  metadata
  = ObjectLiteralExpression
      (RelayQLPrinter.relayScalars node
       ++ map (fun kv => (fst kv, createLiteral (snd kv))) computed).
Proof.
  unfold RelayQLPrinter.printRelayDirectiveMetadata,
    RelayQLPrinter.relayScalars.
  intros H. inv_bind H as d Hd. inversion H; subst; clear H.
  do 2 f_equal.
  destruct (RelayQLPrinter.findRelayDirective node) as [directive |].
  - apply relayDirectiveProperties_scalars; exact Hd.
  - inversion Hd; reflexivity.
Qed.

Lemma printField_printedMetadata fuel (field : Field) (parent : Node)
      requisiteSiblings generatedSiblings isGeneratedQuery node :
  printField fuel field parent requisiteSiblings generatedSiblings
             isGeneratedQuery = Ok node ->
  printedMetadata node
  = RelayQLPrinter.relayScalars (OfField field)
    ++ map (fun kv => (fst kv, createLiteral (snd kv)))
           (fieldMetadata field requisiteSiblings generatedSiblings).
Proof.
  intros H.
  assert (Hobj : exists properties,
             node = ObjectLiteralExpression properties).
  { destruct fuel as [| fuel]; [discriminate |]. simpl in H.
    inv_bind H as u1 Hu1. inv_bind H as u2 Hu2.
    inv_bind H as selections Hsel. inv_bind H as calls Hcalls.
    inv_bind H as directives Hdir. inv_bind H as metadata Hmeta.
    inversion H. unfold codify. eauto. }
  destruct Hobj as (properties & ->).
  apply printField_shape in H.
  destruct H as (_ & metadata & Hm & Hprint).
  unfold printedMetadata. simpl propertiesOf in *. rewrite Hm.
  apply printRelayDirectiveMetadata_spec in Hprint. subst metadata.
  reflexivity.
Qed.

Lemma printFragment_printedMetadata fuel (fragment : Fragment) node :
  printFragment fuel fragment = Ok node ->
  printedMetadata node
  = RelayQLPrinter.relayScalars (OfFragment fragment)
    ++ [("isAbstract",
         createLiteral (SBool (isAbstract schema (fragmentType fragment))));
        ("isTrackingEnabled",
         createLiteral
           (SBool match RelayQLPrinter.selectVariablesOf fragment with
                  | Some _ => true
                  | None => false
                  end))].
Proof.
  destruct fuel as [| fuel]; [discriminate |]. intros H. simpl in H.
  inv_bind H as children Hsel. inv_bind H as metadata Hmeta.
  inv_bind H as directives Hdir.
  apply printRelayDirectiveMetadata_spec in Hmeta.
  set (scalars := RelayQLPrinter.relayScalars (OfFragment fragment)) in *.
  set (tracking := match RelayQLPrinter.selectVariablesOf fragment with
                   | Some _ => true
                   | None => false
                   end) in *.
  assert (Hcode :
            printedMetadata
              (codify [("children", children);
                       ("directives", directives);
                       ("id", RelayQLPrinter.printFragmentID tagName);
                       ("kind", createLiteral (SStr "Fragment"));
                       ("metadata", metadata);
                       ("name",
                        createLiteral (SStr (fragmentName fragment)));
                       ("type",
                        createLiteral
                          (SStr (getName schema (fragmentType fragment)
                                         false)))])
            = propertiesOf metadata).
  { unfold printedMetadata, codify. cbn [filter snd propertiesOf].
    rewrite Hmeta.
    destruct (isNULL children), (isNULL directives); reflexivity. }
  assert (Hprops : propertiesOf metadata
                   = scalars
                     ++ [("isAbstract",
                          createLiteral
                            (SBool (isAbstract schema
                                               (fragmentType fragment))));
                         ("isTrackingEnabled",
                          createLiteral (SBool tracking))]).
  { rewrite Hmeta. reflexivity. }
  rewrite Hprops in Hcode. clear Hprops Hmeta.
  destruct (RelayQLPrinter.selectVariablesOf fragment) as [sv |].
  - destruct (argValue sv); try discriminate.
    inv_bind H as initializers Hi. inversion H; subst node. exact Hcode.
  - inversion H; subst node. exact Hcode.
Qed.

(** C1 (amended).  In the metadata object of a printed field or fragment
    the properties taken from [@relay] come first and the computed ones
    after them.  A key present on both sides is printed twice, and the
    value the object has for it is the computed one, the later of the
    two: the directive's value holds only for keys the printer does not
    compute.  In particular [isAbstract] and [isTrackingEnabled] of a
    fragment, and [isAbstract] of a field of an abstract type, are the
    computed values whatever the directive says. *)
Theorem computed_metadata_overrides_directive :
  (forall fuel (field : Field) (parent : Node) requisiteSiblings
          generatedSiblings isGeneratedQuery node,
      printField fuel field parent requisiteSiblings generatedSiblings
                 isGeneratedQuery = Ok node ->
      let computed :=
        map (fun kv => (fst kv, createLiteral (snd kv)))
            (fieldMetadata field requisiteSiblings generatedSiblings) in
      printedMetadata node
      = RelayQLPrinter.relayScalars (OfField field) ++ computed
      /\ (forall key,
             propertyValue key (printedMetadata node)
             = match propertyValue key computed with
               | Some value => Some value
               | None =>
                   propertyValue key
                                 (RelayQLPrinter.relayScalars (OfField field))
               end)
      /\ (isAbstract schema (fieldType field) = true ->
          propertyValue "isAbstract" (printedMetadata node)
          = Some TrueKeyword))
  /\ (forall fuel (fragment : Fragment) node,
         printFragment fuel fragment = Ok node ->
         let computed :=
           [("isAbstract",
             createLiteral
               (SBool (isAbstract schema (fragmentType fragment))));
            ("isTrackingEnabled",
             createLiteral
               (SBool match RelayQLPrinter.selectVariablesOf fragment with
                      | Some _ => true
                      | None => false
                      end))] in
         printedMetadata node
         = RelayQLPrinter.relayScalars (OfFragment fragment) ++ computed
         /\ (forall key,
                propertyValue key (printedMetadata node)
                = match propertyValue key computed with
                  | Some value => Some value
                  | None =>
                      propertyValue
                        key
                        (RelayQLPrinter.relayScalars (OfFragment fragment))
                  end)
         /\ propertyValue "isAbstract" (printedMetadata node)
            = Some (createLiteral
                      (SBool (isAbstract schema (fragmentType fragment))))
         /\ propertyValue "isTrackingEnabled" (printedMetadata node)
            = Some (createLiteral
                      (SBool
                         match RelayQLPrinter.selectVariablesOf fragment with
                         | Some _ => true
                         | None => false
                         end))).
Proof.
  split.
  - intros fuel field parent rs gs gen node H computed.
    pose proof (printField_printedMetadata _ _ _ _ _ _ H) as Hm.
    fold computed in Hm.
    split; [exact Hm |]. split.
    + intros key. rewrite Hm. apply propertyValue_app.
    + intros Habs. rewrite Hm, propertyValue_app.
      unfold computed, RelayQLPrinter.fieldMetadata. rewrite Habs.
      rewrite !map_app, !propertyValue_app.
      destruct (isList schema (fieldType field)),
        (hasOwnProperty gs (fieldName field)),
        (hasOwnProperty rs (fieldName field)); reflexivity.
  - intros fuel fragment node H computed.
    pose proof (printFragment_printedMetadata _ _ H) as Hm.
    fold computed in Hm.
    split; [exact Hm |]. split; [| split].
    + intros key. rewrite Hm. apply propertyValue_app.
    + rewrite Hm, propertyValue_app. reflexivity.
    + rewrite Hm, propertyValue_app. reflexivity.
Qed.

(** *** Mutations *)

(** C7 (amended).  Printing a mutation from its root field throws
    [WrongMutationArgumentShape] when the field declares a number of
    arguments other than one, when its one declared argument is not named
    by [INPUT_ARGUMENT_NAME], and when more than one argument is applied.
    When a Mutation node is printed, the field declares exactly that
    argument and the node has one Call, named after the root field, whose
    value is [printVariable "input"]: the CallVariable [input], unless
    [input] is the name of a substitution variable of the printer, in
    which case it is the run-time reference [<tag>.__var(input)]. *)
Theorem mutation_input_shape
    fuel (mutation : RelayQLOperation RelayQLType) enableValidation
    rootField rest :
  getFields mutation = rootField :: rest ->
  enableValidation = false \/ rest = [] ->
  let declared := map fst (fieldDeclaredArguments rootField) in
  let applied := fieldArguments rootField in
  (length declared <> 1 ->
   printMutation fuel mutation enableValidation
   = Throw (WrongMutationArgumentShape
              (DeclaredArgumentCount (length declared))
              (fieldName rootField)))
  /\ (forall name,
         declared = [name] -> name <> INPUT_ARGUMENT_NAME ->
         printMutation fuel mutation enableValidation
         = Throw (WrongMutationArgumentShape (DeclaredArgumentName name)
                                             (fieldName rootField)))
  /\ (declared = [INPUT_ARGUMENT_NAME] -> 1 < length applied ->
      printMutation fuel mutation enableValidation
      = Throw (WrongMutationArgumentShape
                 (AppliedArgumentCount (length applied))
                 (fieldName rootField)))
  /\ (forall node,
         printMutation fuel mutation enableValidation = Ok node ->
         declared = [INPUT_ARGUMENT_NAME]
         /\ length applied <= 1
         /\ propertyValue "calls" (propertiesOf node)
            = Some (ArrayLiteralExpression
                      [ObjectLiteralExpression
                         [("kind", StringLiteral "Call");
                          ("metadata", ObjectLiteralExpression []);
                          ("name", StringLiteral (fieldName rootField));
                          ("value", printVariable "input")]])
         /\ printVariable "input"
            = if hasOwnProperty variableNames "input"
              then CallExpression
                     (PropertyAccessExpression (identify tagName) "__var")
                     [Identifier "input"]
              else ObjectLiteralExpression
                     [("kind", StringLiteral "CallVariable");
                      ("callVariableName", StringLiteral "input")]).
Proof.
  intros Hfields Hcheck declared applied.
  assert (Hskip : (negb (length (rootField :: rest) =? 1)%nat
                   && enableValidation)%bool = false).
  { destruct Hcheck as [-> | ->]; [apply andb_false_r | reflexivity]. }
  unfold RelayQLPrinter.printMutation. rewrite Hfields, Hskip.
  unfold RelayQLPrinter.validateMutationField.
  fold declared. fold applied.
  split; [| split; [| split]].
  - intros Hlen. apply Nat.eqb_neq in Hlen. rewrite Hlen. reflexivity.
  - intros name Hd Hname. rewrite Hd. simpl.
    apply String.eqb_neq in Hname. rewrite Hname. reflexivity.
  - intros Hd Happlied. rewrite Hd. simpl.
    rewrite String.eqb_refl. simpl.
    apply Nat.ltb_lt in Happlied. rewrite Happlied. reflexivity.
  - intros node H.
    destruct (length declared =? 1)%nat eqn:Hlen; [| discriminate].
    simpl in H.
    destruct (String.eqb (hd "" declared) INPUT_ARGUMENT_NAME) eqn:Hname;
      [| discriminate].
    simpl in H.
    destruct (1 <? length applied)%nat eqn:Happlied; [discriminate |].
    simpl in H.
    assert (Hd : declared = [INPUT_ARGUMENT_NAME]).
    { apply Nat.eqb_eq in Hlen. apply String.eqb_eq in Hname.
      destruct declared as [| d [| d' ds]]; try discriminate.
      simpl in Hname. subst d. reflexivity. }
    split; [exact Hd |].
    split; [apply Nat.ltb_ge in Happlied; exact Happlied |].
    split.
    + unfold RelayQLPrinter.printInputOperation in H.
      inv_bind H as children Hsel. inv_bind H as inputType Hinput.
      inv_bind H as directives Hdir. inversion H; subst node; clear H.
      assert (Hv : isNULL (printVariable "input") = false).
      { unfold RelayQLPrinter.printVariable.
        destruct (hasOwnProperty variableNames "input"); reflexivity. }
      unfold codify, propertiesOf. cbn [filter snd]. rewrite Hv.
      destruct (isNULL children), (isNULL directives); reflexivity.
    + reflexivity.
Qed.

(** *** Omitted properties *)








(** *** Fuel *)











(** *** The flatten wrapper *)




(** What the loop of [printSelections] leaves in its second list: for a
    fragment spread, which must carry no directive, the reference
    [<tag>.__frag(name)]; for an inline fragment, what [printFragment]
    returns. *)
Lemma partitionSelections_fragments
      (pf : Fragment -> result Printable)
      (selections : list (Selection RelayQLType)) fields printed did :
  partitionSelections pf selections = Ok (fields, printed, did) ->
  Forall2 (fun selection node =>
             match selection with
             | SelFragmentSpread name directives =>
                 directives = []
                 /\ node = CallExpression
                             (PropertyAccessExpression (identify tagName)
                                                       "__frag")
                             [Identifier name]
             | SelInlineFragment fragment => pf fragment = Ok node
             | SelField _ => False
             end)
          (filter (fun selection =>
                     match selection with
                     | SelField _ => false
                     | _ => true
                     end) selections)
          printed.
Proof.
  revert fields printed did.
  induction selections as [| sel rest IH]; simpl; intros fields printed did H.
  - inversion H; constructor.
  - destruct sel as [f | name ds | fr].
    + inv_bind H as r Hr. destruct r as [[fs ps] d]. inversion H; subst.
      eapply IH; exact Hr.
    + destruct ds as [| d ds]; [| discriminate]. simpl in H.
      inv_bind H as r Hr. destruct r as [[fs ps] d]. inversion H; subst.
      constructor; [split; reflexivity | eapply IH; exact Hr].
    + inv_bind H as p Hp. inv_bind H as r Hr. destruct r as [[fs ps] d].
      inversion H; subst.
      constructor; [exact Hp | eapply IH; exact Hr].
Qed.



End PrinterFacts.


(** ** The classic normaliser *)

Lemma andThen_inr {A B} (m : Visit A) (k : A -> Visit B) s b s' :
  andThen m k s = inr (b, s') ->
  exists a s0, m s = inr (a, s0) /\ k a s0 = inr (b, s').
Proof.
  unfold andThen. destruct (m s) as [e | [a s0]]; [discriminate |].
  intros H. exists a, s0. split; [reflexivity | exact H].
Qed.

Tactic Notation "inv_then" hyp(H) "as" ident(a) ident(s) ident(Ha) :=
  apply andThen_inr in H; destruct H as (a & s & Ha & H).

(** Visiting values, arguments and directives leaves the counter of
    [@arguments] spreads alone. *)
Lemma recordVariable_fragmentID name s u s' :
  recordVariable name s = inr (u, s') -> fragmentID s' = fragmentID s.
Proof. intros H; inversion H; reflexivity. Qed.

Lemma visitValue_fragmentID value :
  forall s u s', visitValue value s = inr (u, s') ->
                 fragmentID s' = fragmentID s.
Proof.
  revert value. fix IH 1. intros [name | | | | | | | values | fields];
    simpl; intros s u s' H;
    try (inversion H; reflexivity).
  - revert s u s' H. induction values as [| v rest IHrest];
      intros s u s' H.
    + inversion H; reflexivity.
    + inv_then H as u0 s0 Hv. apply IH in Hv. apply IHrest in H. congruence.
  - revert s u s' H. induction fields as [| [k v] rest IHrest];
      intros s u s' H.
    + inversion H; reflexivity.
    + inv_then H as u0 s0 Hv. apply IH in Hv. apply IHrest in H. congruence.
Qed.

Lemma visitArguments_fragmentID args :
  forall s u s', visitArguments args s = inr (u, s') ->
                 fragmentID s' = fragmentID s.
Proof.
  induction args as [| arg rest IH]; simpl; intros s u s' H.
  - inversion H; reflexivity.
  - inv_then H as u0 s0 Hv. apply visitValue_fragmentID in Hv.
    apply IH in H. congruence.
Qed.

Lemma visitDirective_fragmentID node s r s' :
  visitDirective node s = inr (r, s') -> fragmentID s' = fragmentID s.
Proof.
  unfold visitDirective, visitors.Directive. intros H.
  inv_then H as d s0 Hd.
  assert (Hs0 : fragmentID s0 = fragmentID s).
  { destruct (String.eqb (dName node) "argumentDefinitions").
    - inv_then Hd as st s1 Hget. inversion Hget; subst.
      destruct (argumentDefinitions s1); [discriminate |].
      inv_then Hd as u s2 Hmod. inversion Hmod; inversion Hd; subst.
      reflexivity.
    - destruct (String.eqb (dName node) "connection");
        inversion Hd; reflexivity. }
  destruct d as [kept |].
  - inv_then H as u s1 Hargs. inversion H; subst.
    destruct (dArguments kept).
    + apply visitArguments_fragmentID in Hargs. congruence.
    + inversion Hargs; congruence.
  - inversion H; congruence.
Qed.

Lemma mapV_fragmentID {A B} (f : A -> Visit B) (l : list A) :
  (forall x s y s', f x s = inr (y, s') -> fragmentID s' = fragmentID s) ->
  forall s r s', mapV f l s = inr (r, s') -> fragmentID s' = fragmentID s.
Proof.
  intros Hf. induction l as [| x rest IH]; simpl; intros s r s' H.
  - inversion H; reflexivity.
  - inv_then H as y s0 Hy. inv_then H as ys s1 Hys. inversion H; subst.
    apply Hf in Hy. apply IH in Hys. congruence.
Qed.

Lemma visitDirectives_fragmentID directives s r s' :
  visitDirectives directives s = inr (r, s') ->
  fragmentID s' = fragmentID s.
Proof.
  unfold visitDirectives. intros H. inv_then H as ds s0 Hds.
  inversion H; subst.
  eapply mapV_fragmentID; [| exact Hds].
  intros x s1 y s2. apply visitDirective_fragmentID.
Qed.

Lemma fragmentArguments_fragmentID args :
  forall object s r s',
    visitors.fragmentArguments args object s = inr (r, s') ->
    fragmentID s' = fragmentID s.
Proof.
  induction args as [| arg rest IH]; simpl; intros object s r s' H.
  - inversion H; reflexivity.
  - inv_then H as u s0 Hrec.
    assert (Hs0 : fragmentID s0 = fragmentID s).
    { destruct (argumentValue arg); inversion Hrec; reflexivity. }
    destruct (convertArgument arg) as [e | [name ast]]; [discriminate |].
    apply IH in H. congruence.
Qed.

(** What the [FragmentSpread] visitor returns when it returns: the
    rewritten spread and the counter. *)
Lemma FragmentSpread_slot name directives s node s' :
  visitors.FragmentSpread name directives s = inr (node, s') ->
  [node] = map (fun slot => FragmentSpreadNode (fst slot) (snd slot))
               (expectedSlots (fragmentID s) [(name, directives)])
  /\ fragmentID s'
     = fragmentID s + length (filter hasArguments [(name, directives)]).
Proof.
  unfold visitors.FragmentSpread. intros H.
  inv_then H as r s0 Hr. destruct r as [[substitutionName ast] masked].
  destruct (String.eqb substitutionName ""); [discriminate |].
  inv_then H as u s1 Hmod. inversion Hmod; inversion H; subst; clear H Hmod.
  simpl fragmentID.
  destruct directives as [[| directive others] |]; simpl in *.
  - inversion Hr; subst. split; [reflexivity | lia].
  - destruct others as [| d2 others]; [| discriminate]. simpl in Hr.
    unfold hasArguments; simpl.
    destruct (String.eqb (dName directive) "arguments").
    + inv_then Hr as object s2 Hargs. inv_then Hr as u s3 Hmod.
      inv_then Hr as st s4 Hget. inversion Hmod; inversion Hget;
        inversion Hr; subst; clear Hmod Hget Hr. simpl.
      assert (Hid : fragmentID s2 = fragmentID s).
      { destruct (dArguments directive).
        - apply fragmentArguments_fragmentID in Hargs. exact Hargs.
        - inversion Hargs; reflexivity. }
      rewrite Hid. split; [reflexivity | lia].
    + destruct (String.eqb (dName directive) "relay"); [| discriminate].
      destruct (dArguments directive) as [[| mask [| m2 ms]] |];
        try discriminate.
      destruct (String.eqb (argumentName mask) "mask"); [| discriminate].
      inversion Hr; subst. simpl. split; [reflexivity | lia].
  - inversion Hr; subst. split; [reflexivity | lia].
Qed.

Lemma expectedSlots_app n a b :
  expectedSlots n (a ++ b)
  = expectedSlots n a
    ++ expectedSlots (n + length (filter hasArguments a)) b.
Proof.
  revert n; induction a as [| x a IH]; simpl; intros n.
  - rewrite Nat.add_0_r; reflexivity.
  - destruct (hasArguments x); simpl; rewrite IH.
    + replace (S n + length (filter hasArguments a))
        with (n + S (length (filter hasArguments a))) by lia.
      reflexivity.
    + reflexivity.
Qed.

Section SelectionInduction.
Variable P : SelectionNode -> Prop.
Hypothesis field_case :
  forall alias name arguments directives selectionSet,
    Forall P selectionSet ->
    P (FieldNode alias name arguments directives selectionSet).
Hypothesis spread_case :
  forall name directives, P (FragmentSpreadNode name directives).
Hypothesis inline_case :
  forall typeCondition directives selectionSet,
    Forall P selectionSet ->
    P (InlineFragmentNode typeCondition directives selectionSet).

Lemma SelectionNode_nested_ind : forall selection, P selection.
Proof.
  fix IH 1. intros [alias name arguments directives selectionSet
                   | name directives
                   | typeCondition directives selectionSet].
  - apply field_case.
    induction selectionSet as [| s rest IHrest]; constructor;
      [apply IH | exact IHrest].
  - apply spread_case.
  - apply inline_case.
    induction selectionSet as [| s rest IHrest]; constructor;
      [apply IH | exact IHrest].
Qed.
End SelectionInduction.


Lemma mapV_slots (selections : list SelectionNode) :
  Forall slotsAsExpected selections ->
  forall s selections' s',
    mapV visitSelection selections s = inr (selections', s') ->
    flat_map spreadsOfSelection selections'
    = expectedSlots (fragmentID s) (flat_map spreadsOfSelection selections)
    /\ fragmentID s'
       = fragmentID s
         + length (filter hasArguments
                          (flat_map spreadsOfSelection selections)).
Proof.
  induction 1 as [| x rest Hx _ IH]; simpl; intros s selections' s' H.
  - inversion H; subst. split; [reflexivity | lia].
  - inv_then H as y s0 Hy. inv_then H as ys s1 Hys. inversion H; subst.
    destruct (Hx _ _ _ Hy) as (Hspreads & Hid).
    destruct (IH _ _ _ Hys) as (Hrest & Hid').
    simpl. rewrite expectedSlots_app, filter_app, length_app.
    rewrite Hspreads, Hrest, Hid. split; [reflexivity | lia].
Qed.

Lemma visitSelection_slots selection : slotsAsExpected selection.
Proof.
  induction selection
    as [alias name arguments directives selectionSet IH
       | name directives
       | typeCondition directives selectionSet IH]
         using SelectionNode_nested_ind;
    unfold slotsAsExpected; simpl; intros s selection' s' H.
  - inv_then H as u s0 Hargs. inv_then H as ds s1 Hds.
    inv_then H as sels s2 Hsels. inversion H; subst. simpl.
    apply visitArguments_fragmentID in Hargs.
    apply visitDirectives_fragmentID in Hds.
    destruct (mapV_slots IH _ Hsels) as (Hspreads & Hid).
    rewrite Hspreads, Hid. split; congruence.
  - apply FragmentSpread_slot in H. destruct H as (Hnode & Hid).
    split; [| exact Hid].
    simpl in Hnode. unfold expectedSlots.
    destruct (hasArguments (name, directives));
      inversion Hnode; reflexivity.
  - inv_then H as ds s1 Hds.
    inv_then H as sels s2 Hsels. inversion H; subst. simpl.
    apply visitDirectives_fragmentID in Hds.
    destruct (mapV_slots IH _ Hsels) as (Hspreads & Hid).
    rewrite Hspreads, Hid. split; congruence.
Qed.

Lemma expectedSlots_nth n spreads i spread :
  nth_error spreads i = Some spread ->
  nth_error (expectedSlots n spreads) i
  = Some (if hasArguments spread
          then ((fst spread ++ "_args"
                 ++ showNat (n + length (filter hasArguments
                                                (firstn (S i) spreads))))%string,
                Some [])
          else (fst spread, Some [])).
Proof.
  revert n i. induction spreads as [| x rest IH]; intros n i H.
  - destruct i; discriminate.
  - destruct i as [| i].
    + inversion H; subst. simpl.
      destruct (hasArguments spread); simpl; [| reflexivity].
      rewrite Nat.add_1_r. reflexivity.
    + simpl in H. cbn [expectedSlots].
      change (firstn (S (S i)) (x :: rest)) with (x :: firstn (S i) rest).
      cbn [filter].
      destruct (hasArguments x); cbn [nth_error length];
        rewrite (IH _ _ H); [| reflexivity].
      replace (S n + length (filter hasArguments (firstn (S i) rest)))
        with (n + S (length (filter hasArguments (firstn (S i) rest))))
        by lia.
      reflexivity.
Qed.

Lemma expectedSlots_length n spreads :
  length (expectedSlots n spreads) = length spreads.
Proof.
  revert n; induction spreads as [| x rest IH]; simpl; intros n;
    [reflexivity |].
  destruct (hasArguments x); simpl; rewrite IH; reflexivity.
Qed.

(** C2 (amended).  In the rewritten definition the spreads are those of
    the source, in the same order.  A spread that carries [@arguments]
    is renamed [<fragment>_args<N>], where N counts the spreads with
    [@arguments] of the whole definition up to and including this one, in
    document order and whatever fragment they name: one counter serves all
    fragments, so the first [@arguments] spread of a fragment is
    [<fragment>_args1] only if no [@arguments] spread of any fragment
    comes before it.  A spread without [@arguments] keeps its name. *)
Theorem arguments_slots_share_one_counter definition result :
  createClassicAST definition = inr result ->
  length (spreadsOf (classicAST result)) = length (spreadsOf definition)
  /\ forall i spread,
      nth_error (spreadsOf definition) i = Some spread ->
      nth_error (spreadsOf (classicAST result)) i
      = Some (if hasArguments spread
              then ((fst spread ++ "_args"
                     ++ showNat
                          (length (filter hasArguments
                                          (firstn (S i)
                                                  (spreadsOf definition)))))%string,
                    Some [])
              else (fst spread, Some [])).
Proof.
  unfold createClassicAST. intros H.
  destruct (visit definition initialState) as [e | [ast s]] eqn:Hvisit;
    [discriminate |].
  inversion H; subst result; clear H. simpl classicAST.
  assert (Hslots : spreadsOf ast = expectedSlots 0 (spreadsOf definition)).
  { destruct definition as [operation name vds directives selections
                           | name typeCondition directives selections];
      simpl in Hvisit.
    - inv_then Hvisit as vds' s0 Hvds. inv_then Hvisit as ds s1 Hds.
      inv_then Hvisit as sels s2 Hsels. inversion Hvisit; subst.
      unfold spreadsOf; simpl.
      assert (Hid : fragmentID s1 = 0).
      { apply visitDirectives_fragmentID in Hds. rewrite Hds.
        change 0 with (fragmentID initialState).
        revert Hvds. apply mapV_fragmentID.
        intros vd sa vd' sb Hvd. unfold visitVariableDefinition in Hvd.
        inv_then Hvd as u1 sa1 H1. inv_then Hvd as u2 sa2 H2.
        inv_then Hvd as ds' sa3 H3. inversion Hvd; subst.
        apply recordVariable_fragmentID in H1.
        apply visitDirectives_fragmentID in H3.
        assert (fragmentID sa2 = fragmentID sa1).
        { destruct (vdDefaultValue vd).
          - eapply visitValue_fragmentID; exact H2.
          - inversion H2; reflexivity. }
        unfold visitors.Variable_ in *. congruence. }
      assert (Hall : Forall slotsAsExpected selections).
      { apply Forall_forall. intros x _. apply visitSelection_slots. }
      destruct (mapV_slots Hall _ Hsels) as (Hspreads & _).
      rewrite Hspreads, Hid. reflexivity.
    - inv_then Hvisit as ds s1 Hds.
      inv_then Hvisit as sels s2 Hsels. inversion Hvisit; subst.
      unfold spreadsOf; simpl.
      apply visitDirectives_fragmentID in Hds.
      assert (Hall : Forall slotsAsExpected selections).
      { apply Forall_forall. intros x _. apply visitSelection_slots. }
      destruct (mapV_slots Hall _ Hsels) as (Hspreads & _).
      rewrite Hspreads, Hds. reflexivity. }
  rewrite Hslots. split; [apply expectedSlots_length |].
  intros i spread Hnth. rewrite (expectedSlots_nth 0 _ _ Hnth). reflexivity.
Qed.

(** Normalising a spread of a fragment whose name is neither empty nor
    [__proto__]: without directives the slot is named after the fragment
    and is masked; with the one directive [@relay(mask: v)] the slot is
    named after the fragment and is masked unless [v] is the boolean
    [false], so for a boolean the mask is the boolean supplied; in both
    cases the spread keeps its name and loses its directives, and the
    slot is assigned under that name in [fragments], nothing else of the
    state being changed.  [@relay] with any other argument list is an
    error; a single directive that is neither [@arguments] nor [@relay]
    is an error ([UnsupportedSpreadDirective]); more than one directive
    is an error ([ConflictingSpreadDirectives]).  A single [@arguments]
    directive is not an error of this kind: when the spread is accepted
    it is renamed [<fragment>_args<N>]. *)
Theorem fragment_spread_normalised (fragmentName : string)
    (s : NormalizerState) :
  fragmentName <> "" ->
  fragmentName <> "__proto__" ->
  let plain (masked : bool)
        : ClassicError + (SelectionNode * NormalizerState) :=
    inr (FragmentSpreadNode fragmentName (Some []),
         {| fragmentID := fragmentID s;
            fragments :=
              assign (fragments s) fragmentName
                     {| slotFragment := fragmentName;
                        isMasked := masked;
                        slotArgs := None |};
            variables := variables s;
            variablesInherit := variablesInherit s;
            argumentDefinitions := argumentDefinitions s |}) in
  let relay args := {| dName := "relay"; dArguments := args |} in
  let mask value := {| argumentName := "mask"; argumentValue := value |} in
  visitors.FragmentSpread fragmentName None s = plain true
  /\ visitors.FragmentSpread fragmentName (Some []) s = plain true
  /\ (forall value,
         visitors.FragmentSpread fragmentName
                                 (Some [relay (Some [mask value])]) s
         = plain match value with
                 | BooleanValue false => false
                 | _ => true
                 end)
  /\ (forall b,
         visitors.FragmentSpread
           fragmentName (Some [relay (Some [mask (BooleanValue b)])]) s
         = plain b)
  /\ (forall args,
         (forall value, args <> Some [mask value]) ->
         exists e,
           visitors.FragmentSpread fragmentName (Some [relay args]) s
           = inl e)
  /\ (forall directive,
         dName directive <> "arguments" -> dName directive <> "relay" ->
         visitors.FragmentSpread fragmentName (Some [directive]) s
         = inl (UnsupportedSpreadDirective (dName directive) fragmentName))
  /\ (forall first second others,
         visitors.FragmentSpread fragmentName
                                 (Some (first :: second :: others)) s
         = inl ConflictingSpreadDirectives)
  /\ (forall directive node s',
         dName directive = "arguments" ->
         visitors.FragmentSpread fragmentName (Some [directive]) s
         = inr (node, s') ->
         node = FragmentSpreadNode
                  (fragmentName ++ "_args" ++ showNat (S (fragmentID s)))
                  (Some [])).
Proof.
  intros Hname Hproto plain relay mask.
  apply String.eqb_neq in Hname, Hproto.
  assert (Hplain : forall masked,
             andThen (ret (fragmentName, @None Printable, masked))
                     (fun r =>
                        let '(substitutionName, ast, isMasked) := r in
                        if String.eqb substitutionName ""
                        then raise MissingSubstitutionName
                        else
                          modify (fun s =>
                                    storeSlot
                                      s substitutionName
                                      {| slotFragment := fragmentName;
                                         isMasked := isMasked;
                                         slotArgs := ast |}) ;;~
                          ret (FragmentSpreadNode substitutionName
                                                  (Some []))) s
             = plain masked).
  { intros masked. unfold andThen, ret. rewrite Hname.
    unfold plain, modify, storeSlot, assignObject. rewrite Hproto.
    reflexivity. }
  repeat match goal with |- _ /\ _ => split end.
  - apply Hplain.
  - apply Hplain.
  - intros value. unfold visitors.FragmentSpread. simpl.
    rewrite <- Hplain. reflexivity.
  - intros b. unfold visitors.FragmentSpread. simpl.
    rewrite <- Hplain. destruct b; reflexivity.
  - intros args Hargs. unfold visitors.FragmentSpread, andThen. simpl.
    destruct args as [[| a [| a2 rest]] |]; simpl; eauto.
    destruct (String.eqb (argumentName a) "mask") eqn:E; simpl; eauto.
    exfalso. apply (Hargs (argumentValue a)).
    apply String.eqb_eq in E. destruct a as [n v]. simpl in E. subst n.
    reflexivity.
  - intros directive Ha Hr. unfold visitors.FragmentSpread, andThen. simpl.
    apply String.eqb_neq in Ha, Hr. rewrite Ha, Hr. reflexivity.
  - intros first second others. reflexivity.
  - intros directive node s' Hd H.
    apply FragmentSpread_slot in H. destruct H as (Hnode & _).
    unfold expectedSlots, hasArguments in Hnode. simpl in Hnode.
    rewrite Hd in Hnode. simpl in Hnode. inversion Hnode. reflexivity.
Qed.

(** C9, on the code: a spread of the fragment named [__proto__], without
    directives or with [@relay(mask: v)], is accepted and keeps its name,
    but no slot is stored for it: [fragments] is a plain object, and
    assigning the slot object to its key [__proto__] replaces the
    prototype of [fragments] instead of adding a key.  The state is left
    as it was, so the classic AST of [fragment F on User { ...__proto__ }]
    comes with an empty [fragments]; a spread of [Foo] in the same place
    gets the slot [Foo], masked. *)
Theorem proto_spread_has_no_slot :
  (forall s,
      visitors.FragmentSpread "__proto__" None s
      = inr (FragmentSpreadNode "__proto__" (Some []), s))
  /\ (forall s value,
         visitors.FragmentSpread
           "__proto__"
           (Some [{| dName := "relay";
                     dArguments :=
                       Some [{| argumentName := "mask";
                                argumentValue := value |}] |}]) s
         = inr (FragmentSpreadNode "__proto__" (Some []), s))
  /\ createClassicAST
       (FragmentDefinition "F" "User" []
                           [FragmentSpreadNode "__proto__" None])
     = inr {| classicAST :=
                FragmentDefinition
                  "F" "User" []
                  [FragmentSpreadNode "__proto__" (Some [])];
              ca_fragments := [];
              ca_variables := [];
              ca_argumentDefinitions := None |}
  /\ createClassicAST
       (FragmentDefinition "F" "User" [] [FragmentSpreadNode "Foo" None])
     = inr {| classicAST :=
                FragmentDefinition "F" "User" []
                                   [FragmentSpreadNode "Foo" (Some [])];
              ca_fragments :=
                [("Foo", {| slotFragment := "Foo";
                            isMasked := true;
                            slotArgs := None |})];
              ca_variables := [];
              ca_argumentDefinitions := None |}.
Proof.
  split; [| split; [| split]].
  - intros [n fs vs inherit defs]. reflexivity.
  - intros [n fs vs inherit defs] value. reflexivity.
  - reflexivity.
  - reflexivity.
Qed.

(** ** Instances on the sample schema and documents *)

Section Instances.
Import Sample Documents Spreads.

(** C1, counterexample: on the field
    [node(id: 4) @relay(isAbstract: false) { __typename }] of the
    abstract type [Node] the directive supplies [isAbstract: false], the
    printer computes [isAbstract: true], and the printed metadata object
    has [isAbstract] true: the directive's value does not override the
    computed one. *)
Lemma directive_value_does_not_override :
  exists node,
    printer_printField 10 nodeNotAbstract root [] [] false = Ok node
    /\ RelayQLPrinter.relayScalars (OfField nodeNotAbstract)
       = [("isAbstract", FalseKeyword)]
    /\ printedMetadata node
       = [("isAbstract", FalseKeyword);
          ("canHaveSubselections", TrueKeyword);
          ("inferredRootCallName", StringLiteral "node");
          ("inferredPrimaryKey", StringLiteral "id");
          ("isAbstract", TrueKeyword)]
    /\ propertyValue "isAbstract" (printedMetadata node)
       <> Some FalseKeyword.
Proof.
  eexists. split; [vm_compute; reflexivity |].
  split; [reflexivity |]. split; [reflexivity |].
  vm_compute. discriminate.
Qed.

(** C1 on the same field: the computed [isAbstract] is the value of the
    printed metadata object. *)
Lemma computed_metadata_overrides_directive_witness :
  exists node,
    printer_printField 10 nodeNotAbstract root [] [] false = Ok node
    /\ propertyValue "isAbstract" (printedMetadata node) = Some TrueKeyword.
Proof.
  eexists. split; [vm_compute; reflexivity |].
  refine (proj2 (proj2 (proj1 (computed_metadata_overrides_directive
                                 schema "id" options tag [])
                              10 nodeNotAbstract root [] [] false _ _)) _).
  - vm_compute; reflexivity.
  - reflexivity.
Defined.

(** C2, counterexample: in
    [fragment F on User { ...Foo @arguments(x: $y)
    ...Bar @arguments(x: $y) friends { ...Foo @arguments(x: $y) } ...Baz }]
    the first [@arguments] spread of [Bar] becomes [Bar_args2], not
    [Bar_args1], and the second one of [Foo] becomes [Foo_args3]. *)
Lemma different_fragments_share_the_counter :
  exists result,
    createClassicAST threeSpreads = inr result
    /\ map fst (spreadsOf (classicAST result))
       = ["Foo_args1"; "Bar_args2"; "Foo_args3"; "Baz"]
    /\ nth_error (map fst (spreadsOf (classicAST result))) 1
       <> Some "Bar_args1".
Proof.
  eexists. split; [vm_compute; reflexivity |].
  split; [reflexivity | vm_compute; discriminate].
Qed.

(** C2 on the same fragment: the second spread with [@arguments] of the
    definition is numbered 2. *)
Lemma arguments_slots_share_one_counter_witness :
  exists result,
    createClassicAST threeSpreads = inr result
    /\ nth_error (spreadsOf (classicAST result)) 1
       = Some ("Bar_args2", Some []).
Proof.
  eexists. split; [vm_compute; reflexivity |].
  refine (proj2 (arguments_slots_share_one_counter threeSpreads _)
                1 ("Bar", Some [arguments [xIsY]]) _).
  - vm_compute; reflexivity.
  - reflexivity.
Defined.

(** C3, counterexample: [acquaintances(first: 10) { edges }] has a
    connection type that declares no [pageInfo] field; [edges] is
    requested and no [pageInfo] is printed. *)
Lemma connection_without_pageInfo_prints_none :
  isConnection schema (fieldType acquaintancesField) = true
  /\ existsb (fun field => String.eqb (fieldName field) "edges")
             [edgesField] = true
  /\ exists printed,
      printer_printFields 10 [edgesField] (OfField acquaintancesField)
                          [] false = Ok printed
      /\ map printedFieldName printed = [Some "edges"]
      /\ countName "pageInfo" (map printedFieldName printed) = 0.
Proof.
  split; [reflexivity |]. split; [reflexivity |].
  eexists. split; [vm_compute; reflexivity |].
  split; reflexivity.
Qed.

(** C3 on [friends(first: 10) { edges }], whose connection type declares
    [pageInfo]: it is printed once. *)
Lemma connection_edges_pageInfo_witness :
  exists printed,
    printer_printFields 10 [edgesField] (OfField friendsField) [] false
    = Ok printed
    /\ countName "pageInfo" (map printedFieldName printed) = 1.
Proof.
  eexists. split; [vm_compute; reflexivity |].
  edestruct (@connection_edges_pageInfo
               Ty schema "id" options tag [] 10 [edgesField]
               (OfField friendsField) [] false)
    as (requested & generatedPart & _ & _ & _ & Hdeclared & _);
    [ intros; reflexivity | constructor | reflexivity | reflexivity
    | vm_compute; reflexivity | ].
  destruct (Hdeclared eq_refl) as (_ & Htotal). exact Htotal.
Defined.

(** C4, counterexample: [query Q { node(id: 4) { __typename
    kind: __typename } }] on the abstract type [Node] prints
    [__typename] twice. *)
Lemma typename_requested_twice_is_printed_twice :
  isAbstract schema Node = true
  /\ exists node,
      printer_printQuery
        10 (nodeQuery [SelField typenameField;
                       SelField aliasedTypenameField]) true = Ok node
      /\ map printedFieldName (printedChildren node)
         = [Some "__typename"; Some "__typename"; Some "id"]
      /\ countName "__typename" (map printedFieldName (printedChildren node))
         = 2.
Proof.
  split; [reflexivity |].
  eexists. split; [vm_compute; reflexivity |].
  split; reflexivity.
Qed.

(** C4 on [query Q { node(id: 4) }]: [__typename] is generated once. *)
Lemma typename_requisite_once_witness :
  exists node,
    printer_printQuery 10 (nodeQuery []) true = Ok node
    /\ countName "__typename" (map printedFieldName (printedChildren node))
       = 1.
Proof.
  eexists. split; [vm_compute; reflexivity |].
  edestruct (proj1 (@typename_requisite_once
                      Ty schema "id" options tag []
                      (fun _ _ => eq_refl))
                   10 (nodeQuery []) true (nodeField [] []) [])
    as (requested & others & _ & _ & _ & _ & Htotal);
    [ reflexivity | reflexivity | vm_compute; reflexivity | exact Htotal ].
Defined.

(** C5 on the two examples of the specification. *)
Example first_last_literals_conflict :
  RelayQLPrinter.validateConnectionField schema options friendsLiterals
  = Throw (ConflictingPaginationArguments FirstLast "friends").
Proof. reflexivity. Qed.

Example first_last_variables_pass :
  RelayQLPrinter.validateConnectionField schema options friendsVariables
  = Ok tt.
Proof. reflexivity. Qed.

(** C6 on a query with two root fields. *)
Lemma root_field_count_checked_when_enabled_witness :
  length (getFields twoRootFields) <> 1
  /\ printer_printQuery 10 twoRootFields true
     = Throw (TooManyRootFields KQuery 2 "Two").
Proof.
  assert (H : length (getFields twoRootFields) <> 1)
    by (simpl; discriminate).
  split; [exact H |].
  exact (proj1 (proj1 (root_field_count_checked_when_enabled
                         schema "id" options tag [] 10 twoRootFields H))).
Defined.

(** C7, counterexample: the printer is created with a substitution
    variable named [input]; the root field of
    [mutation Rename { rename(input: $input) { clientMutationId } }]
    declares exactly the argument [input], and the value of the printed
    Call is the reference [RelayQL_GENERATED.__var(input)], not a
    CallVariable. *)
Lemma input_call_can_be_a_substitution_reference :
  map fst (fieldDeclaredArguments renameField) = ["input"]
  /\ exists node call,
      RelayQLPrinter.printMutation schema "id" options tag ["input"] 10
                                   renameMutation true = Ok node
      /\ propertyValue "calls" (propertiesOf node)
         = Some (ArrayLiteralExpression [call])
      /\ propertyValue "name" (propertiesOf call)
         = Some (StringLiteral "rename")
      /\ propertyValue "value" (propertiesOf call)
         = Some (CallExpression
                   (PropertyAccessExpression
                      (Identifier "RelayQL_GENERATED") "__var")
                   [Identifier "input"])
      /\ propertyValue "value" (propertiesOf call)
         <> Some (ObjectLiteralExpression
                    [("kind", StringLiteral "CallVariable");
                     ("callVariableName", StringLiteral "input")]).
Proof.
  split; [reflexivity |].
  eexists. eexists. split; [vm_compute; reflexivity |].
  split; [vm_compute; reflexivity |].
  split; [reflexivity |]. split; [reflexivity |].
  vm_compute. discriminate.
Qed.

(** C7 on the same mutation, printed by a printer without substitution
    variables. *)
Lemma mutation_input_shape_witness :
  exists node,
    RelayQLPrinter.printMutation schema "id" options tag [] 10
                                 renameMutation true = Ok node
    /\ propertyValue "calls" (propertiesOf node)
       = Some (ArrayLiteralExpression
                 [ObjectLiteralExpression
                    [("kind", StringLiteral "Call");
                     ("metadata", ObjectLiteralExpression []);
                     ("name", StringLiteral "rename");
                     ("value",
                      ObjectLiteralExpression
                        [("kind", StringLiteral "CallVariable");
                         ("callVariableName", StringLiteral "input")])]]).
Proof.
  eexists. split; [vm_compute; reflexivity |].
  refine (proj1 (proj2 (proj2
                   (proj2 (proj2 (proj2
                      (@mutation_input_shape
                         Ty schema "id" options tag [] 10 renameMutation
                         true renameField [] eq_refl (or_intror eq_refl))))
                      _ _)))).
  vm_compute; reflexivity.
Defined.


(** On [...Foo @relay(mask: false)]: the slot [Foo] is not masked. *)
Lemma fragment_spread_normalised_witness :
  "Foo"%string <> ""%string
  /\ "Foo"%string <> "__proto__"%string
  /\ visitors.FragmentSpread "Foo" (Some [mask (BooleanValue false)])
                             initialState
     = inr (FragmentSpreadNode "Foo" (Some []),
            {| fragmentID := 0;
               fragments := [("Foo", {| slotFragment := "Foo";
                                        isMasked := false;
                                        slotArgs := None |})];
               variables := [];
               variablesInherit := true;
               argumentDefinitions := None |}).
Proof.
  assert (H : "Foo"%string <> ""%string) by discriminate.
  assert (H' : "Foo"%string <> "__proto__"%string) by discriminate.
  split; [exact H |]. split; [exact H' |].
  exact (proj1 (proj2 (proj2 (proj2
           (fragment_spread_normalised initialState H H')))) false).
Defined.



End Instances.

(** ** Further properties of the printer *)

Section PrinterMore.
Variable RelayQLType : Type.
Variable schema : SchemaFacade RelayQLType.
Variable ID : string.
Variable options : PrinterOptions.
Variable tagName : string.
Variable variableNames : KeySet.

Local Abbreviation Field := (RelayQLField RelayQLType).
Local Abbreviation Fragment := (RelayQLFragment RelayQLType).
Local Abbreviation Node := (FieldOrFragment RelayQLType).
Local Abbreviation FIELDS := (RelayQLPrinter.FIELDS options).
Local Abbreviation printSelections :=
  (RelayQLPrinter.printSelections schema ID options tagName variableNames).
Local Abbreviation printFields :=
  (RelayQLPrinter.printFields schema ID options tagName variableNames).
Local Abbreviation printField :=
  (RelayQLPrinter.printField schema ID options tagName variableNames).
Local Abbreviation printFragment :=
  (RelayQLPrinter.printFragment schema ID options tagName variableNames).
Local Abbreviation printQuery :=
  (RelayQLPrinter.printQuery schema ID options tagName variableNames).
Local Abbreviation printMutation :=
  (RelayQLPrinter.printMutation schema ID options tagName variableNames).
Local Abbreviation printSubscription :=
  (RelayQLPrinter.printSubscription schema ID options tagName variableNames).
Local Abbreviation printVariable :=
  (RelayQLPrinter.printVariable tagName variableNames).
Local Abbreviation printArgumentValue :=
  (RelayQLPrinter.printArgumentValue tagName variableNames).
Local Abbreviation printArgument :=
  (RelayQLPrinter.printArgument tagName variableNames).
Local Abbreviation printDirectives :=
  (RelayQLPrinter.printDirectives tagName variableNames).
Local Abbreviation validateField :=
  (RelayQLPrinter.validateField schema ID).
Local Abbreviation validateConnectionField :=
  (RelayQLPrinter.validateConnectionField schema options).
Local Abbreviation forEachRecursiveField :=
  (@RelayQLPrinter.forEachRecursiveField RelayQLType).
Local Abbreviation fieldMetadata :=
  (RelayQLPrinter.fieldMetadata schema ID).
Local Abbreviation fieldRequisites :=
  (RelayQLPrinter.fieldRequisites schema ID options).
Local Abbreviation idFragmentOf :=
  (RelayQLPrinter.idFragmentOf schema ID).

(** *** Traversal of the validator *)

Lemma forEachM_app {A} (g : A -> result unit) (a b : list A) :
  forEachM g (a ++ b) = (forEachM g a ;;; forEachM g b).
Proof.
  induction a as [| x a IH]; simpl; [reflexivity |].
  rewrite IH. destruct (g x); reflexivity.
Qed.

Lemma forEachM_flat_map {A B} (g : B -> result unit) (h : A -> list B)
      (k : A -> result unit) (l : list A) :
  Forall (fun x => k x = forEachM g (h x)) l ->
  forEachM k l = forEachM g (flat_map h l).
Proof.
  induction 1 as [| x l Hx _ IH]; simpl; [reflexivity |].
  rewrite forEachM_app, Hx, IH. reflexivity.
Qed.

Lemma forEachRecursiveSelection_flat (callback : Field -> result unit) :
  forall selection,
    RelayQLPrinter.forEachRecursiveSelection callback selection
    = forEachM callback (recursiveFieldsOf selection).
Proof.
  fix IH 1. intros [f | name ds | [n t d selections]]; simpl.
  - destruct (callback f) as [[] | |]; reflexivity.
  - reflexivity.
  - apply forEachM_flat_map.
    induction selections as [| s rest IHrest]; constructor;
      [apply IH | exact IHrest].
Qed.

(** [forEachRecursiveField] calls the callback on the fields of the
    parent and on those of its inline fragments, nested ones included, in
    document order; it does not look behind fragment spreads, and the
    first exception ends the traversal. *)
Theorem forEachRecursiveField_document_order
    (parent : Node) (callback : Field -> result unit) :
  forEachRecursiveField parent callback
  = forEachM callback (flat_map recursiveFieldsOf (getSelections parent)).
Proof.
  unfold RelayQLPrinter.forEachRecursiveField.
  apply forEachM_flat_map. apply Forall_forall. intros selection _.
  apply forEachRecursiveSelection_flat.
Qed.

Lemma forEachM_Ok {A} (g : A -> result unit) (l : list A) :
  forEachM g l = Ok tt <-> Forall (fun x => g x = Ok tt) l.
Proof.
  induction l as [| x l IH]; simpl.
  - split; [constructor | reflexivity].
  - split.
    + intros H. apply bind_Ok in H. destruct H as ([] & Hx & H).
      constructor; [exact Hx | apply IH; exact H].
    + intros H. inversion H; subst. rewrite H2. simpl. apply IH; assumption.
Qed.

(** [validateConnectionField] returns normally exactly when no pair of
    pagination arguments conflicts, the node type of the connection can
    be read off [edges { node }], and every field reachable through
    inline fragments is acceptable: [edges] and [pageInfo] only on a
    pattern or under an applied [find], [first] or [last], and no other
    field that is a list of the connection's node type. *)
Theorem validateConnectionField_accepts (field : Field) :
  validateConnectionField field = Ok tt
  <-> (forbiddenPair (findArgument field "first")
                     (findArgument field "last")
       || forbiddenPair (findArgument field "before")
                        (findArgument field "first")
       || forbiddenPair (findArgument field "after")
                        (findArgument field "last")) = false
      /\ exists edgesType connectionNodeType,
          getFieldDefinition schema (fieldType field) (f_edges FIELDS)
          = Some edgesType
          /\ getFieldDefinition schema edgesType (f_node FIELDS)
             = Some connectionNodeType
          /\ Forall
               (fun subfield =>
                  if (String.eqb (fieldName subfield) (f_edges FIELDS)
                      || String.eqb (fieldName subfield)
                                    (f_pageInfo FIELDS))%bool
                  then (isPattern field
                        || hasArgument field "find"
                        || hasArgument field "first"
                        || hasArgument field "last")%bool = true
                  else (isList schema (fieldType subfield)
                        && String.eqb
                             (getName schema (fieldType subfield) false)
                             (getName schema connectionNodeType false))%bool
                       = false)
               (flat_map recursiveFieldsOf (fieldSelections field)).
Proof.
  unfold RelayQLPrinter.validateConnectionField.
  rewrite !pairCondition_forbidden, !negb_involutive.
  assert (Hsym : forall x y, forbiddenPair x y = forbiddenPair y x).
  { intros [a |] [b |]; simpl; try reflexivity. apply orb_comm. }
  rewrite (Hsym (findArgument field "before")),
          (Hsym (findArgument field "after")).
  destruct (forbiddenPair (findArgument field "first")
                          (findArgument field "last")); cbn [orb negb].
  { split; [discriminate | intros [H _]; discriminate]. }
  destruct (forbiddenPair (findArgument field "first")
                          (findArgument field "before")); cbn [orb negb].
  { split; [discriminate | intros [H _]; discriminate]. }
  destruct (forbiddenPair (findArgument field "last")
                          (findArgument field "after")); cbn [orb negb].
  { split; [discriminate | intros [H _]; discriminate]. }
  destruct (getFieldDefinition schema (fieldType field) (f_edges FIELDS))
    as [edgesType |].
  2: { split; [discriminate | intros (_ & e & n & H & _); discriminate]. }
  destruct (getFieldDefinition schema edgesType (f_node FIELDS))
    as [nodeType |] eqn:Hnode.
  2: { split; [discriminate |].
       intros (_ & e & n & He & Hn & _). inversion He; subst e.
       congruence. }
  unfold RelayQLPrinter.forEachRecursiveField.
  erewrite forEachM_flat_map
    by (apply Forall_forall; intros selection _;
        apply forEachRecursiveSelection_flat).
  rewrite forEachM_Ok. simpl getSelections.
  split.
  - intros H. split; [reflexivity |].
    exists edgesType, nodeType.
    split; [reflexivity | split; [exact Hnode |]].
    revert H. apply Forall_impl. intros subfield.
    destruct (_ || _)%bool.
    + destruct (isPattern field || _ || _ || _)%bool;
        [reflexivity | discriminate].
    + destruct (_ && _)%bool; [discriminate | reflexivity].
  - intros (_ & e & n & He & Hn & H).
    inversion He; subst e. assert (n = nodeType) by congruence. subst n.
    revert H. apply Forall_impl. intros subfield.
    destruct (_ || _)%bool.
    + intros ->. reflexivity.
    + intros ->. reflexivity.
Qed.

(** *** Validation comes before printing *)

(** A field printed outside a generated query has passed the validators:
    [validateField] against the type of its parent and, for a connection
    field that declares [first] or [last], [validateConnectionField]. *)
Theorem printField_validated fuel (field : Field) (parent : Node)
      requisiteSiblings generatedSiblings node :
  printField fuel field parent requisiteSiblings generatedSiblings false
  = Ok node ->
  validateField field (getType parent) = Ok tt
  /\ (isConnection schema (fieldType field)
      && (hasDeclaredArgument field "first"
          || hasDeclaredArgument field "last") = true ->
      validateConnectionField field = Ok tt).
Proof.
  destruct fuel as [| fuel]; [discriminate |]. simpl. intros H.
  inv_bind H as u1 Hu1. inv_bind H as u2 Hu2. clear H.
  destruct u1, u2. split; [exact Hu1 |].
  intros Hc. rewrite Hc in Hu2. exact Hu2.
Qed.

(** The [node] root field, recognised by its single declared argument
    named [ID], is refused anywhere but directly under the query type:
    printing it under another type throws before anything is printed.
    A generated query is exempt. *)
Theorem printField_misplaced_node fuel (field : Field) (parent : Node)
      requisiteSiblings generatedSiblings :
  fieldName field = "node" ->
  map fst (fieldDeclaredArguments field) = [ID] ->
  isQueryType schema (getType parent) = false ->
  printField (S fuel) field parent requisiteSiblings generatedSiblings
             false
  = Throw (MisplacedNodeField (getName schema (getType parent) false))
  /\ validateField field (getType parent)
     = Throw (MisplacedNodeField (getName schema (getType parent) false)).
Proof.
  intros Hname Hargs Hquery.
  assert (Hv : validateField field (getType parent)
               = Throw (MisplacedNodeField
                          (getName schema (getType parent) false))).
  { unfold RelayQLPrinter.validateField.
    rewrite Hname, Hargs, Hquery. simpl. rewrite String.eqb_refl.
    reflexivity. }
  split; [| exact Hv].
  simpl. rewrite Hv. reflexivity.
Qed.

(** *** Arguments *)

Lemma printArgumentValue_returns :
  forall arg : RelayQLArgument,
  exists printed,
    printArgumentValue arg = Ok printed /\ isNULL printed = false.
Proof.
  fix IH 1. intros [name type value].
  destruct value as [v | elements | s | entries]; simpl.
  - eexists. split; [reflexivity |].
    unfold RelayQLPrinter.printVariable.
    destruct (hasOwnProperty variableNames v); reflexivity.
  - assert (Hl : exists l, mapM printArgumentValue elements = Ok l).
    { induction elements as [| a rest IHrest]; simpl.
      - eexists; reflexivity.
      - destruct (IH a) as (p & -> & _). destruct IHrest as (l & ->).
        eexists; reflexivity. }
    destruct Hl as (l & ->). eexists. split; reflexivity.
  - eexists. split; [reflexivity |]. reflexivity.
  - eexists. split; [reflexivity |]. reflexivity.
Qed.

(** What [printArgumentValue] returns is never the shared null.  A
    variable prints as the run-time reference [<tag>.__var(name)] when
    its name is a substitution variable of the printer and as a
    CallVariable object otherwise; a list value as an array literal with
    one printed element per item; a scalar as a CallValue object whose
    [callValue] is its literal, a fresh null for [null]; an object as a
    CallValue object whose [callValue] is the object literal of its
    entries. *)
Theorem printArgumentValue_shape (arg : RelayQLArgument) printed :
  printArgumentValue arg = Ok printed ->
  isNULL printed = false
  /\ match argValue arg with
     | ArgVariable name =>
         printed
         = if hasOwnProperty variableNames name
           then CallExpression
                  (PropertyAccessExpression (identify tagName) "__var")
                  [Identifier name]
           else ObjectLiteralExpression
                  [("kind", StringLiteral "CallVariable");
                   ("callVariableName", StringLiteral name)]
     | ArgArray elements =>
         exists items,
           printed = ArrayLiteralExpression items
           /\ Forall2 (fun element item =>
                         printArgumentValue element = Ok item)
                      elements items
     | ArgScalar value =>
         printed
         = ObjectLiteralExpression
             [("kind", StringLiteral "CallValue");
              ("callValue",
               match value with
               | SNull => NullKeyword false
               | SBool true => TrueKeyword
               | SBool false => FalseKeyword
               | SNum n => NumericLiteral n
               | SStr text => StringLiteral text
               end)]
     | ArgObject entries =>
         printed
         = ObjectLiteralExpression
             [("kind", StringLiteral "CallValue");
              ("callValue",
               ObjectLiteralExpression
                 (map (fun kv => (fst kv, printLiteralValue (snd kv)))
                      entries))]
     end.
Proof.
  intros H.
  destruct (printArgumentValue_returns arg) as (printed' & H' & Hn).
  assert (printed' = printed) by congruence. subst printed'. clear H'.
  split; [exact Hn |].
  destruct arg as [name type value].
  destruct value as [v | elements | s | entries]; simpl in *.
  - inversion H; subst printed. unfold RelayQLPrinter.printVariable.
    destruct (hasOwnProperty variableNames v); reflexivity.
  - inv_bind H as items Hitems. inversion H; subst printed.
    exists items. split; [reflexivity |].
    apply mapM_Forall2. exact Hitems.
  - inversion H; subst printed. unfold codify. cbn [filter snd].
    destruct s as [| [] | n | str]; reflexivity.
  - inversion H; subst printed. reflexivity.
Qed.

(** A printed argument always has the four properties [kind],
    [metadata], [name] and [value]; its metadata holds the name of the
    argument type unless the type is Boolean, ID or String, the types the
    run time may inline. *)
Theorem printArgument_shape (arg : RelayQLArgument) :
  exists value,
    printArgumentValue arg = Ok value
    /\ printArgument arg
       = Ok (ObjectLiteralExpression
               [("kind", StringLiteral "Call");
                ("metadata",
                 ObjectLiteralExpression
                   (if isBoolean (argType arg) || isID (argType arg)
                       || isString (argType arg)
                       || String.eqb (argTypeName (argType arg)) ""
                    then []
                    else [("type",
                           StringLiteral (argTypeName (argType arg)))]));
                ("name", StringLiteral (argName arg));
                ("value", value)]).
Proof.
  destruct (printArgumentValue_returns arg) as (value & H & Hn).
  exists value. split; [exact H |].
  unfold RelayQLPrinter.printArgument. rewrite H. simpl.
  unfold codify. cbn [filter snd]. rewrite Hn. simpl.
  unfold RelayQLPrinter.printArgumentTypeForMetadata.
  destruct (isBoolean (argType arg) || isID (argType arg)
            || isString (argType arg))%bool; simpl; [reflexivity |].
  destruct (String.eqb (argTypeName (argType arg)) "") eqn:E;
    unfold objectify; simpl; rewrite ?E; reflexivity.
Qed.

(** *** Directives *)

(** What [printDirectives] returns holds the directives other than
    [@relay], in order, each as an object with its name and its
    arguments, every argument with its name and printed value; when no
    directive is left the result is the shared null, and an array
    literal otherwise. *)
Theorem printDirectives_all_but_relay
    (directives : list RelayQLDirective) printed :
  printDirectives directives = Ok printed ->
  exists nodes,
    printed = match nodes with
              | [] => NullKeyword true
              | _ => ArrayLiteralExpression nodes
              end
    /\ Forall2
         (fun directive node =>
            exists args,
              node = ObjectLiteralExpression
                       [("kind", StringLiteral "Directive");
                        ("name", StringLiteral (directiveName directive));
                        ("args", ArrayLiteralExpression args)]
              /\ Forall2
                   (fun arg printed =>
                      exists value,
                        printArgumentValue arg = Ok value
                        /\ printed
                           = ObjectLiteralExpression
                               [("name", StringLiteral (argName arg));
                                ("value", value)])
                   (directiveArguments directive) args)
         (filter (fun d => negb (String.eqb (directiveName d) "relay"))
                 directives)
         nodes.
Proof.
  unfold RelayQLPrinter.printDirectives. intros H.
  inv_bind H as nodes Hnodes.
  exists nodes. split.
  - destruct nodes; inversion H; reflexivity.
  - apply mapM_Forall2 in Hnodes. revert Hnodes.
    apply Forall2_impl. intros directive node Hnode.
    unfold RelayQLPrinter.printDirective in Hnode.
    inv_bind Hnode as args Hargs. inversion Hnode; subst node; clear Hnode.
    exists args. split; [reflexivity |].
    apply mapM_Forall2 in Hargs. revert Hargs.
    apply Forall2_impl. intros arg printedArg Harg.
    inv_bind Harg as value Hvalue. inversion Harg; subst printedArg.
    exists value. split; [exact Hvalue | reflexivity].
Qed.

(** *** The call of a query *)

(** A printed query has a root field with at most one applied argument.
    Without an argument the node has no [calls]; with one, [calls] holds
    a single Call whose metadata always names the type of the argument,
    Boolean, ID and String included, and the metadata of the query names
    the argument as the identifying one. *)
Theorem printQuery_root_call
    fuel (query : RelayQLOperation RelayQLType) enableValidation
    rootField rest node :
  getFields query = rootField :: rest ->
  printQuery fuel query enableValidation = Ok node ->
  match fieldArguments rootField with
  | [] =>
      propertyValue "calls" (propertiesOf node) = None
      /\ propertyValue "identifyingArgName" (printedMetadata node) = None
  | [identifyingArg] =>
      exists value,
        printArgumentValue identifyingArg = Ok value
        /\ propertyValue "calls" (propertiesOf node)
           = Some (ArrayLiteralExpression
                     [ObjectLiteralExpression
                        [("kind", StringLiteral "Call");
                         ("metadata",
                          objectify
                            [("type",
                              SStr (argTypeName (argType identifyingArg)))]);
                         ("name", StringLiteral (argName identifyingArg));
                         ("value", value)]])
        /\ (argName identifyingArg <> "" ->
            propertyValue "identifyingArgName" (printedMetadata node)
            = Some (StringLiteral (argName identifyingArg)))
  | _ => False
  end.
Proof.
  intros Hfields H. unfold RelayQLPrinter.printQuery in H.
  rewrite Hfields in H.
  destruct (negb _ && enableValidation)%bool; [discriminate |].
  inv_bind H as children Hsel.
  destruct (fieldArguments rootField) as [| arg [| arg' args]];
    cbn [length Nat.ltb Nat.leb] in H; [| | discriminate].
  - simpl in H. inv_bind H as directives Hdir.
    inversion H; subst node; clear H.
    unfold printedMetadata, codify, propertiesOf, objectify, RelayQLPrinter.flag.
    cbn [filter snd isNULL NULL negb].
    destruct (isNULL children), (isNULL directives),
      (isList schema (fieldType rootField)),
      (isAbstract schema (fieldType rootField));
      split; reflexivity.
  - simpl in H. inv_bind H as r Hr. inv_bind Hr as value Hvalue.
    inversion Hr; subst r; clear Hr.
    inv_bind H as directives Hdir. inversion H; subst node; clear H.
    exists value. split; [exact Hvalue |].
    assert (Hn : isNULL value = false).
    { destruct (printArgumentValue_returns arg) as (v & Hv & Hnull).
      congruence. }
    split.
    + unfold codify, propertiesOf. cbn [filter snd isNULL negb].
      rewrite Hn. cbn [negb].
      destruct (isNULL children), (isNULL directives); reflexivity.
    + intros Hname. apply String.eqb_neq in Hname.
      unfold printedMetadata, codify, propertiesOf, RelayQLPrinter.flag.
      cbn [filter snd isNULL negb].
      destruct (isNULL children), (isNULL directives),
        (isList schema (fieldType rootField)),
        (isAbstract schema (fieldType rootField));
        unfold objectify; simpl; rewrite Hname; simpl;
        destruct (String.eqb (argTypeName (argType arg)) "");
        reflexivity.
Qed.

(** *** Fragments with variables *)

(** A fragment whose [@relay] directive has a [variables] argument is
    printed only when that argument is a list none of whose items is a
    variable, and then as a call of [<tag>.__createFragment] on the
    fragment object and an object with one initialiser per item of the
    list, in order.  A string item [v] is the initialiser named [v],
    bound to the run-time reference [<tag>.__var(v)] when [v] is a
    substitution variable of the printer and to a CallVariable object
    otherwise.  An item that is not a string is handed on as it is: it
    is the name of its initialiser, and its value is the reference on the
    item itself when its string form is a substitution variable, and
    otherwise, for a scalar, the CallVariable object of its literal; an
    array or an object is printed only in the first case.  Without the
    argument the result is the fragment object itself. *)
Theorem printFragment_variables_wrapper fuel (fragment : Fragment) node :
  printFragment fuel fragment = Ok node ->
  match RelayQLPrinter.selectVariablesOf fragment with
  | None =>
      exists code,
        node = ObjectLiteralExpression code
        /\ propertyValue "kind" code = Some (StringLiteral "Fragment")
  | Some selectVariables =>
      exists items code initializers,
        argValue selectVariables = ArgArray items
        /\ node
           = CallExpression
               (PropertyAccessExpression (identify tagName)
                                         "__createFragment")
               [ObjectLiteralExpression code;
                match identifierNames initializers with
                | Some named => ObjectLiteralExpression named
                | None => RawObjectLiteralExpression initializers
                end]
        /\ propertyValue "kind" code = Some (StringLiteral "Fragment")
        /\ Forall2
             (fun item initializer =>
                match argValue item with
                | ArgVariable _ => False
                | ArgScalar (SStr v) =>
                    initializer
                    = (IdentifierName v,
                       if hasOwnProperty variableNames v
                       then CallExpression
                              (PropertyAccessExpression (identify tagName)
                                                        "__var")
                              [Identifier v]
                       else ObjectLiteralExpression
                              [("kind", StringLiteral "CallVariable");
                               ("callVariableName", StringLiteral v)])
                | ArgScalar v =>
                    initializer
                    = (RawName (ArgScalar v),
                       if hasOwnProperty variableNames
                                         (RelayQLPrinter.propertyKey (ArgScalar v))
                       then CallExpression
                              (PropertyAccessExpression (identify tagName)
                                                        "__var")
                              [RawIdentifier (ArgScalar v)]
                       else ObjectLiteralExpression
                              [("kind", StringLiteral "CallVariable");
                               ("callVariableName", createLiteral v)])
                | value =>
                    hasOwnProperty variableNames (RelayQLPrinter.propertyKey value) = true
                    /\ initializer
                       = (RawName value,
                          CallExpression
                            (PropertyAccessExpression (identify tagName)
                                                      "__var")
                            [RawIdentifier value])
                end)
             items initializers
        /\ ((forall item, In item items ->
                          exists v, argValue item = ArgScalar (SStr v)) ->
            identifierNames initializers
            = Some (map (fun item =>
                           match argValue item with
                           | ArgScalar (SStr v) =>
                               (v,
                                if hasOwnProperty variableNames v
                                then CallExpression
                                       (PropertyAccessExpression
                                          (identify tagName) "__var")
                                       [Identifier v]
                                else ObjectLiteralExpression
                                       [("kind",
                                         StringLiteral "CallVariable");
                                        ("callVariableName",
                                         StringLiteral v)])
                           | _ => ("", NullKeyword false)
                           end) items))
  end.
Proof.
  destruct fuel as [| fuel]; [discriminate |]. intros H. simpl in H.
  inv_bind H as children Hsel. inv_bind H as metadata Hmeta.
  inv_bind H as directives Hdir.
  apply printRelayDirectiveMetadata_spec in Hmeta.
  assert (Hm : isNULL metadata = false) by (rewrite Hmeta; reflexivity).
  clear Hmeta.
  match type of H with
  | context [codify ?l] =>
      assert (Hcode : exists code,
                 codify l = ObjectLiteralExpression code
                 /\ propertyValue "kind" code
                    = Some (StringLiteral "Fragment"))
  end.
  { eexists. split; [reflexivity |]. cbn [filter snd]. rewrite Hm.
    destruct (isNULL children), (isNULL directives); reflexivity. }
  destruct Hcode as (code & Hcode & Hkind). rewrite Hcode in H. clear Hcode.
  destruct (RelayQLPrinter.selectVariablesOf fragment) as [sv |].
  - destruct (argValue sv) as [| items | |]; try discriminate.
    inv_bind H as initializers Hi. inversion H; subst node; clear H.
    exists items, code, initializers.
    split; [reflexivity |]. split; [reflexivity |].
    split; [exact Hkind |].
    apply mapM_Forall2 in Hi.
    assert (HF :
              Forall2
                (fun item initializer =>
                   match argValue item with
                   | ArgVariable _ => False
                   | ArgScalar (SStr v) =>
                       initializer
                       = (IdentifierName v,
                          if hasOwnProperty variableNames v
                          then CallExpression
                                 (PropertyAccessExpression
                                    (identify tagName) "__var")
                                 [Identifier v]
                          else ObjectLiteralExpression
                                 [("kind", StringLiteral "CallVariable");
                                  ("callVariableName", StringLiteral v)])
                   | ArgScalar v =>
                       initializer
                       = (RawName (ArgScalar v),
                          if hasOwnProperty variableNames
                                            (RelayQLPrinter.propertyKey (ArgScalar v))
                          then CallExpression
                                 (PropertyAccessExpression
                                    (identify tagName) "__var")
                                 [RawIdentifier (ArgScalar v)]
                          else ObjectLiteralExpression
                                 [("kind", StringLiteral "CallVariable");
                                  ("callVariableName", createLiteral v)])
                   | value =>
                       hasOwnProperty variableNames (RelayQLPrinter.propertyKey value)
                       = true
                       /\ initializer
                          = (RawName value,
                             CallExpression
                               (PropertyAccessExpression
                                  (identify tagName) "__var")
                               [RawIdentifier value])
                   end)
                items initializers).
    { revert Hi. apply Forall2_impl. intros item initializer Hitem.
      destruct (argValue item) as [x | elements | v | entries];
        [discriminate | | |].
      - inv_bind Hitem as p Hp. inversion Hitem; subst initializer.
        simpl.
        match type of Hp with
        | (if ?c then _ else _) = _ => destruct c eqn:E
        end; [| discriminate].
        inversion Hp; subst p. split; reflexivity.
      - inv_bind Hitem as p Hp. inversion Hitem; subst initializer.
        destruct v as [| b | n | text]; simpl in Hp |- *.
        + match type of Hp with
          | (if ?c then _ else _) = _ => destruct c
          end; inversion Hp; subst p; reflexivity.
        + destruct b; simpl in Hp |- *;
            match type of Hp with
            | (if ?c then _ else _) = _ => destruct c
            end; inversion Hp; subst p; reflexivity.
        + match type of Hp with
          | (if ?c then _ else _) = _ => destruct c
          end; inversion Hp; subst p; reflexivity.
        + inversion Hp; subst p. unfold RelayQLPrinter.printVariable.
          destruct (hasOwnProperty variableNames text); reflexivity.
      - inv_bind Hitem as p Hp. inversion Hitem; subst initializer.
        simpl.
        match type of Hp with
        | (if ?c then _ else _) = _ => destruct c eqn:E
        end; [| discriminate].
        inversion Hp; subst p. split; reflexivity. }
    split; [exact HF |].
    clear Hi. induction HF as [| item initializer items inits Hhead _ IH];
      intros Hall; [reflexivity |].
    destruct (Hall item (or_introl eq_refl)) as (v & Hv).
    rewrite Hv in Hhead. subst initializer.
    cbn [identifierNames map]. rewrite Hv.
    rewrite IH by (intros i Hin; apply Hall; right; exact Hin).
    reflexivity.
  - inversion H; subst node. exists code. split; [reflexivity | exact Hkind].
Qed.

(** *** Requisite fields *)

Lemma printInputOperation_children fuel kind
      (operation : RelayQLOperation RelayQLType) (rootField : Field)
      requisiteFields node :
  RelayQLPrinter.printInputOperation schema ID options tagName
    variableNames fuel kind operation rootField requisiteFields = Ok node ->
  exists children,
    printSelections fuel (OfField rootField) requisiteFields None false
    = Ok children
    /\ printedChildren node = selectionElements children.
Proof.
  unfold RelayQLPrinter.printInputOperation. intros H.
  inv_bind H as children Hsel. inv_bind H as inputType Hinput.
  inv_bind H as directives Hdir. inversion H; subst node; clear H.
  exists children. split; [exact Hsel |].
  unfold printedChildren, codify, propertiesOf. cbn [filter snd].
  destruct (isNULL children) eqn:E, (isNULL directives);
    first [ reflexivity
          | symmetry; apply isNULL_selectionElements; exact E ].
Qed.

(** The children of a printed mutation hold [clientMutationId] when the
    payload type has that field, and those of a printed subscription
    hold [clientSubscriptionId] and [clientMutationId] when the payload
    type has them: each request is printed and marked [isRequisite], and
    one generated copy follows the requested fields when the field was
    not requested.  The facade is taken to generate, for a name, a field
    of that name. *)
Theorem client_ids_requisite :
  (forall t n, fieldName (generateField schema t n) = n) ->
  (forall fuel (mutation : RelayQLOperation RelayQLType) enableValidation
          rootField rest node,
      getFields mutation = rootField :: rest ->
      hasField schema (fieldType rootField) (f_clientMutationId FIELDS)
      = true ->
      printMutation fuel mutation enableValidation = Ok node ->
      requisiteOnce (f_clientMutationId FIELDS) (fieldSelections rootField)
                    node)
  /\ (forall fuel (subscription : RelayQLOperation RelayQLType)
             enableValidation rootField rest node name,
         getFields subscription = rootField :: rest ->
         name = f_clientSubscriptionId FIELDS
         \/ name = f_clientMutationId FIELDS ->
         hasField schema (fieldType rootField) name = true ->
         printSubscription fuel subscription enableValidation = Ok node ->
         requisiteOnce name (fieldSelections rootField) node).
Proof.
  intros Hlaw. split.
  - intros fuel mutation ev rootField rest node Hfields Hhas H.
    unfold RelayQLPrinter.printMutation in H. rewrite Hfields in H.
    destruct (negb _ && ev)%bool; [discriminate |].
    inv_bind H as u Hu. rewrite Hhas in H.
    destruct (printInputOperation_children _ _ _ _ _ H)
      as (children & Hsel & Hc).
    unfold requisiteOnce. rewrite Hc.
    change (fieldSelections rootField)
      with (getSelections (OfField rootField)).
    eapply printSelections_requisite; [exact Hlaw | | | exact Hsel].
    + apply NoDup_setKey. constructor.
    + rewrite hasOwnProperty_setKey, String.eqb_refl. apply orb_true_r.
  - intros fuel subscription ev rootField rest node name Hfields Hname
           Hhas H.
    unfold RelayQLPrinter.printSubscription in H. rewrite Hfields in H.
    destruct (negb _ && ev)%bool; [discriminate |].
    inv_bind H as u Hu.
    destruct (printInputOperation_children _ _ _ _ _ H)
      as (children & Hsel & Hc).
    unfold requisiteOnce. rewrite Hc.
    change (fieldSelections rootField)
      with (getSelections (OfField rootField)).
    eapply printSelections_requisite; [exact Hlaw | | | exact Hsel].
    + destruct (hasField schema (fieldType rootField)
                         (f_clientMutationId FIELDS));
        [apply NoDup_setKey |];
        (destruct (hasField schema (fieldType rootField)
                            (f_clientSubscriptionId FIELDS));
         [apply NoDup_setKey |]; constructor).
    + destruct Hname as [-> | ->]; rewrite Hhas.
      * destruct (hasField schema (fieldType rootField)
                           (f_clientMutationId FIELDS));
          rewrite !hasOwnProperty_setKey, String.eqb_refl;
          rewrite ?orb_true_r; reflexivity.
      * rewrite hasOwnProperty_setKey, String.eqb_refl.
        apply orb_true_r.
Qed.

(** The children of a printed field hold the requisite fields of its
    type: the [ID] field when the type has one; [hasNextPage] and
    [hasPreviousPage] for a page-info type; [cursor] and [node] for an
    edge type (a type that is a connection itself gets neither pair).
    Each request of such a field is printed and marked [isRequisite],
    and one generated copy follows the requested fields when it was not
    requested. *)
Theorem field_requisites_printed :
  (forall t n, fieldName (generateField schema t n) = n) ->
  forall fuel (field : Field) (parent : Node) requisiteSiblings
         generatedSiblings isGeneratedQuery node name,
    printField fuel field parent requisiteSiblings generatedSiblings
               isGeneratedQuery = Ok node ->
    (hasField schema (fieldType field) ID = true /\ name = ID)
    \/ (isConnection schema (fieldType field) = false
        /\ isConnectionPageInfo schema (fieldType field) = true
        /\ (name = f_hasNextPage FIELDS
            \/ name = f_hasPreviousPage FIELDS))
    \/ (isConnection schema (fieldType field) = false
        /\ isConnectionPageInfo schema (fieldType field) = false
        /\ isConnectionEdge schema (fieldType field) = true
        /\ (name = f_cursor FIELDS \/ name = f_node FIELDS)) ->
    requisiteOnce name (fieldSelections field) node.
Proof.
  intros Hlaw fuel field parent rs gs gen node name H Hname.
  edestruct printField_children as (children & Hsel & Hc); [exact H |].
  unfold requisiteOnce. rewrite Hc.
  change (fieldSelections field) with (getSelections (OfField field)).
  eapply printSelections_requisite; [exact Hlaw | | | exact Hsel].
  - apply NoDup_fieldRequisites.
  - unfold RelayQLPrinter.fieldRequisites.
    destruct Hname as [(Hid & ->) | [(Hc1 & Hp & Hn) | (Hc1 & Hp & He & Hn)]].
    + rewrite Hid.
      repeat match goal with
             | |- context [if ?c then _ else _] => destruct c
             end;
        rewrite !hasOwnProperty_setKey, String.eqb_refl;
        rewrite ?orb_true_r; reflexivity.
    + rewrite Hc1, Hp.
      destruct Hn as [-> | ->];
        repeat match goal with
               | |- context [if ?c then _ else _] => destruct c
               end;
        rewrite !hasOwnProperty_setKey, String.eqb_refl;
        rewrite ?orb_true_r; reflexivity.
    + rewrite Hc1, Hp, He.
      destruct Hn as [-> | ->];
        repeat match goal with
               | |- context [if ?c then _ else _] => destruct c
               end;
        rewrite !hasOwnProperty_setKey, String.eqb_refl;
        rewrite ?orb_true_r; reflexivity.
Qed.

(** The children of a printed query hold the identifying field of the
    type of the root field, and those of a printed fragment the [ID]
    field when the type of the fragment has it, in the same way. *)
Theorem identity_requisite_printed :
  (forall t n, fieldName (generateField schema t n) = n) ->
  (forall fuel (query : RelayQLOperation RelayQLType) enableValidation
          rootField rest node name,
      getFields query = rootField :: rest ->
      getIdentifyingFieldDefinition schema (fieldType rootField)
      = Some name ->
      printQuery fuel query enableValidation = Ok node ->
      requisiteOnce name (fieldSelections rootField) node)
  /\ (forall fuel (fragment : Fragment) node,
         hasField schema (fragmentType fragment) ID = true ->
         printFragment fuel fragment = Ok node ->
         requisiteOnce ID (fragmentSelections fragment) node).
Proof.
  intros Hlaw. split.
  - intros fuel query ev rootField rest node name Hfields Hid H.
    edestruct printQuery_children as (children & Hsel & Hc);
      [exact Hfields | exact H |].
    unfold requisiteOnce. rewrite Hc.
    change (fieldSelections rootField)
      with (getSelections (OfField rootField)).
    eapply printSelections_requisite; [exact Hlaw | | | exact Hsel].
    + apply NoDup_two_keys.
    + simpl. rewrite Hid.
      destruct (isAbstract schema (fieldType rootField));
        rewrite !hasOwnProperty_setKey, String.eqb_refl;
        rewrite ?orb_true_r; reflexivity.
  - intros fuel fragment node Hid H.
    edestruct printFragment_children as (children & Hsel & Hc);
      [exact H |].
    unfold requisiteOnce. rewrite Hc.
    change (fragmentSelections fragment)
      with (getSelections (OfFragment fragment)).
    eapply printSelections_requisite; [exact Hlaw | | | exact Hsel].
    + simpl. rewrite Hid.
      destruct (isAbstract schema (fragmentType fragment));
        repeat apply NoDup_setKey; constructor.
    + simpl. rewrite Hid.
      destruct (isAbstract schema (fragmentType fragment));
        rewrite !hasOwnProperty_setKey, String.eqb_refl;
        rewrite ?orb_true_r; reflexivity.
Qed.

(** *** The order of the printed selections *)

(** The printed selections of a node come in three groups: first the
    fields (the requested ones, then the generated ones), then the inline
    fragments and the fragment references in the order of the document,
    then the generated id fragment if there is one.  A fragment spread is
    printed as [<tag>.__frag(name)], and only when it carries no
    directive. *)
Theorem printSelections_order
    fuel (parent : Node) requisiteFields extraFragments isGeneratedQuery
    children :
  printSelections fuel parent requisiteFields extraFragments
                  isGeneratedQuery = Ok children ->
  exists printedFields printedFragments printedExtra,
    selectionElements children
    = printedFields ++ printedFragments ++ printedExtra
    /\ printFields (pred fuel) (requestedFields (getSelections parent))
                   parent requisiteFields isGeneratedQuery
       = Ok printedFields
    /\ Forall2 (fun selection node =>
                  match selection with
                  | SelFragmentSpread name directives =>
                      directives = []
                      /\ node
                         = CallExpression
                             (PropertyAccessExpression (identify tagName)
                                                       "__frag")
                             [Identifier name]
                  | SelInlineFragment fragment =>
                      printFragment (pred fuel) fragment = Ok node
                  | SelField _ => False
                  end)
               (filter (fun selection =>
                          match selection with
                          | SelField _ => false
                          | _ => true
                          end) (getSelections parent))
               printedFragments
    /\ Forall2 (fun fragment node =>
                  printFragment (pred fuel) fragment = Ok node)
               match extraFragments with
               | Some fragments => fragments
               | None => []
               end
               printedExtra.
Proof.
  destruct fuel as [| fuel]; [discriminate |].
  rewrite printSelections_S. simpl pred. intros H.
  inv_bind H as r Hr. destruct r as [selections did]. simpl in H.
  unfold RelayQLPrinter.printedSelections in Hr.
  inv_bind Hr as parts Hparts. destruct parts as [[fields ps] d].
  inv_bind Hr as extra Hextra. inv_bind Hr as pfs Hpfs.
  inversion Hr; subst selections did; clear Hr.
  exists pfs, ps, extra.
  edestruct partitionSelections_spec as (_ & Hf & _); [exact Hparts |].
  subst fields.
  split; [| split; [exact Hpfs | split]].
  - destruct (pfs ++ ps ++ extra) eqn:E; inversion H; subst children.
    + reflexivity.
    + destruct d; reflexivity.
  - eapply partitionSelections_fragments; exact Hparts.
  - destruct extraFragments as [frs |].
    + apply mapM_Forall2; exact Hextra.
    + inversion Hextra; constructor.
Qed.

(** A field or a fragment whose type has no [ID] field but may implement
    [Node], and which holds no inline fragment on [Node] itself, gets
    the generated id fragment as its last printed child. *)
Theorem generated_id_fragment_last :
  (forall fuel (field : Field) (parent : Node) requisiteSiblings
          generatedSiblings isGeneratedQuery node,
      hasField schema (fieldType field) ID = false ->
      RelayQLPrinter.shouldGenerateIdFragment schema (OfField field)
      = true ->
      printField fuel field parent requisiteSiblings generatedSiblings
                 isGeneratedQuery = Ok node ->
      exists others printedId,
        printedChildren node = others ++ [printedId]
        /\ printFragment (pred (pred fuel))
                         (generateIdFragment schema (fieldType field))
           = Ok printedId)
  /\ (forall fuel (fragment : Fragment) node,
         hasField schema (fragmentType fragment) ID = false ->
         RelayQLPrinter.shouldGenerateIdFragment schema
                                                 (OfFragment fragment)
         = true ->
         printFragment fuel fragment = Ok node ->
         exists others printedId,
           printedChildren node = others ++ [printedId]
           /\ printFragment (pred (pred fuel))
                            (generateIdFragment schema
                                                (fragmentType fragment))
              = Ok printedId).
Proof.
  assert (Hlast :
            forall fuel (parent : Node) requisiteFields gen children,
              hasField schema (getType parent) ID = false ->
              RelayQLPrinter.shouldGenerateIdFragment schema parent = true ->
              printSelections fuel parent requisiteFields
                              (idFragmentOf parent) gen = Ok children ->
              exists others printedId,
                selectionElements children = others ++ [printedId]
                /\ printFragment (pred fuel)
                                 (generateIdFragment schema (getType parent))
                   = Ok printedId).
  { intros fuel parent req gen children Hid Hgen H.
    unfold RelayQLPrinter.idFragmentOf in H. rewrite Hid, Hgen in H.
    destruct fuel as [| fuel]; [discriminate |].
    rewrite printSelections_S in H. simpl pred.
    inv_bind H as r Hr. destruct r as [selections did]. simpl in H.
    unfold RelayQLPrinter.printedSelections in Hr.
    inv_bind Hr as parts Hparts. destruct parts as [[fields ps] d].
    inv_bind Hr as extra Hextra. inv_bind Hr as pfs Hpfs.
    inversion Hr; subst selections did; clear Hr.
    simpl in Hextra. inv_bind Hextra as printedId Hp.
    inversion Hextra; subst extra; clear Hextra.
    exists (pfs ++ ps), printedId. split; [| exact Hp].
    rewrite <- app_assoc.
    destruct (pfs ++ ps ++ [printedId]) eqn:E.
    - destruct pfs, ps; discriminate.
    - inversion H; subst children. destruct d; reflexivity. }
  split.
  - intros fuel field parent rs gs gen node Hid Hgen H.
    edestruct printField_children as (children & Hsel & Hc); [exact H |].
    rewrite Hc. eapply (Hlast _ (OfField field)); eassumption.
  - intros fuel fragment node Hid Hgen H.
    edestruct printFragment_children as (children & Hsel & Hc);
      [exact H |].
    rewrite Hc. eapply (Hlast _ (OfFragment fragment)); eassumption.
Qed.

(** *** Arguments of [@relay] *)

Lemma relayDirectiveProperties_checked (args : list RelayQLArgument) :
  match mapM RelayQLPrinter.relayDirectiveProperty args with
  | Ok _ =>
      Forall (fun arg =>
                match argValue arg with
                | ArgVariable _ => False
                | ArgScalar _ => True
                | _ => argName arg = "variables"
                end) args
  | Throw e =>
      exists arg,
        In arg args
        /\ match argValue arg with
           | ArgVariable v =>
               e = RelayDirectiveVariableArgument v (argName arg)
           | ArgScalar _ => False
           | _ =>
               argName arg <> "variables"
               /\ e = TypeError "Invalid literal value"
           end
  | OutOfFuel => False
  end.
Proof.
  induction args as [| arg rest IH]; simpl; [constructor |].
  unfold RelayQLPrinter.relayDirectiveProperty at 1.
  destruct (argValue arg) as [v | elements | value | entries] eqn:Hv;
    simpl.
  - exists arg. split; [left; reflexivity |]. rewrite Hv. reflexivity.
  - destruct (String.eqb (argName arg) "variables") eqn:E; simpl.
    + apply String.eqb_eq in E.
      destruct (mapM RelayQLPrinter.relayDirectiveProperty rest); simpl.
      * constructor; [rewrite Hv; exact E | exact IH].
      * destruct IH as (a & Hin & Ha). exists a.
        split; [right; exact Hin | exact Ha].
      * exact IH.
    + apply String.eqb_neq in E. exists arg.
      split; [left; reflexivity |]. rewrite Hv. split; [exact E | reflexivity].
  - assert (Hprop : exists p,
               (if String.eqb (argName arg) "variables"
                then Ok []
                else Ok [(argName arg, createLiteral value)])
               = Ok p).
    { destruct (String.eqb (argName arg) "variables"); eexists; reflexivity. }
    destruct Hprop as (p & ->). simpl.
    destruct (mapM RelayQLPrinter.relayDirectiveProperty rest); simpl.
    + constructor; [rewrite Hv; exact I | exact IH].
    + destruct IH as (a & Hin & Ha). exists a.
      split; [right; exact Hin | exact Ha].
    + exact IH.
  - destruct (String.eqb (argName arg) "variables") eqn:E; simpl.
    + apply String.eqb_eq in E.
      destruct (mapM RelayQLPrinter.relayDirectiveProperty rest); simpl.
      * constructor; [rewrite Hv; exact E | exact IH].
      * destruct IH as (a & Hin & Ha). exists a.
        split; [right; exact Hin | exact Ha].
      * exact IH.
    + apply String.eqb_neq in E. exists arg.
      split; [left; reflexivity |]. rewrite Hv. split; [exact E | reflexivity].
Qed.

(** [printRelayDirectiveMetadata] returns exactly when no argument of
    the [@relay] directive of the node is a variable and every argument
    other than [variables] is a scalar.  Otherwise it throws: for a
    variable the error that names the variable and the argument, for a
    list or an object the error of [createLiteral]. *)
Theorem relay_directive_arguments_checked (node : Node)
        (maybeMetadata : option (list (string * Scalar))) :
  let args := match RelayQLPrinter.findRelayDirective node with
              | Some relayDirective => directiveArguments relayDirective
              | None => []
              end in
  match RelayQLPrinter.printRelayDirectiveMetadata node maybeMetadata with
  | Ok _ =>
      Forall (fun arg =>
                match argValue arg with
                | ArgVariable _ => False
                | ArgScalar _ => True
                | _ => argName arg = "variables"
                end) args
  | Throw e =>
      exists arg,
        In arg args
        /\ match argValue arg with
           | ArgVariable v =>
               e = RelayDirectiveVariableArgument v (argName arg)
           | ArgScalar _ => False
           | _ =>
               argName arg <> "variables"
               /\ e = TypeError "Invalid literal value"
           end
  | OutOfFuel => False
  end.
Proof.
  unfold RelayQLPrinter.printRelayDirectiveMetadata.
  destruct (RelayQLPrinter.findRelayDirective node) as [directive |];
    simpl; [| constructor].
  pose proof (relayDirectiveProperties_checked
                (directiveArguments directive)) as H.
  destruct (mapM RelayQLPrinter.relayDirectiveProperty
                 (directiveArguments directive)); simpl; exact H.
Qed.

End PrinterMore.

(** ** Names *)

Lemma string_append_empty_r (s : string) : (s ++ "")%string = s.
Proof.
  induction s as [| c s IH]; simpl; [reflexivity | rewrite IH; reflexivity].
Qed.

Lemma string_append_assoc (a b c : string) :
  ((a ++ b) ++ c)%string = (a ++ b ++ c)%string.
Proof.
  induction a as [| x a IH]; simpl; [reflexivity | rewrite IH; reflexivity].
Qed.

Lemma splitDots_nonempty (s acc : string) : splitDots acc s <> [].
Proof.
  revert acc. induction s as [| c s IH]; simpl; intros acc.
  - discriminate.
  - destruct (Ascii.eqb c "."%char); [discriminate | apply IH].
Qed.

(** Joining the pieces of [str.split('.')] with dots gives the string
    back. *)
Lemma splitDots_concat (s acc : string) :
  String.concat "." (splitDots acc s) = (acc ++ s)%string.
Proof.
  revert acc. induction s as [| c s IH]; intros acc.
  - simpl. rewrite string_append_empty_r. reflexivity.
  - simpl splitDots. destruct (Ascii.eqb c "."%char) eqn:E.
    + apply Ascii.eqb_eq in E. subst c.
      pose proof (splitDots_nonempty s "") as Hne.
      specialize (IH ""%string). change ("" ++ s)%string with s in IH.
      destruct (splitDots "" s) as [| x xs]; [contradiction |].
      change (String.concat "." (acc :: x :: xs))
        with (acc ++ "." ++ String.concat "." (x :: xs))%string.
      rewrite IH. reflexivity.
    + rewrite IH, string_append_assoc. reflexivity.
Qed.

Lemma concat_dots_cons (p n : string) (rest : list string) :
  String.concat "." ((p ++ "." ++ n)%string :: rest)
  = String.concat "." (p :: n :: rest).
Proof.
  destruct rest as [| m r].
  - reflexivity.
  - change (String.concat "." ((p ++ "." ++ n)%string :: m :: r))
      with ((p ++ "." ++ n) ++ "." ++ String.concat "." (m :: r))%string.
    change (String.concat "." (p :: n :: m :: r))
      with (p ++ "." ++ n ++ "." ++ String.concat "." (m :: r))%string.
    rewrite string_append_assoc. reflexivity.
Qed.

Lemma accessPath_fold (others : list string) :
  forall (expression : Printable) (path : string),
    accessPath expression = Some path ->
    accessPath (fold_left (fun acc name =>
                             PropertyAccessExpression acc name)
                          others expression)
    = Some (String.concat "." (path :: others)).
Proof.
  induction others as [| n rest IH]; intros expression path H.
  - exact H.
  - cbn [fold_left]. rewrite <- concat_dots_cons. apply IH.
    simpl. rewrite H. reflexivity.
Qed.

(** [identify] turns a dotted name into the expression that reads it:
    the chain of property accesses it builds spells the name it was
    given, so it is never a null node, and a name without a dot gives a
    plain identifier. *)
Theorem identify_round_trip (str : string) :
  accessPath (identify str) = Some str
  /\ (splitDots "" str = [str] -> identify str = Identifier str).
Proof.
  unfold identify. split.
  - pose proof (splitDots_concat str "") as Hc. simpl in Hc.
    destruct (splitDots "" str) as [| first others] eqn:E.
    + exfalso. revert E. apply splitDots_nonempty.
    + rewrite <- Hc. apply accessPath_fold. reflexivity.
  - intros ->. reflexivity.
Qed.

Lemma toLowerCase_not_upper (c : ascii) : isUpper (toLowerCase c) = false.
Proof.
  destruct c as [[] [] [] [] [] [] [] []]; vm_compute; reflexivity.
Qed.

Lemma toSnakeCase_no_upper (name : string) :
  Forall (fun c => isUpper c = false)
         (list_ascii_of_string (toSnakeCase name)).
Proof.
  induction name as [| c rest IH]; simpl; [constructor |].
  destruct (isUpper c) eqn:E; simpl.
  - constructor; [reflexivity |].
    constructor; [apply toLowerCase_not_upper | exact IH].
  - constructor; [exact E | exact IH].
Qed.

Lemma toSnakeCase_fixed (name : string) :
  Forall (fun c => isUpper c = false) (list_ascii_of_string name) ->
  toSnakeCase name = name.
Proof.
  induction name as [| c rest IH]; simpl; intros H; [reflexivity |].
  inversion H as [| ? ? Hc Hrest]; subst. rewrite Hc, IH by exact Hrest.
  reflexivity.
Qed.

Lemma toSnakeCase_characters (name : string) :
  list_ascii_of_string (toSnakeCase name)
  = flat_map (fun c =>
                if ((65 <=? nat_of_ascii c)
                    && (nat_of_ascii c <=? 90))%nat
                then ["_"%char; ascii_of_nat (nat_of_ascii c + 32)]
                else [c])
             (list_ascii_of_string name).
Proof.
  induction name as [| c rest IH];
    cbn [toSnakeCase list_ascii_of_string flat_map]; [reflexivity |].
  change ((65 <=? nat_of_ascii c) && (nat_of_ascii c <=? 90))%nat
    with (isUpper c).
  unfold toLowerCase.
  destruct (isUpper c); cbn [list_ascii_of_string app];
    rewrite IH; reflexivity.
Qed.

(** The snake-case form of a name is the name with every upper-case
    letter, a character with a code from 65 to 90, replaced by an
    underscore followed by its lower-case form, the character 32 codes
    higher, and every other character kept.  So it has no upper-case
    letter, it is longer than the name by the number of its upper-case
    letters, a name without upper-case letters is left as it is, and
    converting twice is converting once. *)
Theorem toSnakeCase_normal_form (name : string) :
  list_ascii_of_string (toSnakeCase name)
  = flat_map (fun c =>
                if ((65 <=? nat_of_ascii c)
                    && (nat_of_ascii c <=? 90))%nat
                then ["_"%char; ascii_of_nat (nat_of_ascii c + 32)]
                else [c])
             (list_ascii_of_string name)
  /\ Forall (fun c => (nat_of_ascii c < 65 \/ 90 < nat_of_ascii c)%nat)
            (list_ascii_of_string (toSnakeCase name))
  /\ toSnakeCase (toSnakeCase name) = toSnakeCase name
  /\ String.length (toSnakeCase name)
     = String.length name
       + length (filter (fun c =>
                           ((65 <=? nat_of_ascii c)
                            && (nat_of_ascii c <=? 90))%nat)
                        (list_ascii_of_string name))
  /\ (Forall (fun c => (nat_of_ascii c < 65 \/ 90 < nat_of_ascii c)%nat)
             (list_ascii_of_string name) ->
      toSnakeCase name = name).
Proof.
  assert (Hupper : forall c,
             isUpper c = false
             <-> (nat_of_ascii c < 65 \/ 90 < nat_of_ascii c)%nat).
  { intros c. unfold isUpper. rewrite andb_false_iff.
    rewrite Nat.leb_gt, Nat.leb_gt. reflexivity. }
  split; [apply toSnakeCase_characters |].
  split.
  { pose proof (toSnakeCase_no_upper name) as H. revert H.
    apply Forall_impl. intros c. apply Hupper. }
  split; [apply toSnakeCase_fixed, toSnakeCase_no_upper |].
  split.
  - induction name as [| c rest IH];
      cbn [toSnakeCase list_ascii_of_string filter String.length];
      [reflexivity |].
    change ((65 <=? nat_of_ascii c) && (nat_of_ascii c <=? 90))%nat
      with (isUpper c).
    destruct (isUpper c); cbn [String.length length]; rewrite IH; lia.
  - intros H. apply toSnakeCase_fixed. revert H.
    apply Forall_impl. intros c. apply Hupper.
Qed.

(** ** Further properties of the classic normaliser *)

(** *** Literal values *)

Lemma mapE_parseValue (values : list ValueNode) :
  Forall (fun value =>
            if isLiteral value
            then exists printed, parseValue value = inr printed
            else parseValue value = inl UnsupportedLiteral) values ->
  if forallb isLiteral values
  then exists items, mapE parseValue values = inr items
  else mapE parseValue values = inl UnsupportedLiteral.
Proof.
  induction 1 as [| value rest Hvalue _ IH]; simpl.
  - eexists; reflexivity.
  - destruct (isLiteral value); simpl.
    + destruct Hvalue as (printed & ->).
      destruct (forallb isLiteral rest).
      * destruct IH as (items & ->). eexists; reflexivity.
      * rewrite IH. reflexivity.
    + rewrite Hvalue. reflexivity.
Qed.

Lemma parseValue_isLiteral :
  forall value,
    if isLiteral value
    then exists printed, parseValue value = inr printed
    else parseValue value = inl UnsupportedLiteral.
Proof.
  fix IH 1. intros [name | n | text | s | b | | s | values | fields];
    simpl; try (eexists; reflexivity); try reflexivity.
  assert (H : Forall (fun value =>
                        if isLiteral value
                        then exists printed, parseValue value = inr printed
                        else parseValue value = inl UnsupportedLiteral)
                     values).
  { induction values as [| v rest IHrest]; constructor;
      [apply IH | exact IHrest]. }
  apply mapE_parseValue in H.
  destruct (forallb isLiteral values).
  - destruct H as (items & ->). eexists; reflexivity.
  - rewrite H. reflexivity.
Qed.

(** [parseValue] prints exactly the values that hold no variable, no
    null and no object at any depth of list nesting; on every other
    value it throws the unsupported-literal error, and no other. *)
Theorem parseValue_literals_only (value : ValueNode) :
  (isLiteral value = true <-> exists printed, parseValue value = inr printed)
  /\ (isLiteral value = false <-> parseValue value = inl UnsupportedLiteral)
  /\ (forall e, parseValue value = inl e -> e = UnsupportedLiteral).
Proof.
  pose proof (parseValue_isLiteral value) as H.
  destruct (isLiteral value).
  - destruct H as (printed & H). rewrite H.
    split; [split; [eauto | reflexivity] |].
    split; [split; discriminate | discriminate].
  - rewrite H.
    split; [split; [discriminate | intros (p & Hp); discriminate] |].
    split; [split; reflexivity |]. intros e He. congruence.
Qed.

(** *** What the traversal records *)

Lemma recordAll_nil (s : NormalizerState) : recordAll [] s = s.
Proof. destruct s; reflexivity. Qed.

Lemma recordAll_app (a b : list string) (s : NormalizerState) :
  recordAll (a ++ b) s = recordAll b (recordAll a s).
Proof.
  unfold recordAll; simpl. rewrite fold_left_app.
  rewrite <- surjective_pairing. reflexivity.
Qed.

Lemma recordAll_table (names : list string) (s : NormalizerState) :
  variableTable (recordAll names s)
  = fold_left assignNull names (variableTable s).
Proof.
  unfold recordAll, variableTable; simpl. symmetry.
  apply surjective_pairing.
Qed.

Lemma visitValue_records :
  forall value s,
    visitValue value s = inr (tt, recordAll (variablesOfValue value) s).
Proof.
  fix IH 1. intros [name | n | text | str | b | | str | values | fields] s;
    simpl; unfold ret; rewrite ?recordAll_nil; try reflexivity.
  - revert s. induction values as [| v rest IHrest]; intros s; simpl.
    + unfold ret. rewrite recordAll_nil. reflexivity.
    + unfold andThen. rewrite IH, IHrest, recordAll_app. reflexivity.
  - revert s. induction fields as [| [k v] rest IHrest]; intros s; simpl.
    + unfold ret. rewrite recordAll_nil. reflexivity.
    + unfold andThen. rewrite IH, IHrest, recordAll_app. reflexivity.
Qed.

Lemma visitArguments_records (args : list ArgumentNode) :
  forall s,
    visitArguments args s
    = inr (tt, recordAll (variablesOfArguments args) s).
Proof.
  induction args as [| arg rest IH]; intros s; simpl.
  - unfold ret. rewrite recordAll_nil. reflexivity.
  - unfold andThen. rewrite visitValue_records, IH.
    unfold variablesOfArguments. simpl. rewrite recordAll_app.
    reflexivity.
Qed.

Lemma visitDirective_kept (directive : DirectiveNode) s :
  isKept directive = true ->
  visitDirective directive s
  = inr (Some directive,
         recordAll match dArguments directive with
                   | Some args => variablesOfArguments args
                   | None => []
                   end s).
Proof.
  unfold isKept, visitDirective, visitors.Directive. intros H.
  apply andb_prop in H. destruct H as (Ha & Hc).
  apply negb_true_iff in Ha, Hc. rewrite Ha, Hc.
  unfold andThen, ret.
  destruct (dArguments directive) as [args |].
  - rewrite visitArguments_records. reflexivity.
  - rewrite recordAll_nil. reflexivity.
Qed.

Lemma visitDirective_dropped (directive : DirectiveNode) s r s' :
  isKept directive = false ->
  visitDirective directive s = inr (r, s') ->
  r = None /\ variableTable s' = variableTable s
  /\ fragments s' = fragments s.
Proof.
  unfold isKept, visitDirective, visitors.Directive. intros Hk H.
  destruct (String.eqb (dName directive) "argumentDefinitions").
  - unfold andThen, get, raise, modify, ret in H.
    destruct (argumentDefinitions s); [discriminate |].
    inversion H; subst. repeat split.
  - destruct (String.eqb (dName directive) "connection");
      [| discriminate].
    inversion H; subst. repeat split.
Qed.

Lemma visitDirective_Throw (directive : DirectiveNode) s e :
  visitDirective directive s = inl e ->
  e = DuplicateArgumentDefinitions
  /\ dName directive = "argumentDefinitions"
  /\ argumentDefinitions s <> None.
Proof.
  destruct (isKept directive) eqn:Hk.
  - rewrite visitDirective_kept by exact Hk. discriminate.
  - unfold visitDirective, visitors.Directive.
    destruct (String.eqb (dName directive) "argumentDefinitions") eqn:E.
    + apply String.eqb_eq in E.
      unfold andThen, get, raise, modify, ret.
      destruct (argumentDefinitions s); [| discriminate].
      intros H; inversion H; subst.
      split; [reflexivity | split; [exact E | discriminate]].
    + unfold isKept in Hk. rewrite E in Hk.
      destruct (String.eqb (dName directive) "connection");
        [unfold andThen, ret; discriminate | discriminate Hk].
Qed.

Lemma visitDirectives_inr (directives : list DirectiveNode) :
  forall s r s',
    visitDirectives directives s = inr (r, s') ->
    r = filter isKept directives
    /\ variableTable s'
       = fold_left assignNull (variablesOfDirectives directives)
                   (variableTable s)
    /\ fragments s' = fragments s.
Proof.
  unfold visitDirectives.
  induction directives as [| d rest IH]; intros s r s' H.
  - inversion H; subst. repeat split.
  - inv_then H as ds s1 Hds. inversion H; subst r s1; clear H.
    simpl in Hds. inv_then Hds as y s0 Hy. inv_then Hds as ys s2 Hys.
    inversion Hds; subst ds s2; clear Hds.
    specialize (IH s0 (keep ys) s').
    destruct IH as (Hr & Hv & Hf).
    { unfold andThen. rewrite Hys. reflexivity. }
    unfold variablesOfDirectives in *. simpl.
    destruct (isKept d) eqn:Hk.
    + rewrite visitDirective_kept in Hy by exact Hk.
      inversion Hy; subst y s0; clear Hy. simpl.
      rewrite Hr, Hv, recordAll_table, fold_left_app.
      repeat split. exact Hf.
    + destruct (visitDirective_dropped _ _ Hk Hy) as (-> & Hv0 & Hf0).
      simpl. rewrite Hr, Hv, Hv0, Hf, Hf0. repeat split.
Qed.

Lemma forallb_filter_id {A} (f : A -> bool) (l : list A) :
  forallb f l = true -> filter f l = l.
Proof.
  induction l as [| x l IH]; simpl; [reflexivity |].
  intros H. apply andb_prop in H. destruct H as (-> & H).
  rewrite IH by exact H. reflexivity.
Qed.

Lemma forallb_filter {A} (f : A -> bool) (l : list A) :
  forallb f (filter f l) = true.
Proof.
  induction l as [| x l IH]; simpl; [reflexivity |].
  destruct (f x) eqn:E; simpl; [rewrite E |]; exact IH.
Qed.

Lemma keep_map_Some {A} (l : list A) : keep (map Some l) = l.
Proof.
  induction l as [| x l IH]; simpl; [reflexivity | rewrite IH; reflexivity].
Qed.

Lemma mapV_visitDirective_kept (directives : list DirectiveNode) :
  forallb isKept directives = true ->
  forall s,
    exists s', mapV visitDirective directives s
               = inr (map Some directives, s').
Proof.
  induction directives as [| d rest IH]; intros H s.
  - eexists; reflexivity.
  - simpl in H. apply andb_prop in H. destruct H as (Hd & Hrest).
    simpl. unfold andThen.
    rewrite visitDirective_kept by exact Hd.
    destruct (IH Hrest (recordAll match dArguments d with
                                  | Some args => variablesOfArguments args
                                  | None => []
                                  end s)) as (s' & ->).
    eexists. reflexivity.
Qed.

Lemma visitDirectives_kept (directives : list DirectiveNode) :
  forallb isKept directives = true ->
  forall s, exists s', visitDirectives directives s = inr (directives, s').
Proof.
  intros H s. unfold visitDirectives, andThen.
  destruct (mapV_visitDirective_kept _ H s) as (s' & ->).
  exists s'. unfold ret. rewrite keep_map_Some. reflexivity.
Qed.

Lemma mapV_visitDirective_Throw (directives : list DirectiveNode) :
  forall s e,
    mapV visitDirective directives s = inl e ->
    e = DuplicateArgumentDefinitions
    /\ exists directive,
        In directive directives
        /\ dName directive = "argumentDefinitions".
Proof.
  induction directives as [| d rest IH]; intros s e H; [discriminate |].
  simpl in H. unfold andThen in H.
  destruct (visitDirective d s) as [e0 | [y s0]] eqn:Hd.
  - inversion H; subst e0.
    destruct (visitDirective_Throw _ _ Hd) as (-> & Hname & _).
    split; [reflexivity |].
    exists d. split; [left; reflexivity | exact Hname].
  - destruct (mapV visitDirective rest s0) as [e1 | [ys s1]] eqn:Hrest;
      [| discriminate].
    inversion H; subst e1.
    destruct (IH _ _ Hrest) as (He & d' & Hin & Hname).
    split; [exact He |].
    exists d'. split; [right; exact Hin | exact Hname].
Qed.

(** The [Directive] visitor removes the directives
    [@argumentDefinitions] and [@connection] from a list of directives
    and keeps every other one, in order, leaving the substitution slots
    alone; the only exception it throws is the one for duplicate
    argument definitions, and only on a list that holds an
    [@argumentDefinitions] directive. *)
Theorem directives_removed (directives : list DirectiveNode)
        (s : NormalizerState) :
  match visitDirectives directives s with
  | inr (kept, s') =>
      kept = filter isKept directives /\ fragments s' = fragments s
  | inl e =>
      e = DuplicateArgumentDefinitions
      /\ exists directive,
          In directive directives
          /\ dName directive = "argumentDefinitions"
  end.
Proof.
  destruct (visitDirectives directives s) as [e | [kept s']] eqn:H.
  - unfold visitDirectives, andThen in H.
    destruct (mapV visitDirective directives s) as [e0 | [ys s1]] eqn:Hm;
      [| discriminate].
    inversion H; subst e0. eapply mapV_visitDirective_Throw; exact Hm.
  - apply visitDirectives_inr in H. destruct H as (Hr & _ & Hf).
    split; assumption.
Qed.

(** *** Substitution slots, variables and the normal form *)

Lemma assign_keys {V} (o : list (string * V)) (k : string) (v : V)
      (k0 : string) :
  In k0 (map fst (assign o k v)) <-> In k0 (map fst o) \/ k0 = k.
Proof.
  induction o as [| [k' v'] rest IH]; simpl.
  - split; [intros [<- | []]; right; reflexivity
           | intros [[] | ->]; left; reflexivity].
  - destruct (String.eqb k' k) eqn:E; simpl.
    + apply String.eqb_eq in E. subst k'.
      split; [intros [<- | H]; [right; reflexivity | left; right; exact H]
             | intros [[<- | H] | ->];
               [left; reflexivity | right; exact H | left; reflexivity]].
    + rewrite IH.
      split; [intros [H | [H | H]]; auto | intros [[H | H] | H]; auto].
Qed.

Lemma NoDup_assign {V} (o : list (string * V)) (k : string) (v : V) :
  NoDup (map fst o) -> NoDup (map fst (assign o k v)).
Proof.
  induction o as [| [k' v'] rest IH]; simpl; intros H.
  - constructor; [intros [] | constructor].
  - inversion H as [| ? ? Hnot Hrest]; subst.
    destruct (String.eqb k' k) eqn:E; simpl.
    + apply String.eqb_eq in E. subst k'. constructor; assumption.
    + apply String.eqb_neq in E. constructor; [| apply IH; exact Hrest].
      rewrite assign_keys. intros [Hin | Heq]; [apply Hnot; exact Hin |].
      apply E; exact Heq.
Qed.

Lemma assignObject_keys {V} (o : list (string * V)) (k : string) (v : V)
      (k0 : string) :
  In k0 (map fst (assignObject o k v))
  <-> In k0 (map fst o) \/ (k0 <> "__proto__" /\ k0 = k).
Proof.
  unfold assignObject. destruct (String.eqb k "__proto__") eqn:E.
  - apply String.eqb_eq in E. subst k.
    split; [auto | intros [H | (Hne & Heq)]; [exact H | contradiction]].
  - apply String.eqb_neq in E. rewrite assign_keys.
    split; [intros [H | ->]; auto | intros [H | (_ & H)]; auto].
Qed.

Lemma NoDup_assignObject {V} (o : list (string * V)) (k : string)
      (v : V) :
  NoDup (map fst o) -> NoDup (map fst (assignObject o k v)).
Proof.
  unfold assignObject. destruct (String.eqb k "__proto__");
    [trivial | apply NoDup_assign].
Qed.

Lemma fragmentArguments_records (args : list ArgumentNode) :
  forall object s r s',
    visitors.fragmentArguments args object s = inr (r, s') ->
    s' = recordAll
           (flat_map (fun arg =>
                        match argumentValue arg with
                        | VariableValue name => [name]
                        | _ => []
                        end) args) s.
Proof.
  induction args as [| arg rest IH]; simpl; intros object s r s' H.
  - inversion H; subst. symmetry. apply recordAll_nil.
  - inv_then H as u s0 Hrec.
    destruct (convertArgument arg) as [e | [name ast]]; [discriminate |].
    apply IH in H. subst s'.
    destruct (argumentValue arg) as [v | | | | | | | |];
      inversion Hrec; subst s0; rewrite ?recordAll_nil;
      try reflexivity.
    cbn [flat_map]. rewrite recordAll_app. reflexivity.
Qed.

Lemma FragmentSpread_facts name directives s node s' :
  visitors.FragmentSpread name directives s = inr (node, s') ->
  exists substitutionName slot,
    node = FragmentSpreadNode substitutionName (Some [])
    /\ String.eqb substitutionName "" = false
    /\ fragments s' = assignObject (fragments s) substitutionName slot
    /\ variableTable s'
       = fold_left assignNull (variablesOfSpread directives)
                   (variableTable s).
Proof.
  unfold visitors.FragmentSpread. intros H.
  inv_then H as r s0 Hr. destruct r as [[substitutionName ast] masked].
  destruct (String.eqb substitutionName "") eqn:Ename; [discriminate |].
  inv_then H as u s1 Hmod. inversion Hmod; inversion H; subst; clear H Hmod.
  exists substitutionName. eexists.
  split; [reflexivity |]. split; [exact Ename |].
  assert (Hs0 : fragments s0 = fragments s
                /\ variableTable s0
                   = fold_left assignNull (variablesOfSpread directives)
                               (variableTable s)).
  { destruct directives as [[| directive others] |]; simpl in *.
    - inversion Hr; subst. split; reflexivity.
    - destruct others as [| d2 others]; [| discriminate]. simpl in Hr.
      destruct (String.eqb (dName directive) "arguments").
      + inv_then Hr as object s2 Hargs. inv_then Hr as u s3 Hmod.
        inv_then Hr as st s4 Hget. inversion Hmod; inversion Hget;
          inversion Hr; subst; clear Hmod Hget Hr. simpl.
        destruct (dArguments directive).
        * apply fragmentArguments_records in Hargs. subst s2.
          split; [reflexivity |].
          exact (recordAll_table _ s).
        * inversion Hargs; subst. split; reflexivity.
      + destruct (String.eqb (dName directive) "relay"); [| discriminate].
        destruct (dArguments directive) as [[| mask [| m2 ms]] |];
          try discriminate.
        destruct (String.eqb (argumentName mask) "mask"); [| discriminate].
        inversion Hr; subst. split; reflexivity.
    - inversion Hr; subst. split; reflexivity. }
  destruct Hs0 as (Hf & Hv). simpl. rewrite Hf.
  split; [reflexivity |]. rewrite <- Hv. reflexivity.
Qed.

Lemma mapV_facts (selections : list SelectionNode) :
  Forall traversalFacts selections ->
  forall s selections' s',
    mapV visitSelection selections s = inr (selections', s') ->
    forallb isNormalSelection selections' = true
    /\ variableTable s'
       = fold_left assignNull (flat_map variablesOfSelection selections)
                   (variableTable s)
    /\ (NoDup (map fst (fragments s)) -> NoDup (map fst (fragments s')))
    /\ (forall k,
           In k (map fst (fragments s'))
           <-> In k (map fst (fragments s))
               \/ (k <> "__proto__"
                   /\ In k (map fst (flat_map spreadsOfSelection
                                              selections')))).
Proof.
  induction 1 as [| x rest Hx _ IH]; simpl; intros s selections' s' H.
  - inversion H; subst. simpl.
    split; [reflexivity |]. split; [reflexivity |]. split; [auto |].
    intros k. split; [auto | intros [Hk | (_ & [])]; exact Hk].
  - inv_then H as y s0 Hy. inv_then H as ys s1 Hys. inversion H; subst.
    destruct (Hx _ _ _ Hy) as (Hn & Hv & Hnd & Hk).
    destruct (IH _ _ _ Hys) as (Hn' & Hv' & Hnd' & Hk').
    simpl. rewrite Hn, Hn', Hv', Hv, fold_left_app.
    split; [reflexivity |]. split; [reflexivity |]. split; [auto |].
    intros k. rewrite Hk', Hk, map_app, in_app_iff. tauto.
Qed.

Lemma visitSelection_facts selection : traversalFacts selection.
Proof.
  induction selection
    as [alias name arguments directives selectionSet IH
       | name directives
       | typeCondition directives selectionSet IH]
         using SelectionNode_nested_ind;
    unfold traversalFacts; simpl; intros s selection' s' H.
  - inv_then H as u s0 Hargs. inv_then H as ds s1 Hds.
    inv_then H as sels s2 Hsels. inversion H; subst. simpl.
    rewrite visitArguments_records in Hargs.
    inversion Hargs; subst s0; clear Hargs.
    apply visitDirectives_inr in Hds. destruct Hds as (-> & Hv1 & Hf1).
    destruct (mapV_facts IH _ Hsels) as (Hn & Hv & Hnd & Hk).
    rewrite forallb_filter, Hn, Hv, Hv1, recordAll_table,
      !fold_left_app.
    rewrite Hf1 in Hnd, Hk.
    split; [reflexivity |]. split; [reflexivity |].
    split; [exact Hnd | exact Hk].
  - apply FragmentSpread_facts in H.
    destruct H as (substitutionName & slot & -> & Hname & Hf & Hv).
    simpl. rewrite Hname, Hf.
    split; [reflexivity |]. split; [exact Hv |].
    split; [apply NoDup_assignObject |].
    intros k. rewrite assignObject_keys.
    split; [intros [H | (Hne & ->)]; auto
           | intros [H | (Hne & [<- | []])]; auto].
  - inv_then H as ds s1 Hds.
    inv_then H as sels s2 Hsels. inversion H; subst. simpl.
    apply visitDirectives_inr in Hds. destruct Hds as (-> & Hv1 & Hf1).
    destruct (mapV_facts IH _ Hsels) as (Hn & Hv & Hnd & Hk).
    rewrite forallb_filter, Hn, Hv, Hv1, !fold_left_app.
    rewrite Hf1 in Hnd, Hk.
    split; [reflexivity |]. split; [reflexivity |].
    split; [exact Hnd | exact Hk].
Qed.

Lemma visitVariableDefinitions_facts
      (definitions : list VariableDefinitionNode) :
  forall s definitions' s',
    mapV visitVariableDefinition definitions s = inr (definitions', s') ->
    forallb (fun d => forallb isKept (vdDirectives d)) definitions' = true
    /\ variableTable s'
       = fold_left assignNull
           (flat_map (fun d =>
                        vdVariable d
                        :: match vdDefaultValue d with
                           | Some v => variablesOfValue v
                           | None => []
                           end
                        ++ variablesOfDirectives (vdDirectives d))
                     definitions)
           (variableTable s)
    /\ fragments s' = fragments s.
Proof.
  induction definitions as [| d rest IH]; simpl; intros s definitions' s' H.
  - inversion H; subst. repeat split.
  - inv_then H as y s0 Hy. inv_then H as ys s1 Hys. inversion H; subst.
    destruct (IH _ _ _ Hys) as (Hn & Hv & Hf).
    unfold visitVariableDefinition in Hy.
    inv_then Hy as u1 s2 Hvar.
    assert (Hs2 : s2 = recordAll [vdVariable d] s).
    { inversion Hvar; reflexivity. }
    clear Hvar.
    inv_then Hy as u2 s3 Hdefault. inv_then Hy as ds s4 Hds.
    inversion Hy; subst y s4; clear Hy.
    apply visitDirectives_inr in Hds. destruct Hds as (-> & Hv1 & Hf1).
    assert (Hs3 : s3 = recordAll match vdDefaultValue d with
                                 | Some v => variablesOfValue v
                                 | None => []
                                 end
                                 (recordAll [vdVariable d] s)).
    { subst s2. destruct (vdDefaultValue d) as [v |].
      - rewrite visitValue_records in Hdefault.
        inversion Hdefault; reflexivity.
      - inversion Hdefault. rewrite recordAll_nil. reflexivity. }
    subst s3. clear Hs2.
    rewrite Hv, Hv1, Hf, Hf1, !recordAll_table.
    cbn [flat_map forallb vdDirectives]. rewrite forallb_filter, Hn.
    rewrite !fold_left_app. cbn [fold_left app]. repeat split.
Qed.

Lemma visit_facts definition s definition' s' :
  visit definition s = inr (definition', s') ->
  isNormal definition' = true
  /\ variableTable s'
     = fold_left assignNull (variablesOfDefinition definition)
                 (variableTable s)
  /\ (NoDup (map fst (fragments s)) -> NoDup (map fst (fragments s')))
  /\ (forall k,
         In k (map fst (fragments s'))
         <-> In k (map fst (fragments s))
             \/ (k <> "__proto__"
                 /\ In k (map fst (spreadsOf definition')))).
Proof.
  assert (Hall : forall selections,
             Forall traversalFacts selections).
  { intros selections. apply Forall_forall. intros x _.
    apply visitSelection_facts. }
  destruct definition
    as [operation name variableDefinitions directives selectionSet
       | name typeCondition directives selectionSet]; simpl; intros H.
  - inv_then H as vds s0 Hvds. inv_then H as ds s1 Hds.
    inv_then H as sels s2 Hsels. inversion H; subst; clear H.
    apply visitVariableDefinitions_facts in Hvds.
    destruct Hvds as (Hn0 & Hv0 & Hf0).
    apply visitDirectives_inr in Hds. destruct Hds as (-> & Hv1 & Hf1).
    destruct (mapV_facts (Hall selectionSet) _ Hsels)
      as (Hn & Hv & Hnd & Hk).
    unfold spreadsOf. simpl.
    rewrite Hn0, forallb_filter, Hn, Hv, Hv1, Hv0, !fold_left_app.
    rewrite Hf1, Hf0 in Hnd, Hk.
    split; [reflexivity |]. split; [reflexivity |].
    split; [exact Hnd | exact Hk].
  - inv_then H as ds s1 Hds.
    inv_then H as sels s2 Hsels. inversion H; subst; clear H.
    apply visitDirectives_inr in Hds. destruct Hds as (-> & Hv1 & Hf1).
    destruct (mapV_facts (Hall selectionSet) _ Hsels)
      as (Hn & Hv & Hnd & Hk).
    unfold spreadsOf. simpl.
    rewrite forallb_filter, Hn, Hv, Hv1, !fold_left_app.
    rewrite Hf1 in Hnd, Hk.
    split; [reflexivity |]. split; [reflexivity |].
    split; [exact Hnd | exact Hk].
Qed.

Lemma mapV_fixed (selections : list SelectionNode) :
  Forall traversalFixes selections ->
  forallb isNormalSelection selections = true ->
  forall s, exists s', mapV visitSelection selections s
                       = inr (selections, s').
Proof.
  induction 1 as [| x rest Hx _ IH]; simpl; intros Hn s.
  - eexists; reflexivity.
  - apply andb_prop in Hn. destruct Hn as (Hnx & Hnrest).
    unfold andThen.
    destruct (Hx Hnx s) as (s0 & ->).
    destruct (IH Hnrest s0) as (s1 & ->).
    eexists; reflexivity.
Qed.

Lemma visitSelection_fixed selection : traversalFixes selection.
Proof.
  induction selection
    as [alias name arguments directives selectionSet IH
       | name directives
       | typeCondition directives selectionSet IH]
         using SelectionNode_nested_ind;
    unfold traversalFixes; simpl; intros Hn s.
  - apply andb_prop in Hn. destruct Hn as (Hd & Hs).
    unfold andThen. rewrite visitArguments_records.
    destruct (visitDirectives_kept _ Hd
                (recordAll (variablesOfArguments arguments) s))
      as (s1 & ->).
    destruct (mapV_fixed IH Hs s1) as (s2 & ->).
    eexists; reflexivity.
  - apply andb_prop in Hn. destruct Hn as (Hname & Hd).
    apply negb_true_iff in Hname.
    destruct directives as [[| d ds] |]; try discriminate.
    unfold visitors.FragmentSpread, andThen, ret, modify. simpl.
    rewrite Hname. eexists; reflexivity.
  - apply andb_prop in Hn. destruct Hn as (Hd & Hs).
    unfold andThen.
    destruct (visitDirectives_kept _ Hd s) as (s1 & ->).
    destruct (mapV_fixed IH Hs s1) as (s2 & ->).
    eexists; reflexivity.
Qed.

Lemma visitVariableDefinition_fixed (d : VariableDefinitionNode) :
  forallb isKept (vdDirectives d) = true ->
  forall s, exists s', visitVariableDefinition d s = inr (d, s').
Proof.
  intros Hd s.
  unfold visitVariableDefinition, andThen.
  unfold visitors.Variable_, recordVariable, modify.
  destruct (vdDefaultValue d) as [v |] eqn:Ev.
  - rewrite visitValue_records.
    match goal with
    | |- context [visitDirectives _ ?st] =>
        destruct (visitDirectives_kept _ Hd st) as (s1 & ->)
    end.
    unfold ret. destruct d; simpl in *; subst.
    eexists; reflexivity.
  - unfold ret at 1.
    match goal with
    | |- context [visitDirectives _ ?st] =>
        destruct (visitDirectives_kept _ Hd st) as (s1 & ->)
    end.
    unfold ret. destruct d; simpl in *; subst.
    eexists; reflexivity.
Qed.

Lemma visitVariableDefinitions_fixed
      (definitions : list VariableDefinitionNode) :
  forallb (fun d => forallb isKept (vdDirectives d)) definitions = true ->
  forall s, exists s', mapV visitVariableDefinition definitions s
                       = inr (definitions, s').
Proof.
  induction definitions as [| d rest IH]; simpl; intros Hn s.
  - eexists; reflexivity.
  - apply andb_prop in Hn. destruct Hn as (Hd & Hrest).
    unfold andThen.
    destruct (visitVariableDefinition_fixed _ Hd s) as (s0 & ->).
    destruct (IH Hrest s0) as (s1 & ->).
    eexists; reflexivity.
Qed.

Lemma visit_fixed definition :
  isNormal definition = true ->
  forall s, exists s', visit definition s = inr (definition, s').
Proof.
  assert (Hall : forall selections,
             Forall traversalFixes selections).
  { intros selections. apply Forall_forall. intros x _.
    apply visitSelection_fixed. }
  destruct definition
    as [operation name variableDefinitions directives selectionSet
       | name typeCondition directives selectionSet]; simpl; intros Hn s.
  - apply andb_prop in Hn. destruct Hn as (Hn & Hs).
    apply andb_prop in Hn. destruct Hn as (Hv & Hd).
    unfold andThen.
    destruct (visitVariableDefinitions_fixed _ Hv s) as (s0 & ->).
    destruct (visitDirectives_kept _ Hd s0) as (s1 & ->).
    destruct (mapV_fixed (Hall selectionSet) Hs s1) as (s2 & ->).
    eexists; reflexivity.
  - apply andb_prop in Hn. destruct Hn as (Hd & Hs).
    unfold andThen.
    destruct (visitDirectives_kept _ Hd s) as (s1 & ->).
    destruct (mapV_fixed (Hall selectionSet) Hs s1) as (s2 & ->).
    eexists; reflexivity.
Qed.

Lemma createClassicAST_inr definition result :
  createClassicAST definition = inr result ->
  exists s,
    visit definition initialState = inr (classicAST result, s)
    /\ ca_fragments result = fragments s
    /\ ca_variables result = variables s.
Proof.
  unfold createClassicAST.
  destruct (visit definition initialState) as [e | [ast s]];
    [discriminate |].
  intros H; inversion H; subst; simpl. exists s. repeat split.
Qed.

(** The rewritten definition holds no [@argumentDefinitions] and no
    [@connection] directive, on the definition, its variable definitions,
    fields or inline fragments, and every fragment spread in it has a
    name and an empty list of directives. *)
Theorem classicAST_is_normal definition result :
  createClassicAST definition = inr result ->
  isNormal (classicAST result) = true.
Proof.
  intros H. apply createClassicAST_inr in H.
  destruct H as (s & H & _). apply visit_facts in H. apply H.
Qed.

(** Normalising is idempotent on the syntax tree: the rewritten
    definition is accepted again and comes back unchanged. *)
Theorem createClassicAST_idempotent definition result :
  createClassicAST definition = inr result ->
  exists again,
    createClassicAST (classicAST result) = inr again
    /\ classicAST again = classicAST result.
Proof.
  intros H. apply createClassicAST_inr in H.
  destruct H as (s & H & _). apply visit_facts in H.
  destruct H as (Hn & _).
  destruct (visit_fixed _ Hn initialState) as (s' & Hs').
  unfold createClassicAST. rewrite Hs'.
  eexists. split; reflexivity.
Qed.

Lemma assignNull_without_prototype (names : list string) (o : KeySet) :
  fold_left assignNull names (o, false) = (fold_left setKey names o, false).
Proof.
  revert o. induction names as [| n names IH]; intros o; simpl;
    [reflexivity |].
  unfold assignNull at 2. simpl. rewrite andb_false_r. apply IH.
Qed.

Lemma assignNull_with_prototype (names : list string) (o : KeySet) :
  fst (fold_left assignNull names (o, true))
  = fold_left setKey (withoutFirst "__proto__" names) o.
Proof.
  revert o. induction names as [| n names IH]; intros o; simpl;
    [reflexivity |].
  unfold assignNull at 2. simpl.
  destruct (String.eqb n "__proto__"); simpl.
  - rewrite assignNull_without_prototype. reflexivity.
  - apply IH.
Qed.

Lemma In_withoutFirst (p name : string) (names : list string) :
  name <> p -> (In name (withoutFirst p names) <-> In name names).
Proof.
  intros Hne. induction names as [| n names IH]; simpl; [tauto |].
  destruct (String.eqb n p) eqn:E.
  - apply String.eqb_eq in E. subst n.
    split; [auto | intros [H | H]; [congruence | exact H]].
  - simpl. rewrite IH. tauto.
Qed.

Lemma count_withoutFirst (p : string) (names : list string) :
  count_occ string_dec (withoutFirst p names) p
  = pred (count_occ string_dec names p).
Proof.
  induction names as [| n names IH]; simpl; [reflexivity |].
  destruct (String.eqb n p) eqn:E.
  - apply String.eqb_eq in E. subst n.
    destruct (string_dec p p); [reflexivity | contradiction].
  - apply String.eqb_neq in E. simpl.
    destruct (string_dec n p); [contradiction | exact IH].
Qed.

Lemma fold_setKey_keys (names : list string) :
  forall o,
    NoDup o ->
    NoDup (fold_left setKey names o)
    /\ (forall name, In name (fold_left setKey names o)
                     <-> In name o \/ In name names).
Proof.
  induction names as [| n names IH]; simpl; intros o Ho.
  - split; [exact Ho |]. intros name.
    split; [auto | intros [Hn | []]; exact Hn].
  - destruct (IH (setKey o n) (@NoDup_setKey o n Ho)) as (Hnd & Hin).
    split; [exact Hnd |]. intros name. rewrite Hin.
    assert (Hset : In name (setKey o n) <-> In name o \/ n = name).
    { unfold setKey. destruct (hasOwnProperty o n) eqn:E.
      - split; [auto |]. intros [Hn | <-]; [exact Hn |].
        unfold hasOwnProperty in E. apply existsb_exists in E.
        destruct E as (x & Hx & Ex). apply String.eqb_eq in Ex.
        subst x. exact Hx.
      - rewrite in_app_iff. simpl.
        split; [intros [Hn | [Hn | []]]; auto
               | intros [Hn | Hn]; auto]. }
    rewrite Hset. tauto.
Qed.

(** The [variables] of the result are the variables the traversal
    meets, each once, in the order of their first occurrence: those of
    the variable definitions, of the arguments of fields and of kept
    directives, and those given directly as the value of an argument of
    [@arguments] on a spread.  The one exception is the name
    [__proto__]: [variables] is a plain object, and the first
    assignment of [null] to that key takes its prototype away instead of
    adding a key, so [__proto__] is among the variables only when the
    traversal meets it at least twice. *)
Theorem variables_recorded definition result :
  createClassicAST definition = inr result ->
  ca_variables result
  = fold_left setKey
              (withoutFirst "__proto__" (variablesOfDefinition definition))
              []
  /\ NoDup (ca_variables result)
  /\ (forall name,
         name <> "__proto__" ->
         (In name (ca_variables result)
          <-> In name (variablesOfDefinition definition)))
  /\ (In "__proto__" (ca_variables result)
      <-> 2 <= count_occ string_dec (variablesOfDefinition definition)
                         "__proto__").
Proof.
  intros H. apply createClassicAST_inr in H.
  destruct H as (s & H & _ & Hv). apply visit_facts in H.
  destruct H as (_ & Hvars & _).
  assert (Hkeys : ca_variables result
                  = fold_left setKey
                              (withoutFirst "__proto__"
                                 (variablesOfDefinition definition)) []).
  { rewrite Hv. change (variables s) with (fst (variableTable s)).
    rewrite Hvars. apply assignNull_with_prototype. }
  destruct (fold_setKey_keys
              (withoutFirst "__proto__" (variablesOfDefinition definition))
              (NoDup_nil _)) as (Hnd & Hin).
  rewrite <- Hkeys in Hnd, Hin.
  split; [exact Hkeys |]. split; [exact Hnd |]. split.
  - intros name Hne. rewrite Hin, In_withoutFirst by exact Hne.
    simpl. tauto.
  - rewrite Hin. simpl.
    rewrite (count_occ_In string_dec), count_withoutFirst.
    split; [intros [[] | Hc]; lia | intros Hc; right; lia].
Qed.

(** The keys of [fragments] are exactly the names, other than
    [__proto__], of the fragment spreads of the rewritten definition,
    each key once: every such spread has a substitution, and there is no
    substitution without a spread.  A spread named [__proto__] has none:
    [fragments] is a plain object, and assigning a slot to that key
    replaces its prototype instead of adding a key. *)
Theorem substitutions_match_spreads definition result :
  createClassicAST definition = inr result ->
  NoDup (map fst (ca_fragments result))
  /\ (forall name,
         In name (map fst (ca_fragments result))
         <-> name <> "__proto__"
             /\ In name (map fst (spreadsOf (classicAST result)))).
Proof.
  intros H. apply createClassicAST_inr in H.
  destruct H as (s & H & Hf & _). apply visit_facts in H.
  destruct H as (_ & _ & Hnd & Hk). rewrite Hf.
  split; [apply Hnd; constructor |].
  intros name. rewrite Hk. simpl. tauto.
Qed.

(** *** Argument definitions of the concrete node *)

Lemma mapE_inr {A B} (f : A -> ClassicError + B) (l : list A) (r : list B) :
  mapE f l = inr r -> Forall2 (fun x y => f x = inr y) l r.
Proof.
  revert r. induction l as [| x l IH]; simpl; intros r H.
  - inversion H; constructor.
  - destruct (f x) as [e | y] eqn:Hx; [discriminate |].
    destruct (mapE f l) as [e | ys]; [discriminate |].
    inversion H; subst. constructor; [exact Hx | apply IH; reflexivity].
Qed.

Lemma mapE_inl {A B} (f : A -> ClassicError + B) (l : list A) e :
  mapE f l = inl e -> exists x, In x l /\ f x = inl e.
Proof.
  induction l as [| x l IH]; simpl; intros H; [discriminate |].
  destruct (f x) as [e0 | y] eqn:Hx.
  - inversion H; subst. exists x. split; [left; reflexivity | exact Hx].
  - destruct (mapE f l) as [e1 | ys]; [| discriminate].
    inversion H; subst. destruct IH as (x' & Hin & Hx'); [reflexivity |].
    exists x'. split; [right; exact Hin | exact Hx'].
Qed.

(** [createOperationArguments] prints one local argument per variable
    definition, in order, with the printed default value, or a null
    literal when the definition has none.  It throws, the
    unsupported-literal error, exactly when some default value is not a
    literal. *)
Theorem createOperationArguments_spec
        (definitions : list VariableDefinitionNode) :
  match createOperationArguments (Some definitions) with
  | inr printed =>
      exists items,
        printed = ArrayLiteralExpression items
        /\ Forall2
             (fun definition item =>
                exists defaultValue,
                  item = ObjectLiteralExpression
                           [("defaultValue", defaultValue);
                            ("kind", StringLiteral "LocalArgument");
                            ("name",
                             StringLiteral (vdVariable definition))]
                  /\ match vdDefaultValue definition with
                     | Some value => parseValue value = inr defaultValue
                     | None => defaultValue = NullKeyword false
                     end)
             definitions items
  | inl e =>
      e = UnsupportedLiteral
      /\ exists definition value,
          In definition definitions
          /\ vdDefaultValue definition = Some value
          /\ isLiteral value = false
  end.
Proof.
  unfold createOperationArguments.
  destruct (mapE _ definitions) as [e | items] eqn:H.
  - apply mapE_inl in H. destruct H as (d & Hin & Hd).
    destruct (vdDefaultValue d) as [v |] eqn:Hv; [| discriminate].
    pose proof (parseValue_isLiteral v) as Hlit.
    destruct (parseValue v) as [e0 | p] eqn:Hp; [| discriminate].
    inversion Hd; subst e0.
    destruct (isLiteral v) eqn:El.
    + destruct Hlit as (p & Hp'). discriminate.
    + inversion Hlit; subst e. split; [reflexivity |].
      exists d, v. repeat split; assumption.
  - exists items. split; [reflexivity |].
    apply mapE_inr in H. revert H. apply Forall2_impl.
    intros d item Hd.
    destruct (vdDefaultValue d) as [v |].
    + destruct (parseValue v) as [e0 | p]; [discriminate |].
      inversion Hd; subst item. exists p. split; reflexivity.
    + inversion Hd; subst item. eexists. split; reflexivity.
Qed.

Lemma find_filter {A} (p q : A -> bool) (l : list A) :
  (forall x, p x = true -> q x = true) ->
  find p (filter q l) = find p l.
Proof.
  intros Hpq. induction l as [| x l IH]; simpl; [reflexivity |].
  destruct (q x) eqn:Eq; simpl.
  - rewrite IH. reflexivity.
  - destruct (p x) eqn:Ep; [| exact IH].
    apply Hpq in Ep. congruence.
Qed.

Lemma createFragmentArgument_used definitions (variables : KeySet) name :
  hasOwnProperty variables name = true ->
  createFragmentArgument
    (Some (filter (fun d => hasOwnProperty variables (argumentName d))
                  match definitions with
                  | Some l => l
                  | None => []
                  end)) name
  = createFragmentArgument definitions name.
Proof.
  intros H. unfold createFragmentArgument. rewrite find_filter.
  - reflexivity.
  - intros d Hd. apply String.eqb_eq in Hd. rewrite Hd. exact H.
Qed.

Lemma createFragmentArgument_shape definitions name item :
  createFragmentArgument definitions name = inr item ->
  propertyValue "name" (propertiesOf item) = Some (StringLiteral name)
  /\ propertyValue "kind" (propertiesOf item)
     = Some (StringLiteral
               (if existsb (fun d => String.eqb (argumentName d) name)
                           match definitions with
                           | Some l => l
                           | None => []
                           end
                then "LocalArgument" else "RootArgument")).
Proof.
  unfold createFragmentArgument.
  set (l := match definitions with Some l => l | None => [] end).
  destruct (find _ l) as [d |] eqn:Hfind.
  - assert (He : existsb (fun d => String.eqb (argumentName d) name) l
                 = true).
    { apply find_some in Hfind. apply existsb_exists. exists d. exact Hfind. }
    rewrite He.
    destruct (argumentValue d) as [| | | | | | | | fields];
      try discriminate.
    destruct (find _ fields) as [field |].
    + destruct (parseValue (snd field)); [discriminate |].
      intros H; inversion H; subst. split; reflexivity.
    + intros H; inversion H; subst. split; reflexivity.
  - assert (He : existsb (fun d => String.eqb (argumentName d) name) l
                 = false).
    { destruct (existsb _ l) eqn:E; [| reflexivity].
      apply existsb_exists in E. destruct E as (d & Hin & Hd).
      eapply find_none in Hfind; [| exact Hin]. simpl in Hfind. congruence. }
    rewrite He. intros H; inversion H; subst. split; reflexivity.
Qed.

(** [createFragmentArguments] goes through the variables the fragment
    uses, not through its argument definitions: the result has one
    concrete definition per variable, in the order of [variables], a
    local argument when [@argumentDefinitions] defines the variable and a
    root argument otherwise; a definition that no variable refers to is
    never looked at, so it neither shows in the result nor makes the
    call fail. *)
Theorem createFragmentArguments_by_variable
        (definitions : option (list ArgumentNode)) (variables : KeySet) :
  createFragmentArguments
    (Some (filter (fun d => hasOwnProperty variables (argumentName d))
                  match definitions with
                  | Some l => l
                  | None => []
                  end)) variables
  = createFragmentArguments definitions variables
  /\ (forall printed,
         createFragmentArguments definitions variables = inr printed ->
         exists items,
           printed = ArrayLiteralExpression items
           /\ Forall2
                (fun name item =>
                   propertyValue "name" (propertiesOf item)
                   = Some (StringLiteral name)
                   /\ propertyValue "kind" (propertiesOf item)
                      = Some (StringLiteral
                                (if existsb
                                      (fun d =>
                                         String.eqb (argumentName d) name)
                                      match definitions with
                                      | Some l => l
                                      | None => []
                                      end
                                 then "LocalArgument"
                                 else "RootArgument")))
                variables items).
Proof.
  unfold createFragmentArguments. split.
  - assert (Hgen : forall names,
               Forall (fun n => hasOwnProperty variables n = true) names ->
               createFragmentArgumentsOf
                 (Some (filter
                          (fun d => hasOwnProperty variables
                                                   (argumentName d))
                          match definitions with
                          | Some l => l
                          | None => []
                          end)) names
               = createFragmentArgumentsOf definitions names).
    { induction 1 as [| n names Hn _ IH]; simpl; [reflexivity |].
      rewrite createFragmentArgument_used by exact Hn. rewrite IH.
      reflexivity. }
    rewrite Hgen; [reflexivity |].
    apply Forall_forall. intros n Hn. unfold hasOwnProperty.
    apply existsb_exists. exists n. split; [exact Hn | apply String.eqb_refl].
  - intros printed H.
    destruct (createFragmentArgumentsOf definitions variables)
      as [e | items] eqn:Hitems; [discriminate |].
    inversion H; subst printed. clear H.
    exists items. split; [reflexivity |].
    revert items Hitems.
    induction variables as [| n names IH]; simpl; intros items H.
    + inversion H; constructor.
    + destruct (createFragmentArgument definitions n) as [e | item] eqn:Hn;
        [discriminate |].
      destruct (createFragmentArgumentsOf definitions names)
        as [e | rest]; [discriminate |].
      inversion H; subst items.
      constructor; [| apply IH; reflexivity].
      apply createFragmentArgument_shape. exact Hn.
Qed.

(** *** The slot of a spread with [@arguments] *)

Lemma convertArgument_name (arg : ArgumentNode) name ast :
  convertArgument arg = inr (name, ast) -> name = argumentName arg.
Proof.
  unfold convertArgument.
  destruct (argumentValue arg) as [v | | | | | | | |];
    try (intros H; inversion H; reflexivity);
    match goal with
    | |- context [parseValue ?v] => destruct (parseValue v)
    end;
    intros H; inversion H; reflexivity.
Qed.

Lemma convertArgument_Throw (arg : ArgumentNode) e :
  convertArgument arg = inl e -> e = UnsupportedLiteral.
Proof.
  unfold convertArgument.
  destruct (argumentValue arg) as [v | | | | | | | |] eqn:Hv;
    try discriminate;
    match goal with
    | |- context [parseValue ?v] =>
        pose proof (parseValue_isLiteral v) as Hlit;
        destruct (isLiteral v);
        [ destruct Hlit as (p & Hp); rewrite Hp; discriminate
        | rewrite Hlit; intros H; inversion H; reflexivity ]
    end.
Qed.

Lemma fold_assignObject {V} (l : list (string * V))
      (o : list (string * option V)) :
  fold_left (fun o p => assignObject o (fst p) (Some (snd p))) l o
  = fold_left (fun o p => assign o (fst p) (Some (snd p)))
              (filter (fun p => negb (String.eqb (fst p) "__proto__")) l)
              o.
Proof.
  revert o. induction l as [| p l IH]; intros o; simpl; [reflexivity |].
  unfold assignObject at 2.
  destruct (String.eqb (fst p) "__proto__"); simpl; apply IH.
Qed.

Lemma fragmentArguments_result (args : list ArgumentNode) :
  forall object s,
    match visitors.fragmentArguments args object s with
    | inr (result, s') =>
        exists asts,
          Forall2 (fun arg ast =>
                     convertArgument arg = inr (argumentName arg, ast))
                  args asts
          /\ result
             = fold_left (fun o p => assignObject o (fst p) (Some (snd p)))
                         (combine (map argumentName args) asts) object
    | inl e =>
        e = UnsupportedLiteral
        /\ exists arg,
            In arg args /\ convertArgument arg = inl UnsupportedLiteral
    end.
Proof.
  induction args as [| arg rest IH]; intros object s.
  - simpl. exists []. split; [constructor | reflexivity].
  - simpl. unfold andThen at 1.
    assert (Hrec : exists s0,
               match argumentValue arg with
               | VariableValue name => recordVariable name
               | _ => ret tt
               end s = inr (tt, s0)).
    { destruct (argumentValue arg); eexists; reflexivity. }
    destruct Hrec as (s0 & ->).
    destruct (convertArgument arg) as [e | [name ast]] eqn:Hc.
    + apply convertArgument_Throw in Hc as He. subst e.
      split; [reflexivity |]. exists arg.
      split; [left; reflexivity | exact Hc].
    + pose proof (convertArgument_name _ Hc) as ->.
      specialize (IH (assignObject object (argumentName arg) (Some ast))
                     s0).
      destruct (visitors.fragmentArguments rest _ s0) as [e | [result s']].
      * destruct IH as (-> & a & Hin & Ha).
        split; [reflexivity |]. exists a. split; [right; exact Hin | exact Ha].
      * destruct IH as (asts & Hall & ->).
        exists (ast :: asts). split; [constructor; assumption | reflexivity].
Qed.

Lemma slot_name_not_empty (name : string) (n : nat) :
  String.eqb (name ++ "_args" ++ showNat n)%string "" = false.
Proof. destruct name; reflexivity. Qed.

Lemma slot_name_not_proto (name : string) (n : nat) :
  String.eqb (name ++ "_args" ++ showNat n)%string "__proto__" = false.
Proof.
  apply String.eqb_neq. generalize (showNat n) as digits.
  intros digits H.
  do 10 (destruct name as [| ? name]; [simpl in H; discriminate H |]).
  simpl in H. discriminate H.
Qed.

(** A spread with the single directive [@arguments] is accepted exactly
    when every argument is converted: a variable or a literal value; the
    only exception is the unsupported-literal error, so such a spread
    never lacks a substitution name.  The spread is renamed with the next
    number of the counter, and its slot, stored under the new name, is
    masked, names the fragment and carries the arguments as an object to
    which the converted arguments are assigned in order, a later
    argument of the same name replacing the earlier one in place.  An
    argument named [__proto__] is converted like the others but is not
    among the keys: the object is a plain one, and assigning to that key
    replaces its prototype. *)
Theorem arguments_spread_slot (name : string) (args : list ArgumentNode)
        (s : NormalizerState) :
  match visitors.FragmentSpread
          name (Some [{| dName := "arguments"; dArguments := Some args |}])
          s with
  | inr (node, s') =>
      exists asts,
        Forall2 (fun arg ast =>
                   convertArgument arg = inr (argumentName arg, ast))
                args asts
        /\ node
           = FragmentSpreadNode
               (name ++ "_args" ++ showNat (S (fragmentID s))) (Some [])
        /\ fragmentID s' = S (fragmentID s)
        /\ fragments s'
           = assign (fragments s)
                    (name ++ "_args" ++ showNat (S (fragmentID s)))
                    {| slotFragment := name;
                       isMasked := true;
                       slotArgs :=
                         Some (ObjectLiteralExpression
                                 (map (fun kv =>
                                         (fst kv,
                                          match snd kv with
                                          | Some v => v
                                          | None => NullKeyword false
                                          end))
                                      (fold_left
                                         (fun o p =>
                                            assign o (fst p)
                                                   (Some (snd p)))
                                         (filter
                                            (fun p =>
                                               negb (String.eqb
                                                       (fst p)
                                                       "__proto__"))
                                            (combine
                                               (map argumentName args)
                                               asts))
                                         []))) |}
  | inl e =>
      e = UnsupportedLiteral
      /\ exists arg,
          In arg args /\ convertArgument arg = inl UnsupportedLiteral
  end.
Proof.
  unfold visitors.FragmentSpread. simpl.
  unfold andThen at 1 2.
  pose proof (fragmentArguments_result args [] s) as H.
  destruct (visitors.fragmentArguments args [] s) as [e | [object s0]] eqn:E.
  - exact H.
  - destruct H as (asts & Hall & ->).
    apply fragmentArguments_records in E. subst s0.
    unfold andThen, modify, get, ret, raise. simpl.
    pose proof (slot_name_not_empty name (S (fragmentID s))) as Hne.
    pose proof (slot_name_not_proto name (S (fragmentID s))) as Hnp.
    simpl in Hne, Hnp. rewrite Hne.
    exists asts. split; [exact Hall |]. split; [reflexivity |].
    split; [reflexivity |].
    unfold storeSlot, assignObject at 1. simpl. rewrite Hnp.
    rewrite fold_assignObject. reflexivity.
Qed.

(** ** Further instances on the sample documents *)

Section MoreInstances.
Import Sample Documents Spreads MoreDocuments.

(** [friends(first: 10) { edges }] is printed, so it passed both
    validators. *)
Lemma printField_validated_witness :
  exists node,
    printer_printField 20 friendsField root [] [] false = Ok node
    /\ RelayQLPrinter.validateField schema "id" friendsField Query = Ok tt
    /\ RelayQLPrinter.validateConnectionField schema options friendsField
       = Ok tt.
Proof.
  eexists. split; [vm_compute; reflexivity |].
  edestruct (@printField_validated Ty schema "id" options tag [] 20
                                   friendsField root [] [])
    as (Hfield & Hconnection); [vm_compute; reflexivity |].
  split; [exact Hfield | apply Hconnection; reflexivity].
Defined.

(** [viewer { node(id: 4) }]: the [node] field under the type [User]. *)
Lemma printField_misplaced_node_witness :
  printer_printField 10 (nodeField [] []) (OfField (viewerField []))
                     [] [] false
  = Throw (MisplacedNodeField "User").
Proof.
  exact (proj1 (@printField_misplaced_node
                  Ty schema "id" options tag [] 9 (nodeField [] [])
                  (OfField (viewerField [])) [] []
                  eq_refl eq_refl eq_refl)).
Defined.

(** [query Q { node(id: 4) }]: the call names the type [ID] of its
    argument. *)
Lemma printQuery_root_call_witness :
  exists node,
    printer_printQuery 10 (nodeQuery []) true = Ok node
    /\ propertyValue "calls" (propertiesOf node)
       = Some (ArrayLiteralExpression
                 [ObjectLiteralExpression
                    [("kind", StringLiteral "Call");
                     ("metadata",
                      ObjectLiteralExpression
                        [("type", StringLiteral "ID")]);
                     ("name", StringLiteral "id");
                     ("value",
                      ObjectLiteralExpression
                        [("kind", StringLiteral "CallValue");
                         ("callValue", NumericLiteral 4)])]]).
Proof.
  eexists. split; [vm_compute; reflexivity |].
  edestruct (@printQuery_root_call Ty schema "id" options tag [] 10
                                   (nodeQuery []) true (nodeField [] []) [])
    as (value & Hvalue & Hcalls & _);
    [reflexivity | vm_compute; reflexivity |].
  rewrite Hcalls. vm_compute in Hvalue. inversion Hvalue. reflexivity.
Defined.

(** [fragment F on User @relay(variables: ["a", 1]) { name }] is
    wrapped, with two initialisers: [a] is bound to its CallVariable
    object, and the number is handed on as the name of its initialiser,
    bound to the CallVariable object of its literal. *)
Lemma printFragment_variables_wrapper_witness :
  exists node code,
    printer_printFragment 10 fragmentWithNumberVariable = Ok node
    /\ node
       = CallExpression
           (PropertyAccessExpression (identify tag) "__createFragment")
           [ObjectLiteralExpression code;
            RawObjectLiteralExpression
              [(IdentifierName "a",
                ObjectLiteralExpression
                  [("kind", StringLiteral "CallVariable");
                   ("callVariableName", StringLiteral "a")]);
               (RawName (ArgScalar (SNum 1)),
                ObjectLiteralExpression
                  [("kind", StringLiteral "CallVariable");
                   ("callVariableName", NumericLiteral 1)])]].
Proof.
  edestruct (@printFragment_variables_wrapper
               Ty schema "id" options tag [] 10 fragmentWithNumberVariable)
    as (items & code & initializers & Hv & Hn & _ & Hall & _);
    [vm_compute; reflexivity |].
  eexists. exists code.
  split; [vm_compute; reflexivity |]. rewrite Hn.
  inversion Hv; subst items; clear Hv.
  inversion Hall as [| ? first ? rest1 Hfirst Hrest1]; subst.
  inversion Hrest1 as [| ? second ? rest2 Hsecond Hrest2]; subst.
  inversion Hrest2; subst.
  simpl in Hfirst, Hsecond. subst first second. reflexivity.
Defined.

(** [mutation Rename { rename(input: $input) { clientMutationId } }]:
    the requested [clientMutationId] is the only one printed. *)
Lemma client_ids_requisite_witness :
  exists node,
    RelayQLPrinter.printMutation schema "id" options tag [] 10
                                 renameMutation true = Ok node
    /\ countName "clientMutationId"
                 (map printedFieldName (printedChildren node)) = 1.
Proof.
  eexists. split; [vm_compute; reflexivity |].
  edestruct (proj1 (@client_ids_requisite
                      Ty schema "id" options tag []
                      (fun _ _ => eq_refl))
                   10 renameMutation true renameField [])
    as (requested & others & _ & _ & _ & _ & Htotal);
    [ reflexivity | reflexivity | vm_compute; reflexivity | exact Htotal ].
Defined.

(** [pageInfo] without selections: [hasNextPage] is generated once. *)
Lemma field_requisites_printed_witness :
  exists node,
    printer_printField 10 pageInfoField (OfField friendsField) [] [] false
    = Ok node
    /\ countName "hasNextPage"
                 (map printedFieldName (printedChildren node)) = 1.
Proof.
  eexists. split; [vm_compute; reflexivity |].
  edestruct (@field_requisites_printed
               Ty schema "id" options tag [] (fun _ _ => eq_refl)
               10 pageInfoField (OfField friendsField) [] [] false)
    as (requested & others & _ & _ & _ & _ & Htotal);
    [ vm_compute; reflexivity
    | right; left; split; [reflexivity | split; [reflexivity |]];
      left; reflexivity
    | exact Htotal ].
Defined.

(** [query Q { node(id: 4) }]: the identifying field [id] is generated
    once. *)
Lemma identity_requisite_printed_witness :
  exists node,
    printer_printQuery 10 (nodeQuery []) true = Ok node
    /\ countName "id" (map printedFieldName (printedChildren node)) = 1.
Proof.
  eexists. split; [vm_compute; reflexivity |].
  edestruct (proj1 (@identity_requisite_printed
                      Ty schema "id" options tag []
                      (fun _ _ => eq_refl))
                   10 (nodeQuery []) true (nodeField [] []) [])
    as (requested & others & _ & _ & _ & _ & Htotal);
    [ reflexivity | reflexivity | vm_compute; reflexivity | exact Htotal ].
Defined.

(** [fragment F on User { name ...Foo }]: the reference to [Foo] comes
    after the fields. *)
Lemma printSelections_order_witness :
  exists children printedFields,
    printer_printSelections 10 (OfFragment fragmentWithSpread) ["id"]
                            None false = Ok children
    /\ selectionElements children
       = printedFields
         ++ [CallExpression
               (PropertyAccessExpression (identify tag) "__frag")
               [Identifier "Foo"]].
Proof.
  edestruct (@printSelections_order
               Ty schema "id" options tag [] 10
               (OfFragment fragmentWithSpread) ["id"] None false)
    as (printedFields & printedFragments & printedExtra & Helems & _
        & Hfragments & Hextra);
    [vm_compute; reflexivity |].
  eexists. exists printedFields. split; [vm_compute; reflexivity |].
  rewrite Helems. simpl in Hfragments, Hextra.
  inversion Hextra; subst printedExtra.
  inversion Hfragments as [| ? ? ? ? Hfirst Hrest]; subst.
  simpl in Hfirst. destruct Hfirst as (_ & ->).
  inversion Hrest; subst. reflexivity.
Defined.

(** A [rename] field of the payload type, which has no [id] field but
    may be a [Node]: the generated id fragment is its last child. *)
Lemma generated_id_fragment_last_witness :
  exists node others printedId,
    RelayQLPrinter.printField payloadMayBeNode "id" options tag [] 10
                              renameField root [] [] false = Ok node
    /\ printedChildren node = others ++ [printedId]
    /\ RelayQLPrinter.printFragment payloadMayBeNode "id" options tag []
                                    8 (MkFragment "IdFragment" Node [] [])
       = Ok printedId.
Proof.
  edestruct (proj1 (@generated_id_fragment_last
                      Ty payloadMayBeNode "id" options tag [])
                   10 renameField root [] [] false)
    as (others & printedId & Hchildren & Hid);
    [reflexivity | reflexivity | vm_compute; reflexivity |].
  eexists. exists others, printedId.
  split; [vm_compute; reflexivity |].
  split; [exact Hchildren | exact Hid].
Defined.

(** The tag [Relay.QL] is read as a property access; the tag
    [RelayQL_GENERATED] as an identifier. *)
Lemma identify_round_trip_witness :
  identify "Relay.QL"
  = PropertyAccessExpression (Identifier "Relay") "QL"
  /\ accessPath (identify "Relay.QL") = Some "Relay.QL"
  /\ identify tag = Identifier tag.
Proof.
  split; [reflexivity |].
  split; [exact (proj1 (identify_round_trip "Relay.QL")) |].
  exact (proj2 (identify_round_trip tag) eq_refl).
Defined.

(** [clientMutationId] and [edges] in snake case. *)
Lemma toSnakeCase_normal_form_witness :
  toSnakeCase "clientMutationId" = "client_mutation_id"
  /\ toSnakeCase (toSnakeCase "clientMutationId")
     = toSnakeCase "clientMutationId"
  /\ toSnakeCase "edges" = "edges".
Proof.
  split; [reflexivity |].
  split; [exact (proj1 (proj2 (proj2 (toSnakeCase_normal_form
                                        "clientMutationId")))) |].
  apply (proj2 (proj2 (proj2 (proj2 (toSnakeCase_normal_form "edges"))))).
  repeat (constructor; [right; apply Nat.ltb_lt; reflexivity |]).
  constructor.
Defined.

(** [[1, $x]] is not a literal. *)
Lemma parseValue_literals_only_witness :
  parseValue (ListValue [IntValue 1; VariableValue "x"])
  = inl UnsupportedLiteral
  /\ exists printed,
      parseValue (ListValue [IntValue 1; EnumValue "RED"]) = inr printed.
Proof.
  split.
  - exact (proj1 (proj1 (proj2 (parseValue_literals_only
                                  (ListValue [IntValue 1;
                                              VariableValue "x"]))))
                 eq_refl).
  - exact (proj1 (proj1 (parseValue_literals_only
                           (ListValue [IntValue 1; EnumValue "RED"])))
                 eq_refl).
Defined.

(** The fragment with [@argumentDefinitions], [@connection],
    [@arguments] and [@relay(mask: false)]. *)
Lemma classicAST_is_normal_witness :
  exists result,
    createClassicAST fragmentWithDefinitions = inr result
    /\ isNormal (classicAST result) = true
    /\ classicAST result
       = FragmentDefinition
           "F" "User" []
           [FieldNode None "friends"
                      [{| argumentName := "first";
                          argumentValue := VariableValue "count" |}]
                      []
                      [FragmentSpreadNode "Foo_args1" (Some [])];
            FragmentSpreadNode "Bar" (Some [])].
Proof.
  eexists. split; [vm_compute; reflexivity |].
  split; [| reflexivity].
  apply (@classicAST_is_normal fragmentWithDefinitions).
  vm_compute; reflexivity.
Defined.

(** The same fragment: normalising its result again changes nothing. *)
Lemma createClassicAST_idempotent_witness :
  exists result again,
    createClassicAST fragmentWithDefinitions = inr result
    /\ createClassicAST (classicAST result) = inr again
    /\ classicAST again = classicAST result.
Proof.
  eexists.
  edestruct (@createClassicAST_idempotent fragmentWithDefinitions)
    as (again & Hagain & Hsame); [vm_compute; reflexivity |].
  exists again. split; [reflexivity |].
  split; [exact Hagain | exact Hsame].
Defined.

(** [query Q($__proto__: Int, $n: Int) { viewer }] meets [__proto__]
    once: only [n] is among the variables. *)
Lemma variables_recorded_witness :
  exists result,
    createClassicAST protoVariables = inr result
    /\ variablesOfDefinition protoVariables = ["__proto__"; "n"]
    /\ ca_variables result = ["n"].
Proof.
  eexists. split; [vm_compute; reflexivity |].
  split; [reflexivity |].
  edestruct (@variables_recorded protoVariables)
    as (Hvars & _ & _); [vm_compute; reflexivity |].
  rewrite Hvars. reflexivity.
Defined.

(** [fragment F on User { ...__proto__ ...Foo }]: both spreads are kept,
    and [Foo] alone has its slot. *)
Lemma substitutions_match_spreads_witness :
  exists result,
    createClassicAST protoSpread = inr result
    /\ map fst (spreadsOf (classicAST result)) = ["__proto__"; "Foo"]
    /\ In "Foo" (map fst (ca_fragments result))
    /\ ~ In "__proto__" (map fst (ca_fragments result)).
Proof.
  eexists. split; [vm_compute; reflexivity |].
  split; [reflexivity |].
  edestruct (@substitutions_match_spreads protoSpread)
    as (_ & Hkeys); [vm_compute; reflexivity |].
  split.
  - apply Hkeys. split; [discriminate | right; left; reflexivity].
  - intros Hin. apply Hkeys in Hin. destruct Hin as (Hne & _).
    apply Hne. reflexivity.
Defined.

(** The fragment uses [count] and [y]; [count] is defined, with a
    default, [y] is not, and the malformed definition of [unused] does
    no harm. *)
Lemma createFragmentArguments_by_variable_witness :
  exists printed items,
    createFragmentArguments
      (Some [{| argumentName := "count";
                argumentValue :=
                  ObjectValue [("type", StringValue "Int");
                               ("defaultValue", IntValue 10)] |};
             {| argumentName := "unused"; argumentValue := IntValue 3 |}])
      ["count"; "y"]
    = inr printed
    /\ printed = ArrayLiteralExpression items
    /\ map (fun item => propertyValue "kind" (propertiesOf item)) items
       = [Some (StringLiteral "LocalArgument");
          Some (StringLiteral "RootArgument")].
Proof.
  eexists.
  edestruct (proj2 (createFragmentArguments_by_variable
                      (Some [{| argumentName := "count";
                                argumentValue :=
                                  ObjectValue
                                    [("type", StringValue "Int");
                                     ("defaultValue", IntValue 10)] |};
                             {| argumentName := "unused";
                                argumentValue := IntValue 3 |}])
                      ["count"; "y"]))
    as (items & Hprinted & Hall); [vm_compute; reflexivity |].
  exists items. split; [reflexivity |]. split; [exact Hprinted |].
  inversion Hall as [| ? ? ? ? Hfirst Hrest]; subst.
  inversion Hrest as [| ? ? ? ? Hsecond Hnil]; subst.
  inversion Hnil; subst. simpl.
  rewrite (proj2 Hfirst), (proj2 Hsecond). reflexivity.
Defined.

(** The argument [first: 10] prints as a CallValue, and [id: $id] of a
    printer that substitutes [id] as a run-time reference. *)
Lemma printArgumentValue_shape_witness :
  RelayQLPrinter.printArgumentValue
    tag [] (MkArgument "first" intType (ArgScalar (SNum 10)))
  = Ok (ObjectLiteralExpression
          [("kind", StringLiteral "CallValue");
           ("callValue", NumericLiteral 10)]).
Proof.
  edestruct (@printArgumentValue_shape
               tag [] (MkArgument "first" intType (ArgScalar (SNum 10))))
    as (_ & Hshape); [reflexivity |].
  simpl in Hshape. rewrite <- Hshape. reflexivity.
Defined.

(** [@include(if: $show) @relay(plural: true)]: the one directive
    printed is [@include]. *)
Lemma printDirectives_all_but_relay_witness :
  RelayQLPrinter.printDirectives
    tag []
    [includeIfShow;
     relay [MkArgument "plural" booleanType (ArgScalar (SBool true))]]
  = Ok (ArrayLiteralExpression
          [ObjectLiteralExpression
             [("kind", StringLiteral "Directive");
              ("name", StringLiteral "include");
              ("args",
               ArrayLiteralExpression
                 [ObjectLiteralExpression
                    [("name", StringLiteral "if");
                     ("value",
                      ObjectLiteralExpression
                        [("kind", StringLiteral "CallVariable");
                         ("callVariableName", StringLiteral "show")])]])]]).
Proof.
  edestruct (@printDirectives_all_but_relay
               tag []
               [includeIfShow;
                relay [MkArgument "plural" booleanType
                                  (ArgScalar (SBool true))]])
    as (nodes & Hprinted & Hnodes); [reflexivity |].
  simpl in Hnodes.
  inversion Hnodes as [| ? node ? others Hnode Hothers]; subst.
  inversion Hothers; subst.
  destruct Hnode as (args & -> & Hargs).
  simpl in Hargs.
  inversion Hargs as [| ? arg ? rest Harg Hrest]; subst.
  inversion Hrest; subst.
  destruct Harg as (value & Hvalue & ->).
  vm_compute in Hvalue. inversion Hvalue; subst value.
  vm_compute. reflexivity.
Defined.

(** [...Foo @arguments(__proto__: 1, a: 2)]: the slot [Foo_args1]
    carries the object with the one key [a]. *)
Lemma arguments_spread_slot_witness :
  exists node s',
    visitors.FragmentSpread
      "Foo"
      (Some [arguments [{| argumentName := "__proto__";
                           argumentValue := IntValue 1 |};
                        {| argumentName := "a";
                           argumentValue := IntValue 2 |}]])
      initialState
    = inr (node, s')
    /\ node = FragmentSpreadNode "Foo_args1" (Some [])
    /\ fragments s'
       = [("Foo_args1",
           {| slotFragment := "Foo";
              isMasked := true;
              slotArgs :=
                Some (ObjectLiteralExpression
                        [("a", NumericLiteral 2)]) |})].
Proof.
  pose proof (arguments_spread_slot
                "Foo"
                [{| argumentName := "__proto__";
                    argumentValue := IntValue 1 |};
                 {| argumentName := "a"; argumentValue := IntValue 2 |}]
                initialState) as H.
  change (Some [{| dName := "arguments";
                   dArguments :=
                     Some [{| argumentName := "__proto__";
                              argumentValue := IntValue 1 |};
                           {| argumentName := "a";
                              argumentValue := IntValue 2 |}] |}])
    with (Some [arguments [{| argumentName := "__proto__";
                              argumentValue := IntValue 1 |};
                           {| argumentName := "a";
                              argumentValue := IntValue 2 |}]]) in H.
  destruct (visitors.FragmentSpread _ _ initialState)
    as [e | [node s']] eqn:E; [vm_compute in E; discriminate E |].
  destruct H as (asts & Hasts & Hnode & _ & Hfragments).
  exists node, s'. split; [reflexivity |]. split; [exact Hnode |].
  rewrite Hfragments.
  inversion Hasts as [| ? first ? rest1 Hfirst Hrest1]; subst.
  inversion Hrest1 as [| ? second ? rest2 Hsecond Hrest2]; subst.
  inversion Hrest2; subst.
  vm_compute in Hfirst, Hsecond.
  inversion Hfirst; inversion Hsecond; subst.
  reflexivity.
Defined.

End MoreInstances.
